(** * A Brainfuck interpreter over pointer-linked tapes (brainfuck.c)

    The interpreter keeps its program and its data on two doubly linked
    lists of [struct StackBlock] that grow on demand at either end.  The
    development below embeds the C functions over an explicit heap of
    blocks, so that pointers, sharing and allocation are visible, and
    proves properties of the bracket validator, the loader, the tape
    movements and the execution loop. *)

From Stdlib Require Import ZArith Lia.
From Stdlib.Strings Require Import Byte.
From Stdlib.Strings Require String.
From stdpp Require Import base list numbers.
Import String.StringSyntax.
Local Open Scope string_scope.
Local Open Scope Z_scope.

(** ** Results of calls

    A call either returns, dereferences a pointer that names no block
    (undefined behaviour in C), or is cut off by the loop budget that
    stands for "still running". *)

Inductive outcome (A : Type) : Type :=
| Done (a : A)
| Fault
| Timeout.

Arguments Done {A} a.
Arguments Fault {A}.
Arguments Timeout {A}.

#[global] Instance outcome_ret : MRet outcome := λ A a, Done a.

#[global] Instance outcome_bind : MBind outcome := λ A B f m,
  match m with
  | Done a => f a
  | Fault => Fault
  | Timeout => Timeout
  end.

(** ** Characters

    [char] is the signed 8-bit type of the reference platform: a value
    that does not fit is reduced modulo 256 into -128..127. *)

Definition to_char (z : Z) : Z := (z + 128) mod 256 - 128.

(** The value of a byte of a stream, as [fgetc] and [getchar] return it:
    an [unsigned char] converted to [int]. *)
Definition byte_to_Z (b : byte) : Z := Z.of_N (Byte.to_N b).

(** The byte that [printf("%c", d)] writes: [d] converted to
    [unsigned char]. *)
Definition to_uchar (d : Z) : byte :=
  match Byte.of_N (Z.to_N (d mod 256)) with
  | Some b => b
  | None => x00
  end.

Definition EOF : Z := -1.

(** Commands *)
Definition MOVE_FORWARD : Z := 62.   (* '>' *)
Definition MOVE_BACKWARD : Z := 60.  (* '<' *)
Definition INCREMENT_DATA : Z := 43. (* '+' *)
Definition DECREMENT_DATA : Z := 45. (* '-' *)
Definition OUTPUT_DATA : Z := 46.    (* '.' *)
Definition INPUT_DATA : Z := 44.     (* ',' *)
Definition LOOP_START : Z := 91.     (* '[' *)
Definition LOOP_END : Z := 93.       (* ']' *)

(** ** Blocks and the heap

    A pointer is the index of a block in the heap; [NULL] is [None].
    [malloc] hands out the next free index and never fails (the
    out-of-memory exit of the C code is outside the model); nothing is
    freed before the run is over. *)

Definition ptr : Type := nat.

Record StackBlock : Type := mkBlock {
  next : option ptr;
  prev : option ptr;
  data : Z
}.

Abbreviation heap := (list StackBlock).

Definition load (h : heap) (p : ptr) : outcome StackBlock :=
  match h !! p with
  | Some b => Done b
  | None => Fault
  end.

Definition set_next (n : option ptr) (b : StackBlock) : StackBlock :=
  mkBlock n (prev b) (data b).

Definition set_prev (n : option ptr) (b : StackBlock) : StackBlock :=
  mkBlock (next b) n (data b).

Definition set_data (d : Z) (b : StackBlock) : StackBlock :=
  mkBlock (next b) (prev b) d.

(** ** checkBrackets

    [file] is the list of bytes not yet read.  [command] is a [char], so
    the value of [fgetc] is narrowed before it is compared with [EOF].
    [loopCounter] is an [int]; it is bounded by the number of bytes read
    and is kept as an unbounded integer. *)

Fixpoint checkBrackets_loop (file : list byte) (loopCounter : Z) : bool :=
  match file with
  | [] => loopCounter =? 0
  | c :: file =>
      let command := to_char (byte_to_Z c) in
      if command =? EOF then loopCounter =? 0
      else
        let loopCounter :=
          if command =? LOOP_START then loopCounter + 1 else loopCounter in
        let loopCounter :=
          if command =? LOOP_END then loopCounter - 1 else loopCounter in
        if loopCounter <? 0 then false
        else checkBrackets_loop file loopCounter
  end.

Definition checkBrackets (file : list byte) : bool :=
  checkBrackets_loop file 0.

(** ** Tape movement *)

Definition moveForward (h : heap) (blockPointer : ptr) : outcome (heap * ptr) :=
  b ← load h blockPointer;
  match next b with
  | Some n => Done (h, n)
  | None =>
      let newBlock := length h in
      let h := h ++ [mkBlock None (Some blockPointer) 0] in
      let h := <[blockPointer := set_next (Some newBlock) b]> h in
      Done (h, newBlock)
  end.

Definition moveBackward (h : heap) (blockPointer : ptr) : outcome (heap * ptr) :=
  b ← load h blockPointer;
  match prev b with
  | Some n => Done (h, n)
  | None =>
      let newBlock := length h in
      let h := h ++ [mkBlock (Some blockPointer) None 0] in
      let h := <[blockPointer := set_prev (Some newBlock) b]> h in
      Done (h, newBlock)
  end.

(** ** Cell operations *)

Definition incrementData (h : heap) (blockPointer : ptr) : outcome heap :=
  b ← load h blockPointer;
  Done (<[blockPointer := set_data (to_char (data b + 1)) b]> h).

Definition decrementData (h : heap) (blockPointer : ptr) : outcome heap :=
  b ← load h blockPointer;
  Done (<[blockPointer := set_data (to_char (data b - 1)) b]> h).

(** The interpreter state: the heap, the two cursors of [executeProgram]
    and the two standard streams ([stdin] holds the bytes not yet read,
    [stdout] the bytes written so far, oldest first). *)

Record engine : Type := mkEngine {
  mem : heap;
  InstructionPointer : ptr;
  DataPointer : ptr;
  stdin : list byte;
  stdout : list byte
}.

Definition with_mem (h : heap) (s : engine) : engine :=
  mkEngine h (InstructionPointer s) (DataPointer s) (stdin s) (stdout s).

Definition with_ip (p : ptr) (s : engine) : engine :=
  mkEngine (mem s) p (DataPointer s) (stdin s) (stdout s).

Definition with_dp (p : ptr) (s : engine) : engine :=
  mkEngine (mem s) (InstructionPointer s) p (stdin s) (stdout s).

Definition outputData (s : engine) : outcome engine :=
  b ← load (mem s) (DataPointer s);
  Done (mkEngine (mem s) (InstructionPointer s) (DataPointer s) (stdin s)
          (stdout s ++ [to_uchar (data b)])).

(** [getchar]: the next byte of the input, or [EOF] once it is used up. *)
Definition getchar (input : list byte) : Z * list byte :=
  match input with
  | [] => (EOF, [])
  | c :: rest => (byte_to_Z c, rest)
  end.

Definition inputData (s : engine) : outcome engine :=
  b ← load (mem s) (DataPointer s);
  let '(c, rest) := getchar (stdin s) in
  Done (mkEngine (<[DataPointer s := set_data (to_char c) b]> (mem s))
          (InstructionPointer s) (DataPointer s) rest (stdout s)).

(** ** parseInstructions *)

Definition is_command (command : Z) : bool :=
  (command =? MOVE_FORWARD) || (command =? MOVE_BACKWARD)
  || (command =? INCREMENT_DATA) || (command =? DECREMENT_DATA)
  || (command =? OUTPUT_DATA) || (command =? INPUT_DATA)
  || (command =? LOOP_START) || (command =? LOOP_END).

Fixpoint parseInstructions_loop (file : list byte) (h : heap) (currentBlock : ptr)
  : outcome heap :=
  match file with
  | [] => Done h
  | c :: file =>
      let command := to_char (byte_to_Z c) in
      if command =? EOF then Done h
      else if is_command command then
        b ← load h currentBlock;
        let h := <[currentBlock := set_data command b]> h in
        '(h, currentBlock) ← moveForward h currentBlock;
        parseInstructions_loop file h currentBlock
      else parseInstructions_loop file h currentBlock
  end.

Definition parseInstructions (file : list byte) (h : heap) (instructionHead : ptr)
  : outcome heap :=
  parseInstructions_loop file h instructionHead.

(** ** executeProgram

    The two scanning loops and the main loop carry a budget of
    iterations; a loop that uses it up yields [Timeout]. *)

Fixpoint scanForward (fuel : nat) (h : heap) (ip : ptr) (loopCounter : Z)
  : outcome (heap * ptr) :=
  if loopCounter =? 0 then Done (h, ip)
  else
    match fuel with
    | O => Timeout
    | S fuel =>
        '(h, ip) ← moveForward h ip;
        b ← load h ip;
        if data b =? LOOP_START then scanForward fuel h ip (loopCounter + 1)
        else if data b =? LOOP_END then scanForward fuel h ip (loopCounter - 1)
        else scanForward fuel h ip loopCounter
    end.

Fixpoint scanBackward (fuel : nat) (h : heap) (ip : ptr) (loopCounter : Z)
  : outcome (heap * ptr) :=
  if loopCounter =? 0 then Done (h, ip)
  else
    match fuel with
    | O => Timeout
    | S fuel =>
        '(h, ip) ← moveBackward h ip;
        b ← load h ip;
        if data b =? LOOP_START then scanBackward fuel h ip (loopCounter - 1)
        else if data b =? LOOP_END then scanBackward fuel h ip (loopCounter + 1)
        else scanBackward fuel h ip loopCounter
    end.

(** The [switch] of the main loop, on the instruction [i]. *)
Definition dispatch (fuel : nat) (i : Z) (s : engine) : outcome engine :=
  if i =? MOVE_FORWARD then
    '(h, p) ← moveForward (mem s) (DataPointer s);
    Done (with_dp p (with_mem h s))
  else if i =? MOVE_BACKWARD then
    '(h, p) ← moveBackward (mem s) (DataPointer s);
    Done (with_dp p (with_mem h s))
  else if i =? INCREMENT_DATA then
    h ← incrementData (mem s) (DataPointer s);
    Done (with_mem h s)
  else if i =? DECREMENT_DATA then
    h ← decrementData (mem s) (DataPointer s);
    Done (with_mem h s)
  else if i =? OUTPUT_DATA then outputData s
  else if i =? INPUT_DATA then inputData s
  else if i =? LOOP_START then
    d ← load (mem s) (DataPointer s);
    if data d =? 0 then
      '(h, p) ← scanForward fuel (mem s) (InstructionPointer s) 1;
      Done (with_ip p (with_mem h s))
    else Done s
  else if i =? LOOP_END then
    d ← load (mem s) (DataPointer s);
    if negb (data d =? 0) then
      '(h, p) ← scanBackward fuel (mem s) (InstructionPointer s) 1;
      Done (with_ip p (with_mem h s))
    else Done s
  else Done s.

(** One pass through the body of the main loop: the [switch], then the
    step to the next instruction. *)
Definition loop_body (fuel : nat) (s : engine) : outcome engine :=
  i ← load (mem s) (InstructionPointer s);
  s ← dispatch fuel (data i) s;
  '(h, p) ← moveForward (mem s) (InstructionPointer s);
  Done (with_ip p (with_mem h s)).

Fixpoint executeProgram (fuel : nat) (s : engine) : outcome engine :=
  i ← load (mem s) (InstructionPointer s);
  if data i =? 0 then Done s
  else
    match fuel with
    | O => Timeout
    | S fuel => s ← loop_body fuel s; executeProgram fuel s
    end.

(** The state after [n] passes through the loop body, or the final state
    if the loop exits earlier. *)
Fixpoint iterations (fuel : nat) (n : nat) (s : engine) : outcome engine :=
  match n with
  | O => Done s
  | S n =>
      i ← load (mem s) (InstructionPointer s);
      if data i =? 0 then Done s
      else s ← loop_body fuel s; iterations fuel n s
  end.

(** ** main

    The part of [main] after the file has been opened.  [malloc] returns
    blocks with arbitrary contents; [main] sets the links of both heads
    and the data of [dataHead], and leaves [instructionHead->data] as it
    came: [junk] is that byte. *)

Definition instructionHead : ptr := 0%nat.
Definition dataHead : ptr := 1%nat.

Definition fresh_heads (junk : Z) : heap :=
  [mkBlock None None junk; mkBlock None None 0].

Definition boot (junk : Z) (file : list byte) (input : list byte) : outcome engine :=
  h ← parseInstructions file (fresh_heads junk) instructionHead;
  Done (mkEngine h instructionHead dataHead input []).

Inductive run_result : Type :=
| Rejected (out : list byte)   (* exit status 1 *)
| Exited (s : engine).         (* exit status 0 *)

Definition unmatched_message : list byte :=
  String.list_byte_of_string "Error: Unmatched brackets" ++ [x0a].

Definition main (junk : Z) (file : list byte) (input : list byte) (fuel : nat)
  : outcome run_result :=
  if negb (checkBrackets file) then Done (Rejected unmatched_message)
  else
    s ← boot junk file input;
    s ← executeProgram fuel s;
    Done (Exited s).

(** The cells of a tape from [p] onwards, following [next]. *)
Fixpoint cells_from (fuel : nat) (h : heap) (p : option ptr) : list ptr :=
  match fuel, p with
  | S fuel, Some p =>
      match h !! p with
      | Some b => p :: cells_from fuel h (next b)
      | None => []
      end
  | _, _ => []
  end.

Definition tape_cells (h : heap) (head : ptr) : list ptr :=
  cells_from (length h) h (Some head).

Definition value_at (h : heap) (p : ptr) : Z :=
  match h !! p with
  | Some b => data b
  | None => 0
  end.

Definition tape_values (h : heap) (head : ptr) : list Z :=
  value_at h <$> tape_cells h head.

Definition source (s : String.string) : list byte := String.list_byte_of_string s.


(** ** The vocabulary of the specification

    The definitions of this section restate the specification's words
    over byte streams; the theorems compare them with the functions
    above. *)

(** The change of nesting depth a source byte stands for. *)
Definition bracket_delta (c : byte) : Z :=
  if Byte.eqb c "["%byte then 1
  else if Byte.eqb c "]"%byte then -1
  else 0.

(** The depth counter after a stream, starting from 0. *)
Fixpoint running_depth (s : list byte) : Z :=
  match s with
  | [] => 0
  | c :: s => bracket_delta c + running_depth s
  end.

(** The depth never goes negative on a prefix and ends at 0. *)
Definition well_bracketed (s : list byte) : Prop :=
  (∀ k : nat, 0 ≤ running_depth (take k s)) ∧ running_depth s = 0.

(** The eight instruction symbols. *)
Definition is_symbol (c : byte) : bool :=
  existsb (Byte.eqb c)
    [">"%byte; "<"%byte; "+"%byte; "-"%byte; "."%byte; ","%byte; "["%byte; "]"%byte].

Definition symbols_of (s : list byte) : list byte := List.filter is_symbol s.

(** The part of a stream before its first byte 0xFF. *)
Fixpoint upto_EOF (file : list byte) : list byte :=
  match file with
  | [] => []
  | c :: file => if Byte.eqb c xff then [] else c :: upto_EOF file
  end.

(** The same depth bookkeeping over the values of instruction cells. *)
Definition delta (i : Z) : Z :=
  if i =? LOOP_START then 1 else if i =? LOOP_END then -1 else 0.

Fixpoint depth (prog : list Z) : Z :=
  match prog with
  | [] => 0
  | i :: prog => delta i + depth prog
  end.

Definition balanced (prog : list Z) : Prop :=
  (∀ k : nat, 0 ≤ depth (take k prog)) ∧ depth prog = 0.

(** ** Well-formed tapes

    [linked h l]: the blocks [l], in this order, form one doubly linked
    list in [h], from a block without predecessor to a block without
    successor. *)
Definition linked (h : heap) (l : list ptr) : Prop :=
  NoDup l ∧
  ∀ (i : nat) (p : ptr), l !! i = Some p →
    ∃ b, h !! p = Some b
         ∧ next b = l !! S i
         ∧ prev b = match i with O => None | S j => l !! j end.



(** [evolves h h' l]: what operations on the tape [l] may do to the
    heap: allocate, keep the data of every block, and keep the blocks
    outside [l] as they are. *)
Definition evolves (h h' : heap) (l : list ptr) : Prop :=
  (length h ≤ length h')%nat
  ∧ (∀ r : ptr, (r < length h)%nat → value_at h' r = value_at h r)
  ∧ (∀ r : ptr, r ∉ l → (r < length h)%nat → h' !! r = h !! r).

(** What the loader is to store: the instruction symbols of the part of
    the file that is read, in order, as cell values. *)
Definition loaded_symbols (file : list byte) : list Z :=
  byte_to_Z <$> symbols_of (upto_EOF file).

(** [tape_step h l h' l']: operations on the tape [l] of [h] led to the
    tape [l'] of [h']: the old blocks are still on it and every other
    block of it is new. *)
Definition tape_step (h : heap) (l : list ptr) (h' : heap) (l' : list ptr) : Prop :=
  linked h' l'
  ∧ (∀ r : ptr, r ∈ l → r ∈ l')
  ∧ (∀ r : ptr, r ∈ l' → r ∈ l ∨ (length h ≤ r)%nat)
  ∧ evolves h h' l.

(** The two tapes of the interpreter: [li] holds the instruction cursor,
    [ld] the data cursor, and they share no block. *)
Definition tapes_ok (h : heap) (ip dp : ptr) (li ld : list ptr) : Prop :=
  linked h li ∧ linked h ld
  ∧ (∀ r : ptr, r ∈ li → r ∉ ld)
  ∧ ip ∈ li ∧ dp ∈ ld.

Definition engine_ok (s : engine) (li ld : list ptr) : Prop :=
  tapes_ok (mem s) (InstructionPointer s) (DataPointer s) li ld.

(** [keeps s s' li li']: from [s] to [s'] the blocks of the instruction
    tape [li] stay on the tape and keep their data. *)
Definition keeps (s s' : engine) (li li' : list ptr) : Prop :=
  (∀ r : ptr, r ∈ li → r ∈ li')
  ∧ (∀ r : ptr, r ∈ li → value_at (mem s') r = value_at (mem s) r).

(** [running prog li s]: the instruction tape of [s] is [li] and holds
    [prog] followed by the end-of-program cell. *)
Definition running (prog : list Z) (li : list ptr) (s : engine) : Prop :=
  (value_at (mem s) <$> li) = prog ++ [0]
  ∧ ∃ ld : list ptr, engine_ok s li ld.

(** [reached s0 s]: [s] is the state of a run from [s0] before some
    pass through the loop body, or the state in which the run ended. *)
Definition reached (s0 s : engine) : Prop :=
  (∃ fuel n : nat, iterations fuel n s0 = Done s)
  ∨ (∃ fuel : nat, executeProgram fuel s0 = Done s).

(** The states of the run of [+[]]: as [main] starts it, and after the
    increment, with the instruction cursor on the loop start. *)
Definition spin_boot : engine :=
  mkEngine
    [mkBlock (Some 2%nat) None INCREMENT_DATA;
     mkBlock None None 0;
     mkBlock (Some 3%nat) (Some 0%nat) LOOP_START;
     mkBlock (Some 4%nat) (Some 2%nat) LOOP_END;
     mkBlock None (Some 3%nat) 0]
    0%nat 1%nat [] [].

Definition spin_state : engine :=
  mkEngine
    [mkBlock (Some 2%nat) None INCREMENT_DATA;
     mkBlock None None 1;
     mkBlock (Some 3%nat) (Some 0%nat) LOOP_START;
     mkBlock (Some 4%nat) (Some 2%nat) LOOP_END;
     mkBlock None (Some 3%nat) 0]
    2%nat 1%nat [] [].

(** ** The rest of the program: file names, release of the tapes, [main]
    from the command line *)

(** Strings are the bytes before the terminating NUL.  [strrchr] and
    [strcmp] are the C library's, by their contract: [strrchr] gives the
    offset of the last occurrence of a byte, [strcmp] compares bytes as
    [unsigned char] and gives the sign of the first difference. *)
Fixpoint strrchr (s : list byte) (c : byte) : option nat :=
  match s with
  | [] => None
  | x :: s =>
      match strrchr s c with
      | Some k => Some (S k)
      | None => if Byte.eqb x c then Some O else None
      end
  end.

Fixpoint strcmp (a b : list byte) : Z :=
  match a, b with
  | [], [] => 0
  | [], _ :: _ => -1
  | _ :: _, [] => 1
  | x :: a, y :: b =>
      if Byte.eqb x y then strcmp a b
      else Z.sgn (byte_to_Z x - byte_to_Z y)
  end.

(** Extension for Brainfuck files *)
Definition BF_EXTENSION : list byte := source "bf".

Definition validate_file_extension (filename extension : list byte) : bool :=
  match strrchr filename "."%byte with
  | None => false
  | Some O => false
  | Some (S k) => strcmp (drop (S (S k)) filename) extension =? 0
  end.

(** [freeBlocks]: [freed] is the list of blocks given back to the
    allocator so far.  Reading the [next] field of a block that was
    freed, or freeing it again, is undefined.  A walk along [next] either
    ends or comes back to a freed block within as many steps as the heap
    has blocks, which bounds the loop. *)
Fixpoint freeBlocks_loop (fuel : nat) (h : heap) (freed : list ptr)
    (currentBlock : option ptr) : outcome (list ptr) :=
  match currentBlock with
  | None => Done freed
  | Some p =>
      match fuel with
      | O => Timeout
      | S fuel =>
          if bool_decide (p ∈ freed) then Fault
          else
            b ← load h p;
            freeBlocks_loop fuel h (freed ++ [p]) (next b)
      end
  end.

Definition freeBlocks (h : heap) (freed : list ptr) (block : ptr)
  : outcome (list ptr) :=
  freeBlocks_loop (S (length h)) h freed (Some block).

(** The two calls at the end of [main]. *)
Definition release (s : engine) : outcome (list ptr) :=
  freed ← freeBlocks (mem s) [] instructionHead;
  freeBlocks (mem s) freed dataHead.

Definition usage_message (argv0 : list byte) : list byte :=
  source "Usage: " ++ argv0 ++ source " <filename>" ++ [x0a].

Definition extension_message : list byte :=
  source "Invalid file extension. Please provide a 'bf' file." ++ [x0a].

(** [main] with its arguments: [argv0] is the program name, [args] the
    arguments after it, [fs] the files that can be opened for reading,
    each with the bytes read from it.  The result is the exit status and
    what was printed.  When the file cannot be opened, [main] prints a
    message and then calls [fclose] on the null stream, which is
    undefined.  The validator and the loader are given the same bytes:
    this is [rewind] on a regular file.  On a stream that cannot be
    repositioned (a pipe, a terminal) [rewind] fails and the loader reads
    on from where the validator stopped; what is loaded then is not
    described here. *)
Definition main_argv (fs : list byte → option (list byte)) (junk : Z)
    (argv0 : list byte) (args : list (list byte)) (input : list byte)
    (fuel : nat) : outcome (Z * list byte) :=
  match args with
  | [filename] =>
      if negb (validate_file_extension filename BF_EXTENSION)
      then Done (1, extension_message)
      else
        match fs filename with
        | None => Fault
        | Some file =>
            r ← main junk file input fuel;
            match r with
            | Rejected out => Done (1, out)
            | Exited s => _ ← release s; Done (0, stdout s)
            end
        end
  | _ => Done (1, usage_message argv0)
  end.

(** ** More vocabulary for the properties below *)

(** Every block of the heap is on one of the two tapes. *)
Definition heap_split (h : heap) (li ld : list ptr) : Prop :=
  ∀ r : ptr, (r < length h)%nat → r ∈ li ∨ r ∈ ld.

(** [shape s li ld]: the heap of [s] is the two disjoint well-formed
    tapes [li] and [ld] and nothing else; the cursors and the two heads
    are on them. *)
Definition shape (s : engine) (li ld : list ptr) : Prop :=
  engine_ok s li ld
  ∧ heap_split (mem s) li ld
  ∧ instructionHead ∈ li ∧ dataHead ∈ ld.

(** [tape_grow h l h' l']: a [tape_step] in which every block allocated
    on the way is on the tape. *)
Definition tape_grow (h : heap) (l : list ptr) (h' : heap) (l' : list ptr) : Prop :=
  tape_step h l h' l'
  ∧ ∀ r : ptr, (r < length h')%nat → (r < length h)%nat ∨ r ∈ l'.

(** [closes prog i j]: the cell [j] holds the loop end that matches the
    loop start in cell [i]: it is the first cell after [i] at which the
    nesting depth is back to what it was before [i]. *)
Definition closes (prog : list Z) (i j : nat) : Prop :=
  (i < j)%nat
  ∧ prog !! i = Some LOOP_START
  ∧ prog !! j = Some LOOP_END
  ∧ depth (take (S j) prog) = depth (take i prog)
  ∧ ∀ k : nat, (i ≤ k < j)%nat → depth (take i prog) < depth (take (S k) prog).

(** * Proofs *)

(** ** The result monad *)

Lemma bind_Done {A B} (m : outcome A) (f : A → outcome B) (r : B) :
  m ≫= f = Done r ↔ ∃ a, m = Done a ∧ f a = Done r.
Proof.
  destruct m as [a| |]; simpl; split.
  - intros H. exists a. done.
  - intros (a' & [= <-] & H). done.
  - discriminate.
  - intros (a' & [=] & _).
  - discriminate.
  - intros (a' & [=] & _).
Qed.

Lemma load_Done (h : heap) (p : ptr) (b : StackBlock) :
  load h p = Done b ↔ h !! p = Some b.
Proof.
  unfold load. destruct (h !! p); split; intros H; try discriminate; congruence.
Qed.

Lemma load_lookup (h : heap) (p : ptr) (b : StackBlock) :
  h !! p = Some b → load h p = Done b.
Proof. by intros ?%load_Done. Qed.

Lemma moveForward_next (h : heap) (p n : ptr) (b : StackBlock) :
  h !! p = Some b → next b = Some n → moveForward h p = Done (h, n).
Proof. intros Hb Hn. unfold moveForward, load. rewrite Hb. simpl. by rewrite Hn. Qed.

Lemma moveBackward_prev (h : heap) (p n : ptr) (b : StackBlock) :
  h !! p = Some b → prev b = Some n → moveBackward h p = Done (h, n).
Proof. intros Hb Hn. unfold moveBackward, load. rewrite Hb. simpl. by rewrite Hn. Qed.

(** ** A larger budget does not change a result *)

Section Budget.

Lemma scanForward_mono (fuel fuel' : nat) :
  (fuel ≤ fuel')%nat → ∀ h ip c r,
  scanForward fuel h ip c = Done r → scanForward fuel' h ip c = Done r.
Proof.
  revert fuel'. induction fuel as [|fuel IH]; intros fuel' Hle h ip c r.
  - destruct fuel'; simpl; destruct (c =? 0); try done.
  - destruct fuel' as [|fuel']; [lia|]. simpl.
    destruct (c =? 0); [done|].
    destruct (moveForward h ip) as [[h1 p1]| |]; simpl; try done.
    destruct (load h1 p1) as [b| |]; simpl; try done.
    repeat case_match; apply IH; lia.
Qed.

Lemma scanBackward_mono (fuel fuel' : nat) :
  (fuel ≤ fuel')%nat → ∀ h ip c r,
  scanBackward fuel h ip c = Done r → scanBackward fuel' h ip c = Done r.
Proof.
  revert fuel'. induction fuel as [|fuel IH]; intros fuel' Hle h ip c r.
  - destruct fuel'; simpl; destruct (c =? 0); try done.
  - destruct fuel' as [|fuel']; [lia|]. simpl.
    destruct (c =? 0); [done|].
    destruct (moveBackward h ip) as [[h1 p1]| |]; simpl; try done.
    destruct (load h1 p1) as [b| |]; simpl; try done.
    repeat case_match; apply IH; lia.
Qed.

Lemma dispatch_mono (fuel fuel' : nat) (i : Z) (s r : engine) :
  (fuel ≤ fuel')%nat →
  dispatch fuel i s = Done r → dispatch fuel' i s = Done r.
Proof.
  intros Hle. unfold dispatch.
  repeat (case_match; try done).
  - destruct (load (mem s) (DataPointer s)) as [d| |]; simpl; try done.
    case_match; try done.
    destruct (scanForward fuel _ _ _) as [[h1 p1]| |] eqn:E; simpl; try done.
    rewrite (scanForward_mono _ _ Hle _ _ _ _ E). done.
  - destruct (load (mem s) (DataPointer s)) as [d| |]; simpl; try done.
    case_match; try done.
    destruct (scanBackward fuel _ _ _) as [[h1 p1]| |] eqn:E; simpl; try done.
    rewrite (scanBackward_mono _ _ Hle _ _ _ _ E). done.
Qed.

Lemma loop_body_mono (fuel fuel' : nat) (s r : engine) :
  (fuel ≤ fuel')%nat →
  loop_body fuel s = Done r → loop_body fuel' s = Done r.
Proof.
  intros Hle. unfold loop_body.
  destruct (load (mem s) (InstructionPointer s)) as [i| |]; simpl; try done.
  destruct (dispatch fuel (data i) s) as [s1| |] eqn:E; simpl; try done.
  rewrite (dispatch_mono _ _ _ _ _ Hle E). done.
Qed.

Lemma executeProgram_mono (fuel fuel' : nat) :
  (fuel ≤ fuel')%nat → ∀ s r,
  executeProgram fuel s = Done r → executeProgram fuel' s = Done r.
Proof.
  revert fuel'. induction fuel as [|fuel IH]; intros fuel' Hle s r.
  - destruct fuel'; simpl;
      destruct (load (mem s) (InstructionPointer s)) as [i| |]; simpl; try done;
      destruct (data i =? 0); done.
  - destruct fuel' as [|fuel']; [lia|]. simpl.
    destruct (load (mem s) (InstructionPointer s)) as [i| |]; simpl; try done.
    destruct (data i =? 0); [done|].
    destruct (loop_body fuel s) as [s1| |] eqn:E; simpl; try done.
    rewrite (loop_body_mono fuel fuel' s s1) by (done || lia). simpl.
    apply IH. lia.
Qed.

Lemma main_mono (fuel fuel' : nat) (junk : Z) (file input : list byte) (r : run_result) :
  (fuel ≤ fuel')%nat →
  main junk file input fuel = Done r → main junk file input fuel' = Done r.
Proof.
  intros Hle. unfold main. destruct (negb (checkBrackets file)); [done|].
  destruct (boot junk file input) as [s| |]; simpl; try done.
  destruct (executeProgram fuel s) as [s1| |] eqn:E; simpl; try done.
  rewrite (executeProgram_mono _ _ Hle _ _ E). done.
Qed.

Lemma iterations_mono (fuel fuel' : nat) (n : nat) :
  (fuel ≤ fuel')%nat → ∀ s r,
  iterations fuel n s = Done r → iterations fuel' n s = Done r.
Proof.
  intros Hle. induction n as [|n IH]; intros s r; simpl; [done|].
  destruct (load (mem s) (InstructionPointer s)) as [i| |]; simpl; try done.
  destruct (data i =? 0); [done|].
  destruct (loop_body fuel s) as [s1| |] eqn:E; simpl; try done.
  rewrite (loop_body_mono fuel fuel' s s1) by done. simpl. apply IH.
Qed.

(** The state in which a run ends is the state after enough passes. *)
Lemma executeProgram_iterations (fuel : nat) : ∀ (budget : nat) s r,
  (budget ≤ fuel)%nat →
  executeProgram budget s = Done r → iterations fuel budget s = Done r.
Proof.
  intros budget. induction budget as [|budget IH]; intros s r Hle; simpl.
  - destruct (load (mem s) (InstructionPointer s)) as [i| |]; simpl; try done.
    by destruct (data i =? 0).
  - destruct (load (mem s) (InstructionPointer s)) as [i| |]; simpl; try done.
    destruct (data i =? 0); [done|].
    destruct (loop_body budget s) as [s1| |] eqn:E; simpl; try done.
    rewrite (loop_body_mono budget fuel s s1) by (done || lia). simpl.
    apply IH. lia.
Qed.

End Budget.

(** ** Runs of concrete programs *)

(** C1: on the source [++>+++++[<+>-]<.] the interpreter terminates for
    every input stream and every initial content of the instruction
    head; the data cursor is back on the first data cell, that cell holds
    7, the input is untouched and the output is the single byte 7. *)
Theorem addition_by_loop (junk : Z) (input : list byte) (fuel : nat) :
  (40 ≤ fuel)%nat →
  ∃ s, main junk (source "++>+++++[<+>-]<.") input fuel = Done (Exited s)
       ∧ DataPointer s = dataHead
       ∧ value_at (mem s) dataHead = 7
       ∧ stdout s = [x07]
       ∧ stdin s = input.
Proof.
  intros Hfuel.
  pose proof (main_mono 40 fuel junk (source "++>+++++[<+>-]<.") input) as Hm.
  eexists. split; [apply Hm; [done|vm_compute; reflexivity]|].
  vm_compute. done.
Qed.

Lemma addition_by_loop_witness :
  ∃ s, main 93 (source "++>+++++[<+>-]<.") [x2c] 64 = Done (Exited s)
       ∧ DataPointer s = dataHead
       ∧ value_at (mem s) dataHead = 7
       ∧ stdout s = [x07]
       ∧ stdin s = [x2c].
Proof. apply (addition_by_loop 93 [x2c] 64). lia. Defined.

(** C6: [+[-]] terminates.  The run is exactly four passes through the
    loop body, dispatching on [+], [[], [-] and []] in turn: the first
    data cell goes from 0 to 1, is still 1 when the loop is entered, is
    taken down to 0 by the one execution of the body [-], and the closing
    bracket then falls through to the terminating 0 cell, where
    [executeProgram] returns the state after the fourth pass. *)
Theorem clear_loop_runs_once (junk : Z) (input : list byte) (fuel : nat) :
  (5 ≤ fuel)%nat →
  ∃ s0 s1 s2 s3 s4,
    boot junk (source "+[-]") input = Done s0
    ∧ loop_body fuel s0 = Done s1
    ∧ loop_body fuel s1 = Done s2
    ∧ loop_body fuel s2 = Done s3
    ∧ loop_body fuel s3 = Done s4
    ∧ (λ s, value_at (mem s) (InstructionPointer s)) <$> [s0; s1; s2; s3; s4] =
        [INCREMENT_DATA; LOOP_START; DECREMENT_DATA; LOOP_END; 0]
    ∧ (λ s, value_at (mem s) dataHead) <$> [s0; s1; s2; s3; s4] = [0; 1; 1; 0; 0]
    ∧ executeProgram fuel s0 = Done s4
    ∧ main junk (source "+[-]") input fuel = Done (Exited s4)
    ∧ InstructionPointer s4 ≠ InstructionPointer s0
    ∧ DataPointer s4 = dataHead
    ∧ stdin s4 = input
    ∧ stdout s4 = [].
Proof.
  intros Hfuel. eexists _, _, _, _, _.
  split; [vm_compute; reflexivity|].
  do 4 (split; [vm_compute; reflexivity|]).
  split; [vm_compute; reflexivity|].
  split; [vm_compute; reflexivity|].
  split; [apply (executeProgram_mono 5); [done|vm_compute; reflexivity]|].
  split; [apply (main_mono 5); [done|vm_compute; reflexivity]|].
  vm_compute. done.
Qed.

Lemma clear_loop_runs_once_witness :
  ∃ s0 s1 s2 s3 s4,
    boot 0 (source "+[-]") [] = Done s0
    ∧ loop_body 8 s0 = Done s1
    ∧ loop_body 8 s1 = Done s2
    ∧ loop_body 8 s2 = Done s3
    ∧ loop_body 8 s3 = Done s4
    ∧ (λ s, value_at (mem s) (InstructionPointer s)) <$> [s0; s1; s2; s3; s4] =
        [INCREMENT_DATA; LOOP_START; DECREMENT_DATA; LOOP_END; 0]
    ∧ (λ s, value_at (mem s) dataHead) <$> [s0; s1; s2; s3; s4] = [0; 1; 1; 0; 0]
    ∧ executeProgram 8 s0 = Done s4
    ∧ main 0 (source "+[-]") [] 8 = Done (Exited s4)
    ∧ InstructionPointer s4 ≠ InstructionPointer s0
    ∧ DataPointer s4 = dataHead
    ∧ stdin s4 = []
    ∧ stdout s4 = [].
Proof. apply (clear_loop_runs_once 0 [] 8). lia. Defined.

(** ** Bytes as characters *)

Lemma char_of_byte (c : byte) :
  (to_char (byte_to_Z c) =? EOF) = Byte.eqb c xff
  ∧ (to_char (byte_to_Z c) =? LOOP_START) = Byte.eqb c "["%byte
  ∧ (to_char (byte_to_Z c) =? LOOP_END) = Byte.eqb c "]"%byte
  ∧ is_command (to_char (byte_to_Z c)) = is_symbol c
  ∧ (is_symbol c = true → to_char (byte_to_Z c) = byte_to_Z c)
  ∧ (is_symbol c = true → Byte.eqb c xff = false)
  ∧ delta (to_char (byte_to_Z c)) = bracket_delta c
  ∧ (is_symbol c = false → bracket_delta c = 0).
Proof. destruct c; vm_compute; repeat split; congruence. Qed.

Lemma to_char_range (z : Z) : -128 ≤ to_char z ≤ 127.
Proof. unfold to_char. pose proof (Z.mod_pos_bound (z + 128) 256). lia. Qed.

Lemma to_char_id (z : Z) : -128 ≤ z ≤ 127 → to_char z = z.
Proof. intros H. unfold to_char. rewrite Z.mod_small; lia. Qed.

Lemma to_char_add (a b : Z) : to_char (to_char a + b) = to_char (a + b).
Proof.
  unfold to_char. f_equal.
  replace ((a + 128) mod 256 - 128 + b + 128) with ((a + 128) mod 256 + b) by lia.
  rewrite Zplus_mod_idemp_l. f_equal. lia.
Qed.

(** [n] increments in a row add [n] modulo 256; 256 of them give the
    cell its value back. *)
Lemma incrementData_n (n : nat) (h : heap) (p : ptr) (b : StackBlock) :
  h !! p = Some b → -128 ≤ data b ≤ 127 →
  ∃ h' b',
    Nat.iter n (λ r, r ≫= λ h, incrementData h p) (Done h) = Done h'
    ∧ h' !! p = Some b'
    ∧ data b' = to_char (data b + Z.of_nat n).
Proof.
  intros Hb Hrange. induction n as [|n (h' & b' & Hiter & Hb' & Hd)].
  - exists h, b. split; [done|]. split; [done|].
    rewrite Z.add_0_r. symmetry. by apply to_char_id.
  - rewrite Nat.iter_succ, Hiter. simpl. unfold incrementData.
    rewrite (load_lookup _ _ _ Hb'). simpl. eexists _, _. split; [done|].
    split; [apply list_lookup_insert_eq; by eapply lookup_lt_Some|].
    simpl. rewrite Hd, to_char_add. f_equal. lia.
Qed.

Lemma incrementData_256 (h : heap) (p : ptr) (b : StackBlock) :
  h !! p = Some b → -128 ≤ data b ≤ 127 →
  ∃ h' b',
    Nat.iter 256 (λ r, r ≫= λ h, incrementData h p) (Done h) = Done h'
    ∧ h' !! p = Some b'
    ∧ data b' = data b.
Proof.
  intros Hb Hrange.
  destruct (incrementData_n 256 h p b Hb Hrange) as (h' & b' & Hiter & Hb' & Hd).
  exists h', b'. split; [done|]. split; [done|].
  rewrite Hd. unfold to_char.
  replace (data b + Z.of_nat 256 + 128) with (data b + 128 + 1 * 256) by lia.
  rewrite Z_mod_plus_full, Z.mod_small; lia.
Qed.

(** ** The bracket validator *)

Lemma checkBrackets_loop_spec (file : list byte) : ∀ c : Z,
  0 ≤ c →
  checkBrackets_loop file c = true ↔
    (∀ k : nat, 0 ≤ c + running_depth (take k (upto_EOF file)))
    ∧ c + running_depth (upto_EOF file) = 0.
Proof.
  induction file as [|x file IH]; intros c Hc; simpl.
  - rewrite Z.eqb_eq. split.
    + intros ->. split; [intros k; by rewrite take_nil|done].
    + intros [_ H]. lia.
  - destruct (char_of_byte x) as (-> & -> & -> & _ & _ & _ & _ & _).
    destruct (Byte.eqb x xff) eqn:Exff; simpl.
    + rewrite Z.eqb_eq. split.
      * intros ->. split; [intros k; by rewrite take_nil|done].
      * intros [_ H]. lia.
    + assert (Hd : bracket_delta x =
         if Byte.eqb x "[" then 1 else if Byte.eqb x "]" then -1 else 0) by done.
      destruct (Byte.eqb x "[") eqn:Eo; [|destruct (Byte.eqb x "]") eqn:Ec].
      * assert (Byte.eqb x "]" = false) as ->
          by (apply Byte.byte_dec_bl in Eo; by subst x).
        destruct (c + 1 <? 0) eqn:Hneg; [lia|].
        rewrite IH by lia. split.
        -- intros [Hk He]. split; [|lia].
           intros [|k]; simpl; [lia|]. specialize (Hk k). lia.
        -- intros [Hk He]. split; [|lia].
           intros k. specialize (Hk (S k)). simpl in Hk. lia.
      * destruct (c - 1 <? 0) eqn:Hneg.
        -- split; [done|]. intros [Hk _]. specialize (Hk 1%nat).
           simpl in Hk. lia.
        -- rewrite IH by lia. split.
           ++ intros [Hk He]. split; [|lia].
              intros [|k]; simpl; [lia|]. specialize (Hk k). lia.
           ++ intros [Hk He]. split; [|lia].
              intros k. specialize (Hk (S k)). simpl in Hk. lia.
      * destruct (c <? 0) eqn:Hneg; [lia|].
        rewrite IH by lia. split.
        -- intros [Hk He]. split; [|lia].
           intros [|k]; simpl; [lia|]. specialize (Hk k). lia.
        -- intros [Hk He]. split; [|lia].
           intros k. specialize (Hk (S k)). simpl in Hk. lia.
Qed.

(** The validator decides well-bracketedness of the part of the file
    before its first byte 0xFF. *)
Lemma checkBrackets_spec (file : list byte) :
  checkBrackets file = true ↔ well_bracketed (upto_EOF file).
Proof.
  unfold checkBrackets, well_bracketed.
  rewrite checkBrackets_loop_spec by lia. done.
Qed.

Lemma upto_EOF_app (pre post : list byte) :
  xff ∉ pre → upto_EOF (pre ++ xff :: post) = pre.
Proof.
  induction pre as [|x pre IH]; intros Hnot; simpl; [done|].
  destruct (Byte.eqb x xff) eqn:E.
  - apply Byte.byte_dec_bl in E. subst x. exfalso. apply Hnot. by left.
  - f_equal. apply IH. intros Hin. apply Hnot. by right.
Qed.

Lemma upto_EOF_id (s : list byte) : xff ∉ s → upto_EOF s = s.
Proof.
  induction s as [|x s IH]; intros Hnot; simpl; [done|].
  destruct (Byte.eqb x xff) eqn:E.
  - apply Byte.byte_dec_bl in E. subst x. exfalso. apply Hnot. by left.
  - f_equal. apply IH. intros Hin. apply Hnot. by right.
Qed.

Lemma checkBrackets_upto_EOF (file : list byte) :
  checkBrackets file = checkBrackets (upto_EOF file).
Proof.
  unfold checkBrackets. generalize 0.
  induction file as [|x file IH]; intros c; simpl; [done|].
  destruct (char_of_byte x) as (E1 & _). rewrite E1.
  destruct (Byte.eqb x xff) eqn:Exff; simpl; [done|].
  rewrite E1. by rewrite IH.
Qed.

(** ** Tapes *)

Section Tape.

Implicit Types (h : heap) (l : list ptr) (p q r : ptr) (b : StackBlock).

Lemma linked_lookup h l i p :
  linked h l → l !! i = Some p →
  ∃ b, h !! p = Some b ∧ next b = l !! S i
       ∧ prev b = match i with O => None | S j => l !! j end.
Proof. intros [_ H]. apply H. Qed.

Lemma linked_lt h l p : linked h l → p ∈ l → (p < length h)%nat.
Proof.
  intros Hl [i Hi]%list_elem_of_lookup.
  destruct (linked_lookup _ _ _ _ Hl Hi) as (b & Hb & _).
  by eapply lookup_lt_Some.
Qed.

Lemma linked_index h l i j p :
  linked h l → l !! i = Some p → l !! j = Some p → i = j.
Proof. intros [Hnd _]. by apply NoDup_lookup. Qed.

(** A heap that keeps the links of the blocks of [l] keeps the tape. *)
Lemma linked_frame h h' l :
  linked h l →
  (∀ p b, p ∈ l → h !! p = Some b →
     ∃ b', h' !! p = Some b' ∧ next b' = next b ∧ prev b' = prev b) →
  linked h' l.
Proof.
  intros [Hnd Hl] Hsame. split; [done|]. intros i p Hi.
  destruct (Hl i p Hi) as (b & Hb & Hn & Hp).
  destruct (Hsame p b) as (b' & Hb' & Hn' & Hp'); [by eapply list_elem_of_lookup_2|done|].
  exists b'. by rewrite Hn', Hp'.
Qed.

Lemma moveForward_inside h l i p q :
  linked h l → l !! i = Some p → l !! S i = Some q →
  moveForward h p = Done (h, q).
Proof.
  intros Hl Hp Hq. destruct (linked_lookup _ _ _ _ Hl Hp) as (b & Hb & Hn & _).
  unfold moveForward, load. rewrite Hb. simpl. by rewrite Hn, Hq.
Qed.

Lemma moveBackward_inside h l i p q :
  linked h l → l !! S i = Some p → l !! i = Some q →
  moveBackward h p = Done (h, q).
Proof.
  intros Hl Hp Hq. destruct (linked_lookup _ _ _ _ Hl Hp) as (b & Hb & _ & Hpr).
  unfold moveBackward, load. rewrite Hb. simpl. by rewrite Hpr, Hq.
Qed.

Lemma moveForward_end h l i p b :
  linked h l → l !! i = Some p → l !! S i = None → h !! p = Some b →
  let h' := <[p := set_next (Some (length h)) b]>
              (h ++ [mkBlock None (Some p) 0]) in
  moveForward h p = Done (h', length h) ∧ linked h' (l ++ [length h]).
Proof.
  intros Hl Hp Hlast Hb h'.
  destruct (linked_lookup _ _ _ _ Hl Hp) as (b0 & Hb0 & Hn & Hpr).
  assert (b0 = b) as -> by congruence.
  assert (Hlen : length l = S i).
  { apply lookup_ge_None_1 in Hlast. apply lookup_lt_Some in Hp. lia. }
  assert (Hplt : (p < length h)%nat) by by eapply lookup_lt_Some.
  split.
  { unfold moveForward, load. rewrite Hb. simpl. by rewrite Hn, Hlast. }
  split.
  - apply list.NoDup_app. split; [apply Hl|]. split; [|apply NoDup_singleton].
    intros x Hx Hx'. apply list_elem_of_singleton in Hx'. subst x.
    apply (linked_lt _ _ _ Hl) in Hx. lia.
  - intros j r Hj. apply lookup_app_Some in Hj as [Hj|[Hge Hj]].
    + destruct (linked_lookup _ _ _ _ Hl Hj) as (br & Hbr & Hnr & Hprr).
      assert (Hrlt : (r < length h)%nat) by by eapply lookup_lt_Some.
      assert (Hjlt : (j < length l)%nat) by by eapply lookup_lt_Some.
      destruct (decide (r = p)) as [->|Hne].
      * assert (j = i) as -> by by eapply linked_index.
        exists (set_next (Some (length h)) b). split.
        { unfold h'. apply list_lookup_insert_eq. rewrite length_app. simpl. lia. }
        split; simpl.
        -- rewrite lookup_app_r by lia. by rewrite Hlen, Nat.sub_diag.
        -- rewrite Hpr. destruct i as [|i']; [done|].
           symmetry. apply lookup_app_l. lia.
      * exists br. split.
        { unfold h'. rewrite list_lookup_insert_ne by done.
          by apply lookup_app_l_Some. }
        split.
        -- rewrite Hnr. destruct (decide (S j = length l)) as [E|E].
           ++ exfalso. apply Hne. assert (j = i) by lia. subst j. congruence.
           ++ symmetry. apply lookup_app_l. lia.
        -- rewrite Hprr. destruct j as [|j']; [done|].
           symmetry. apply lookup_app_l. lia.
    + destruct (j - length l)%nat as [|k] eqn:Ek; [|done].
      simpl in Hj. injection Hj as <-.
      assert (j = length l) as -> by lia.
      exists (mkBlock None (Some p) 0). split.
      { unfold h'. rewrite list_lookup_insert_ne by lia.
        rewrite lookup_app_r by lia. by rewrite Nat.sub_diag. }
      split; simpl.
      -- symmetry. apply lookup_ge_None_2. rewrite length_app. simpl. lia.
      -- rewrite Hlen. rewrite lookup_app_l by lia. done.
Qed.

Lemma moveBackward_end h l p b :
  linked h l → l !! 0%nat = Some p → h !! p = Some b →
  let h' := <[p := set_prev (Some (length h)) b]>
              (h ++ [mkBlock (Some p) None 0]) in
  moveBackward h p = Done (h', length h) ∧ linked h' (length h :: l).
Proof.
  intros Hl Hp Hb h'.
  destruct (linked_lookup _ _ _ _ Hl Hp) as (b0 & Hb0 & Hn & Hpr).
  assert (b0 = b) as -> by congruence.
  assert (Hplt : (p < length h)%nat) by by eapply lookup_lt_Some.
  split.
  { unfold moveBackward, load. rewrite Hb. simpl. by rewrite Hpr. }
  split.
  - apply list.NoDup_cons. split; [|apply Hl].
    intros Hx. apply (linked_lt _ _ _ Hl) in Hx. lia.
  - intros [|j] r Hj; simpl in Hj.
    + injection Hj as <-. exists (mkBlock (Some p) None 0). split.
      { unfold h'. rewrite list_lookup_insert_ne by lia.
        rewrite lookup_app_r by lia. by rewrite Nat.sub_diag. }
      done.
    + destruct (linked_lookup _ _ _ _ Hl Hj) as (br & Hbr & Hnr & Hprr).
      destruct (decide (r = p)) as [->|Hne].
      * assert (j = 0%nat) as -> by by eapply linked_index.
        exists (set_prev (Some (length h)) b). split.
        { unfold h'. apply list_lookup_insert_eq. rewrite length_app. simpl. lia. }
        done.
      * exists br. split.
        { unfold h'. rewrite list_lookup_insert_ne by done.
          by apply lookup_app_l_Some. }
        split; [done|]. destruct j as [|j']; [congruence|done].
Qed.

Lemma evolves_refl h l : evolves h h l.
Proof. done. Qed.

Lemma evolves_trans h h1 h2 l l1 :
  evolves h h1 l → evolves h1 h2 l1 →
  (∀ r, r ∈ l1 → r ∈ l ∨ (length h ≤ r)%nat) →
  evolves h h2 l.
Proof.
  intros (Hlen1 & Hval1 & Hout1) (Hlen2 & Hval2 & Hout2) Hsub.
  split; [lia|]. split.
  - intros r Hr. rewrite Hval2 by lia. by apply Hval1.
  - intros r Hnot Hr. rewrite Hout2; [by apply Hout1| |lia].
    intros Hin. destruct (Hsub r Hin); [done|lia].
Qed.

Lemma value_at_lookup h p b : h !! p = Some b → value_at h p = data b.
Proof. unfold value_at. by intros ->. Qed.

(** Growing at [p] keeps every other block and the data of [p]. *)
Lemma evolves_grow h l p b b' new :
  p ∈ l → h !! p = Some b → data b' = data b →
  evolves h (<[p := b']> (h ++ [new])) l.
Proof.
  intros Hin Hb Hd.
  assert (Hplt : (p < length h)%nat) by by eapply lookup_lt_Some.
  split; [rewrite length_insert, length_app; simpl; lia|]. split.
  - intros r Hr. destruct (decide (r = p)) as [->|Hne].
    + rewrite (value_at_lookup _ _ b') , (value_at_lookup _ _ b); [done|done|].
      apply list_lookup_insert_eq. rewrite length_app. simpl. lia.
    + unfold value_at. rewrite list_lookup_insert_ne by done.
      by rewrite lookup_app_l.
  - intros r Hnot Hr. rewrite list_lookup_insert_ne by (intros ->; done).
    by rewrite lookup_app_l.
Qed.

Lemma moveForward_spec h l i p :
  linked h l → l !! i = Some p →
  ∃ h' q back,
    moveForward h p = Done (h', q)
    ∧ linked h' (l ++ back)
    ∧ (l ++ back) !! S i = Some q
    ∧ (∀ r, r ∈ back → (length h ≤ r)%nat)
    ∧ evolves h h' l
    ∧ (l !! S i = None →
         back = [q] ∧ h !! q = None
         ∧ h' !! q = Some (mkBlock None (Some p) 0)).
Proof.
  intros Hl Hp. destruct (l !! S i) as [q|] eqn:Hq.
  - exists h, q, []. rewrite app_nil_r.
    split; [by eapply moveForward_inside|].
    split; [done|]. split; [done|]. split; [by intros r Hr%elem_of_nil|].
    split; [apply evolves_refl|done].
  - destruct (linked_lookup _ _ _ _ Hl Hp) as (b & Hb & _).
    destruct (moveForward_end h l i p b Hl Hp Hq Hb) as [Hm Hl'].
    assert (Hplt : (p < length h)%nat) by by eapply lookup_lt_Some.
    eexists _, (length h), [length h]. split; [exact Hm|].
    split; [exact Hl'|]. split.
    { rewrite lookup_app_r.
      - apply lookup_ge_None_1 in Hq. apply lookup_lt_Some in Hp.
        by replace (S i - length l)%nat with 0%nat by lia.
      - by apply lookup_ge_None_1 in Hq. }
    split; [intros r ->%list_elem_of_singleton; done|].
    split; [apply (evolves_grow h l p b); [by eapply list_elem_of_lookup_2|done|done]|].
    intros _. split; [done|]. split; [by apply lookup_ge_None_2|].
    rewrite list_lookup_insert_ne by lia.
    rewrite lookup_app_r by lia. by rewrite Nat.sub_diag.
Qed.

Lemma moveBackward_spec h l i p :
  linked h l → l !! i = Some p →
  ∃ h' q front j,
    moveBackward h p = Done (h', q)
    ∧ linked h' (front ++ l)
    ∧ (front ++ l) !! j = Some q
    ∧ S j = (length front + i)%nat
    ∧ (∀ r, r ∈ front → (length h ≤ r)%nat)
    ∧ evolves h h' l
    ∧ (i = 0%nat →
         h !! q = None ∧ h' !! q = Some (mkBlock (Some p) None 0)).
Proof.
  intros Hl Hp. destruct i as [|i].
  - destruct (linked_lookup _ _ _ _ Hl Hp) as (b & Hb & _).
    destruct (moveBackward_end h l p b Hl Hp Hb) as [Hm Hl'].
    assert (Hplt : (p < length h)%nat) by by eapply lookup_lt_Some.
    eexists _, (length h), [length h], 0%nat. split; [exact Hm|].
    split; [exact Hl'|]. split; [done|]. split; [done|].
    split; [intros r ->%list_elem_of_singleton; done|].
    split; [apply (evolves_grow h l p b); [by eapply list_elem_of_lookup_2|done|done]|].
    intros _. split; [by apply lookup_ge_None_2|].
    rewrite list_lookup_insert_ne by lia.
    rewrite lookup_app_r by lia. by rewrite Nat.sub_diag.
  - assert (is_Some (l !! i)) as [q Hq].
    { apply lookup_lt_is_Some. apply lookup_lt_Some in Hp. lia. }
    exists h, q, [], i. simpl.
    split; [by eapply moveBackward_inside|].
    split; [done|]. split; [done|]. split; [done|].
    split; [by intros r Hr%elem_of_nil|].
    split; [apply evolves_refl|done].
Qed.





(** Writing the data of a block keeps the tapes. *)
Lemma store_data_spec h l p b d :
  linked h l → h !! p = Some b →
  linked (<[p := set_data d b]> h) l
  ∧ length (<[p := set_data d b]> h) = length h
  ∧ value_at (<[p := set_data d b]> h) p = d
  ∧ (∀ r, r ≠ p → <[p := set_data d b]> h !! r = h !! r).
Proof.
  intros Hl Hb.
  assert (Hplt : (p < length h)%nat) by by eapply lookup_lt_Some.
  split; [|split; [apply length_insert|split]].
  - eapply linked_frame; [done|]. intros r br Hr Hbr.
    destruct (decide (r = p)) as [->|Hne].
    + exists (set_data d b). rewrite list_lookup_insert_eq by done.
      assert (br = b) as -> by congruence. done.
    + exists br. by rewrite list_lookup_insert_ne.
  - unfold value_at. by rewrite list_lookup_insert_eq.
  - intros r Hne. by rewrite list_lookup_insert_ne.
Qed.

(** A tape has no more blocks than the heap. *)
Lemma linked_length h l : linked h l → (length l ≤ length h)%nat.
Proof.
  intros Hl. transitivity (length (seq 0 (length h))); [|by rewrite length_seq].
  apply submseteq_length, NoDup_submseteq; [apply Hl|].
  intros r Hr. apply elem_of_seq. apply (linked_lt _ _ _ Hl) in Hr. lia.
Qed.

Lemma cells_from_linked h l : linked h l → ∀ fuel i,
  (length l ≤ i + fuel)%nat → cells_from fuel h (l !! i) = drop i l.
Proof.
  intros Hl fuel. induction fuel as [|fuel IH]; intros i Hlen; simpl.
  - rewrite drop_ge by lia. by destruct (l !! i).
  - destruct (l !! i) as [p|] eqn:Hp.
    + destruct (linked_lookup _ _ _ _ Hl Hp) as (b & -> & Hn & _).
      rewrite Hn, IH by lia. symmetry. by apply drop_S.
    + apply lookup_ge_None_1 in Hp. by rewrite drop_ge.
Qed.

(** Walking a tape from its first block visits all of it. *)
Lemma tape_cells_linked h l head :
  linked h l → l !! 0%nat = Some head → tape_cells h head = l.
Proof.
  intros Hl Hhead. unfold tape_cells. rewrite <- Hhead.
  rewrite (cells_from_linked h l Hl); [done|].
  pose proof (linked_length h l Hl). lia.
Qed.

Lemma linked_load h l i p :
  linked h l → l !! i = Some p →
  ∃ b, load h p = Done b ∧ data b = value_at h p.
Proof.
  intros Hl Hp. destruct (linked_lookup _ _ _ _ Hl Hp) as (b & Hb & _).
  exists b. split; [by apply load_Done|]. by rewrite (value_at_lookup _ _ _ Hb).
Qed.

Lemma linked_single h p d :
  h !! p = Some (mkBlock None None d) → linked h [p].
Proof.
  intros Hp. split; [apply NoDup_singleton|].
  intros [|i] r Hr; simpl in Hr; [|done].
  injection Hr as <-. eexists. split; [done|]. done.
Qed.

End Tape.



(** ** The loader *)

Section Loader.

Implicit Types (h : heap) (l : list ptr) (file : list byte).

Lemma loaded_symbols_cons (x : byte) file :
  loaded_symbols (x :: file) =
    if Byte.eqb x xff then []
    else if is_symbol x then byte_to_Z x :: loaded_symbols file
    else loaded_symbols file.
Proof.
  unfold loaded_symbols, symbols_of. simpl.
  destruct (Byte.eqb x xff); [done|]. simpl. by destruct (is_symbol x).
Qed.

Lemma parseInstructions_upto_EOF file : ∀ h cur,
  parseInstructions_loop file h cur
  = parseInstructions_loop (upto_EOF file) h cur.
Proof.
  induction file as [|x file IH]; intros h cur; simpl; [done|].
  destruct (char_of_byte x) as (E1 & _). rewrite E1.
  destruct (Byte.eqb x xff) eqn:Exff; simpl; [done|]. rewrite E1.
  destruct (is_command _); [|apply IH].
  destruct (load h cur) as [b| |]; simpl; try done.
  destruct (moveForward _ cur) as [[h1 p1]| |]; simpl; try done.
Qed.

Lemma parseInstructions_loop_spec file : ∀ h l (n : nat) (cur : ptr),
  linked h l → l !! n = Some cur → length l = S n →
  ∃ h' back cur',
    parseInstructions_loop file h cur = Done h'
    ∧ linked h' (l ++ back)
    ∧ (l ++ back) !! (n + length (loaded_symbols file))%nat = Some cur'
    ∧ length back = length (loaded_symbols file)
    ∧ value_at h' <$> take (n + length (loaded_symbols file)) (l ++ back)
      = (value_at h <$> take n l) ++ loaded_symbols file
    ∧ value_at h' cur'
      = (if loaded_symbols file is [] then value_at h cur else 0)
    ∧ (∀ r, r ∈ back → (length h ≤ r)%nat)
    ∧ (∀ r, r ∉ l → (r < length h)%nat → h' !! r = h !! r)
    ∧ (length h ≤ length h')%nat.
Proof.
  induction file as [|x file IH]; intros h l n cur Hl Hcur Hlen.
  - exists h, [], cur. simpl. rewrite !app_nil_r, !Nat.add_0_r.
    split; [done|]. split; [done|]. split; [done|]. split; [done|].
    split; [done|]. split; [done|]. split; [by intros r Hr%elem_of_nil|].
    done.
  - simpl. rewrite loaded_symbols_cons.
    destruct (char_of_byte x) as (-> & _ & _ & -> & Hid & _).
    destruct (Byte.eqb x xff) eqn:Exff; simpl.
    { exists h, [], cur. simpl. rewrite !app_nil_r, !Nat.add_0_r.
      split; [done|]. split; [done|]. split; [done|]. split; [done|].
      split; [done|]. split; [done|]. split; [by intros r Hr%elem_of_nil|].
      done. }
    destruct (is_symbol x) eqn:Esym; [|by apply IH].
    rewrite Hid by done. set (c := byte_to_Z x).
    destruct (linked_lookup _ _ _ _ Hl Hcur) as (b & Hb & _).
    unfold load at 1. rewrite Hb. simpl.
    destruct (store_data_spec h l cur b c Hl Hb) as (Hl1 & Hlen1 & Hv1 & Hs1).
    set (h1 := <[cur := set_data c b]> h) in *.
    assert (Hlast : l !! S n = None) by (apply lookup_ge_None_2; lia).
    destruct (moveForward_spec h1 l n cur Hl1 Hcur)
      as (h2 & q & back1 & -> & Hl2 & Hq & Hback1 & Hev & Hnew). simpl.
    destruct (Hnew Hlast) as (-> & Hfresh & Hqb). clear Hnew.
    destruct Hev as (Hlen2 & Hval2 & Hout2).
    assert (Hqge : (length h ≤ q)%nat)
      by (apply lookup_ge_None_1 in Hfresh; lia).
    destruct (IH h2 (l ++ [q]) (S n) q Hl2 Hq)
      as (h' & back & cur' & -> & Hl' & Hcur' & Hblen & Hvals & Hfin
          & Hback & Hout & Hlen').
    { rewrite length_app. simpl. lia. }
    exists h', (q :: back), cur'.
    replace (l ++ q :: back) with ((l ++ [q]) ++ back)
      by (by rewrite <- app_assoc).
    replace (n + S (length (loaded_symbols file)))%nat
      with (S n + length (loaded_symbols file))%nat by lia.
    split; [done|]. split; [done|]. split; [done|].
    split; [simpl; by rewrite Hblen|]. split.
    { rewrite Hvals. rewrite take_app_length' by done.
      assert (l = take n l ++ [cur]) as Hsplit.
      { rewrite <- (take_S_r l n cur Hcur). symmetry. apply take_ge. lia. }
      rewrite Hsplit at 1. rewrite fmap_app, <- app_assoc. f_equal.
      - apply list_fmap_ext. intros j r Hj.
        apply lookup_take_Some in Hj as [Hj Hjn].
        assert (r ≠ cur).
        { intros E. subst r. pose proof (linked_index h l j n cur Hl Hj Hcur). lia. }
        assert (r < length h)%nat
          by (apply (linked_lt h l); [done|by eapply list_elem_of_lookup_2]).
        rewrite Hval2 by lia. unfold value_at. by rewrite Hs1.
      - simpl. f_equal. rewrite Hval2; [done|].
        rewrite Hlen1. by eapply lookup_lt_Some. }
    split.
    { rewrite Hfin. rewrite (value_at_lookup h2 q _ Hqb).
      by destruct (loaded_symbols file). }
    split.
    { intros r [->|Hr]%elem_of_cons; [done|]. apply Hback in Hr. lia. }
    split; [|lia].
    intros r Hnot Hr. rewrite Hout, Hout2, Hs1; [done| |done|lia| |lia].
    + intros ->. apply Hnot. by eapply list_elem_of_lookup_2.
    + intros [Hin| ->%list_elem_of_singleton]%elem_of_app; [done|lia].
Qed.

(** The state [main] hands to [executeProgram]. *)
Lemma boot_spec (junk : Z) file (input : list byte) :
  ∃ s li,
    boot junk file input = Done s
    ∧ InstructionPointer s = instructionHead
    ∧ DataPointer s = dataHead
    ∧ stdin s = input ∧ stdout s = []
    ∧ linked (mem s) li
    ∧ li !! 0%nat = Some instructionHead
    ∧ linked (mem s) [dataHead]
    ∧ (dataHead ∉ li)
    ∧ value_at (mem s) dataHead = 0
    ∧ (value_at (mem s) <$> li)
      = (if loaded_symbols file is [] then [junk]
         else loaded_symbols file ++ [0]).
Proof.
  assert (Hl0 : linked (fresh_heads junk) [instructionHead])
    by by eapply linked_single.
  destruct (parseInstructions_loop_spec file (fresh_heads junk)
              [instructionHead] 0 instructionHead Hl0)
    as (h' & back & cur' & Hparse & Hl' & Hcur' & Hblen & Hvals & Hfin
        & Hback & Hout & Hlen'); [done|done|].
  assert (Hv : value_at h' <$> (instructionHead :: back) =
            (if loaded_symbols file is [] then [junk]
             else loaded_symbols file ++ [0])).
  { simpl in Hcur', Hvals, Hfin.
    set (syms := loaded_symbols file) in *.
    assert (Hall : length (instructionHead :: back) = S (length syms))
      by (simpl; by rewrite Hblen).
    rewrite <- (take_drop (length syms) (instructionHead :: back)).
    rewrite fmap_app, Hvals.
    rewrite (drop_S _ cur' (length syms)) by done.
    rewrite drop_ge by lia. simpl. rewrite Hfin.
    destruct syms; done. }
  assert (Hdata : h' !! dataHead = Some (mkBlock None None 0)).
  { rewrite Hout; [done| |unfold dataHead, fresh_heads; simpl; lia].
    intros Hin%list_elem_of_singleton. done. }
  unfold boot, parseInstructions. rewrite Hparse.
  eexists _, (instructionHead :: back). split; [done|].
  cbn [mem InstructionPointer DataPointer stdin stdout].
  split; [done|]. split; [done|]. split; [done|]. split; [done|].
  split; [done|]. split; [done|]. split; [by eapply linked_single|].
  split.
  { intros [Hin|Hin]%elem_of_cons; [done|]. apply Hback in Hin.
    simpl in Hin. unfold dataHead in Hin. lia. }
  split; [by rewrite (value_at_lookup _ _ _ Hdata)|done].
Qed.

End Loader.

(** ** The two tapes during execution *)

Ltac inv_bind H :=
  let a := fresh "a" in
  let Ha := fresh "Ha" in
  apply bind_Done in H as (a & Ha & H).

Section Frame.

Implicit Types (h : heap) (l : list ptr) (p q r : ptr) (b : StackBlock).

Lemma tape_step_refl h l : linked h l → tape_step h l h l.
Proof.
  intros Hl. split; [done|]. split; [done|]. split; [by left|].
  apply evolves_refl.
Qed.

Lemma tape_step_trans h l h1 l1 h2 l2 :
  tape_step h l h1 l1 → tape_step h1 l1 h2 l2 → tape_step h l h2 l2.
Proof.
  intros (Hl1 & Hin1 & Hnew1 & Hev1) (Hl2 & Hin2 & Hnew2 & Hev2).
  split; [done|]. split; [by auto|]. split.
  - intros r Hr. destruct (Hnew2 r Hr) as [H1|H1].
    + by apply Hnew1.
    + right. destruct Hev1 as (Hlen & _). lia.
  - by eapply evolves_trans.
Qed.

Lemma moveForward_step h l p h' q :
  linked h l → p ∈ l → moveForward h p = Done (h', q) →
  ∃ l', tape_step h l h' l' ∧ q ∈ l'.
Proof.
  intros Hl [i Hi]%list_elem_of_lookup Hm.
  destruct (moveForward_spec h l i p Hl Hi)
    as (h1 & q1 & back & Hm1 & Hl1 & Hq1 & Hback & Hev & _).
  rewrite Hm in Hm1. injection Hm1 as <- <-.
  exists (l ++ back). split; [|by eapply list_elem_of_lookup_2].
  split; [done|]. split; [intros r Hr; apply elem_of_app; by left|].
  split; [|done].
  intros r [Hr|Hr]%elem_of_app; [by left|right; by apply Hback].
Qed.

Lemma moveBackward_step h l p h' q :
  linked h l → p ∈ l → moveBackward h p = Done (h', q) →
  ∃ l', tape_step h l h' l' ∧ q ∈ l'.
Proof.
  intros Hl [i Hi]%list_elem_of_lookup Hm.
  destruct (moveBackward_spec h l i p Hl Hi)
    as (h1 & q1 & front & j & Hm1 & Hl1 & Hq1 & _ & Hfront & Hev & _).
  rewrite Hm in Hm1. injection Hm1 as <- <-.
  exists (front ++ l). split; [|by eapply list_elem_of_lookup_2].
  split; [done|]. split; [intros r Hr; apply elem_of_app; by right|].
  split; [|done].
  intros r [Hr|Hr]%elem_of_app; [right; by apply Hfront|by left].
Qed.

Lemma scanForward_step fuel : ∀ h l p c h' q,
  linked h l → p ∈ l → scanForward fuel h p c = Done (h', q) →
  ∃ l', tape_step h l h' l' ∧ q ∈ l'.
Proof.
  induction fuel as [|fuel IH]; intros h l p c h' q Hl Hp Hs; simpl in Hs.
  - destruct (c =? 0); [|done]. injection Hs as <- <-.
    exists l. split; [by apply tape_step_refl|done].
  - destruct (c =? 0).
    { injection Hs as <- <-. exists l. split; [by apply tape_step_refl|done]. }
    inv_bind Hs. destruct a as [h1 p1].
    destruct (moveForward_step _ _ _ _ _ Hl Hp Ha) as (l1 & Hstep1 & Hp1).
    inv_bind Hs.
    assert (∃ c', scanForward fuel h1 p1 c' = Done (h', q)) as [c' Hs']
      by (repeat case_match; eauto).
    destruct (IH h1 l1 p1 c' h' q) as (l2 & Hstep2 & Hq); [apply Hstep1|done|done|].
    exists l2. split; [by eapply tape_step_trans|done].
Qed.

Lemma scanBackward_step fuel : ∀ h l p c h' q,
  linked h l → p ∈ l → scanBackward fuel h p c = Done (h', q) →
  ∃ l', tape_step h l h' l' ∧ q ∈ l'.
Proof.
  induction fuel as [|fuel IH]; intros h l p c h' q Hl Hp Hs; simpl in Hs.
  - destruct (c =? 0); [|done]. injection Hs as <- <-.
    exists l. split; [by apply tape_step_refl|done].
  - destruct (c =? 0).
    { injection Hs as <- <-. exists l. split; [by apply tape_step_refl|done]. }
    inv_bind Hs. destruct a as [h1 p1].
    destruct (moveBackward_step _ _ _ _ _ Hl Hp Ha) as (l1 & Hstep1 & Hp1).
    inv_bind Hs.
    assert (∃ c', scanBackward fuel h1 p1 c' = Done (h', q)) as [c' Hs']
      by (repeat case_match; eauto).
    destruct (IH h1 l1 p1 c' h' q) as (l2 & Hstep2 & Hq); [apply Hstep1|done|done|].
    exists l2. split; [by eapply tape_step_trans|done].
Qed.

(** Operations on one tape leave a tape that shares no block with it
    as it is. *)
Lemma tape_step_frame h l h' l' lo :
  tape_step h l h' l' → linked h lo → (∀ r, r ∈ l → r ∉ lo) →
  linked h' lo
  ∧ (∀ r, r ∈ l' → r ∉ lo)
  ∧ (∀ r, r ∈ lo → h' !! r = h !! r)
  ∧ (∀ r, (r < length h)%nat → value_at h' r = value_at h r).
Proof.
  intros (Hl' & Hin & Hnew & (Hlen & Hval & Hout)) Hlo Hsep.
  assert (Hsame : ∀ r, r ∈ lo → h' !! r = h !! r).
  { intros r Hr. apply Hout; [|by eapply linked_lt].
    intros Hrl. by apply (Hsep r). }
  split.
  { eapply linked_frame; [done|]. intros r br Hr Hbr.
    exists br. by rewrite Hsame. }
  split; [|done].
  intros r Hr Hro. destruct (Hnew r Hr) as [H1|H1]; [by apply (Hsep r)|].
  apply (linked_lt _ _ _ Hlo) in Hro. lia.
Qed.

(** A move of the data cursor. *)
Lemma data_move_keeps h ip dp li ld h' ld' p :
  tapes_ok h ip dp li ld → tape_step h ld h' ld' → p ∈ ld' →
  tapes_ok h' ip p li ld'
  ∧ (∀ r, (r < length h)%nat → value_at h' r = value_at h r)
  ∧ (length h ≤ length h')%nat.
Proof.
  intros (Hli & Hld & Hsep & Hip & Hdp) Hstep Hp.
  destruct (tape_step_frame h ld h' ld' li Hstep Hli)
    as (Hli' & Hsep' & _ & Hval); [intros r Hr Hr'; by apply (Hsep r)|].
  split; [|split; [done|apply Hstep]].
  split; [done|]. split; [apply Hstep|].
  split; [intros r Hr Hr'; by apply (Hsep' r)|]. done.
Qed.

(** A move of the instruction cursor. *)
Lemma instr_move_keeps h ip dp li ld h' li' p :
  tapes_ok h ip dp li ld → tape_step h li h' li' → p ∈ li' →
  tapes_ok h' p dp li' ld
  ∧ (∀ r, r ∈ li → r ∈ li')
  ∧ (∀ r, (r < length h)%nat → value_at h' r = value_at h r)
  ∧ (length h ≤ length h')%nat.
Proof.
  intros (Hli & Hld & Hsep & Hip & Hdp) Hstep Hp.
  destruct (tape_step_frame h li h' li' ld Hstep Hld)
    as (Hld' & Hsep' & _ & Hval); [done|].
  split; [|split; [apply Hstep|split; [done|apply Hstep]]].
  split; [apply Hstep|]. done.
Qed.

(** A write to the cell under the data cursor. *)
Lemma data_store_keeps h ip dp li ld b d :
  tapes_ok h ip dp li ld → h !! dp = Some b →
  tapes_ok (<[dp := set_data d b]> h) ip dp li ld
  ∧ (∀ r, r ∈ li → value_at (<[dp := set_data d b]> h) r = value_at h r)
  ∧ length (<[dp := set_data d b]> h) = length h.
Proof.
  intros (Hli & Hld & Hsep & Hip & Hdp) Hb.
  destruct (store_data_spec h ld dp b d Hld Hb) as (Hld' & Hlen & _ & Hsame).
  assert (Hne : ∀ r, r ∈ li → r ≠ dp).
  { intros r Hr ->. by apply (Hsep dp). }
  split; [|split; [|done]].
  - split; [|done]. eapply linked_frame; [exact Hli|].
    intros r br Hr Hbr. exists br. rewrite Hsame by by apply Hne. done.
  - intros r Hr. unfold value_at. rewrite Hsame by by apply Hne. done.
Qed.

End Frame.

(** ** Execution keeps the instruction cells *)

Section Preservation.

Implicit Types (s : engine) (li ld : list ptr).

Lemma keeps_same s s' li :
  mem s' = mem s → keeps s s' li li.
Proof. intros E. split; [done|]. intros r _. by rewrite E. Qed.

Lemma keeps_trans s s1 s2 li li1 li2 :
  keeps s s1 li li1 → keeps s1 s2 li1 li2 → keeps s s2 li li2.
Proof.
  intros [Hin1 Hv1] [Hin2 Hv2]. split; [by auto|].
  intros r Hr. rewrite Hv2 by auto. by apply Hv1.
Qed.

Lemma dispatch_loop_start fuel s :
  dispatch fuel LOOP_START s =
    d ← load (mem s) (DataPointer s);
    if data d =? 0 then
      '(h, p) ← scanForward fuel (mem s) (InstructionPointer s) 1;
      Done (with_ip p (with_mem h s))
    else Done s.
Proof. reflexivity. Qed.

Lemma dispatch_loop_end fuel s :
  dispatch fuel LOOP_END s =
    d ← load (mem s) (DataPointer s);
    if negb (data d =? 0) then
      '(h, p) ← scanBackward fuel (mem s) (InstructionPointer s) 1;
      Done (with_ip p (with_mem h s))
    else Done s.
Proof. reflexivity. Qed.

(** The six instructions that are no brackets always run; they leave
    the instruction cursor and the instruction tape alone. *)
Lemma dispatch_data_runs fuel (i : Z) s li ld :
  engine_ok s li ld →
  (i =? LOOP_START) = false → (i =? LOOP_END) = false →
  ∃ s' ld',
    dispatch fuel i s = Done s'
    ∧ engine_ok s' li ld'
    ∧ InstructionPointer s' = InstructionPointer s
    ∧ keeps s s' li li.
Proof.
  destruct s as [h ip dp sin sout]. unfold engine_ok, dispatch. simpl.
  intros Hok -> ->.
  assert (Hlt : ∀ r, r ∈ li → (r < length h)%nat).
  { intros r Hr. destruct Hok as (Hli & _). by eapply linked_lt. }
  pose proof Hok as (Hli & Hld & Hsep & Hip & Hdp).
  pose proof Hdp as [j Hj]%list_elem_of_lookup.
  destruct (linked_load h ld j dp Hld Hj) as (b & Hload & _).
  pose proof Hload as Hb%load_Done.
  destruct (i =? MOVE_FORWARD).
  { destruct (moveForward_spec h ld j dp Hld Hj) as (h1 & p1 & ? & Hm & _).
    rewrite Hm. simpl.
    destruct (moveForward_step _ _ _ _ _ Hld Hdp Hm) as (ld' & Hstep & Hp1).
    destruct (data_move_keeps h ip dp li ld h1 ld' p1) as (Hok' & Hval & _);
      [done|done|done|].
    eexists _, ld'. split; [done|]. split; [exact Hok'|]. split; [done|].
    split; [done|]. intros r Hr. simpl. by apply Hval, Hlt. }
  destruct (i =? MOVE_BACKWARD).
  { destruct (moveBackward_spec h ld j dp Hld Hj) as (h1 & p1 & ? & ? & Hm & _).
    rewrite Hm. simpl.
    destruct (moveBackward_step _ _ _ _ _ Hld Hdp Hm) as (ld' & Hstep & Hp1).
    destruct (data_move_keeps h ip dp li ld h1 ld' p1) as (Hok' & Hval & _);
      [done|done|done|].
    eexists _, ld'. split; [done|]. split; [exact Hok'|]. split; [done|].
    split; [done|]. intros r Hr. simpl. by apply Hval, Hlt. }
  destruct (i =? INCREMENT_DATA).
  { unfold incrementData. rewrite Hload. simpl.
    destruct (data_store_keeps h ip dp li ld b (to_char (data b + 1)) Hok Hb)
      as (Hok' & Hval & _).
    eexists _, ld. split; [done|]. split; [exact Hok'|]. done. }
  destruct (i =? DECREMENT_DATA).
  { unfold decrementData. rewrite Hload. simpl.
    destruct (data_store_keeps h ip dp li ld b (to_char (data b - 1)) Hok Hb)
      as (Hok' & Hval & _).
    eexists _, ld. split; [done|]. split; [exact Hok'|]. done. }
  destruct (i =? OUTPUT_DATA).
  { unfold outputData. simpl. rewrite Hload. simpl.
    eexists _, ld. split; [done|]. split; [exact Hok|]. split; [done|].
    by apply keeps_same. }
  destruct (i =? INPUT_DATA).
  { unfold inputData. simpl. rewrite Hload. simpl.
    destruct (getchar sin) as [c rest].
    destruct (data_store_keeps h ip dp li ld b (to_char c) Hok Hb)
      as (Hok' & Hval & _).
    eexists _, ld. split; [done|]. split; [exact Hok'|]. done. }
  eexists _, ld. split; [done|]. split; [exact Hok|]. split; [done|].
  by apply keeps_same.
Qed.

Lemma dispatch_keeps fuel (i : Z) s s' li ld :
  engine_ok s li ld → dispatch fuel i s = Done s' →
  ∃ li' ld', engine_ok s' li' ld' ∧ keeps s s' li li'.
Proof.
  intros Hok H.
  assert (Hlt : ∀ r, r ∈ li → (r < length (mem s))%nat).
  { intros r Hr. destruct Hok as (Hli & _). by eapply linked_lt. }
  destruct (i =? LOOP_START) eqn:Eo; [|destruct (i =? LOOP_END) eqn:Ec].
  - apply Z.eqb_eq in Eo. subst i. rewrite dispatch_loop_start in H.
    inv_bind H. destruct (data a =? 0).
    + inv_bind H. destruct a0 as [h1 p1]. injection H as <-.
      pose proof Hok as (Hli & Hld & Hsep & Hip & Hdp).
      destruct (scanForward_step _ _ _ _ _ _ _ Hli Hip Ha0) as (li' & Hstep & Hp1).
      destruct (instr_move_keeps _ _ _ li ld h1 li' p1 Hok)
        as (Hok' & Hin & Hval & _); [done|done|].
      exists li', ld. split; [exact Hok'|]. split; [done|].
      intros r Hr. simpl. by apply Hval, Hlt.
    + injection H as <-. exists li, ld. split; [done|]. by apply keeps_same.
  - apply Z.eqb_eq in Ec. subst i. rewrite dispatch_loop_end in H.
    inv_bind H. destruct (negb (data a =? 0)).
    + inv_bind H. destruct a0 as [h1 p1]. injection H as <-.
      pose proof Hok as (Hli & Hld & Hsep & Hip & Hdp).
      destruct (scanBackward_step _ _ _ _ _ _ _ Hli Hip Ha0) as (li' & Hstep & Hp1).
      destruct (instr_move_keeps _ _ _ li ld h1 li' p1 Hok)
        as (Hok' & Hin & Hval & _); [done|done|].
      exists li', ld. split; [exact Hok'|]. split; [done|].
      intros r Hr. simpl. by apply Hval, Hlt.
    + injection H as <-. exists li, ld. split; [done|]. by apply keeps_same.
  - destruct (dispatch_data_runs fuel i s li ld Hok Eo Ec)
      as (s1 & ld' & Hd & Hok' & _ & Hk).
    rewrite H in Hd. injection Hd as <-. by exists li, ld'.
Qed.

Lemma loop_body_keeps fuel s s' li ld :
  engine_ok s li ld → loop_body fuel s = Done s' →
  ∃ li' ld', engine_ok s' li' ld' ∧ keeps s s' li li'.
Proof.
  intros Hok H. unfold loop_body in H.
  inv_bind H. inv_bind H. rename a0 into s1.
  inv_bind H. destruct a0 as [h2 p2]. injection H as <-.
  destruct (dispatch_keeps _ _ _ _ _ _ Hok Ha0) as (li1 & ld1 & Hok1 & Hk1).
  destruct s1 as [h1 ip1 dp1 sin1 sout1]. unfold engine_ok in *. simpl in *.
  pose proof Hok1 as (Hli & Hld & Hsep & Hip & Hdp).
  destruct (moveForward_step _ _ _ _ _ Hli Hip Ha1) as (li2 & Hstep & Hp2).
  destruct (instr_move_keeps h1 ip1 dp1 li1 ld1 h2 li2 p2)
    as (Hok2 & Hin & Hval & _); [done|done|done|].
  exists li2, ld1. split; [done|].
  eapply keeps_trans; [exact Hk1|]. split; [done|].
  intros r Hr. simpl. apply Hval. exact (linked_lt h1 li1 r Hli Hr).
Qed.

Lemma iterations_keeps fuel n : ∀ s s' li ld,
  engine_ok s li ld → iterations fuel n s = Done s' →
  ∃ li' ld', engine_ok s' li' ld' ∧ keeps s s' li li'.
Proof.
  induction n as [|n IH]; intros s s' li ld Hok H; simpl in H.
  - injection H as <-. exists li, ld. split; [exact Hok|]. by apply keeps_same.
  - inv_bind H. destruct (data a =? 0).
    { injection H as <-. exists li, ld. split; [exact Hok|]. by apply keeps_same. }
    inv_bind H.
    destruct (loop_body_keeps _ _ _ _ _ Hok Ha0) as (li1 & ld1 & Hok1 & Hk1).
    destruct (IH _ _ _ _ Hok1 H) as (li2 & ld2 & Hok2 & Hk2).
    exists li2, ld2. split; [done|]. by eapply keeps_trans.
Qed.

End Preservation.

(** ** Matching brackets by scanning *)

Section Scan.

Implicit Types (h : heap) (li : list ptr) (p q : ptr) (c : Z).

Lemma depth_app (a b : list Z) : depth (a ++ b) = depth a + depth b.
Proof. induction a as [|x a IH]; simpl; lia. Qed.

(** Scanning forward with counter [c] over cells whose depth falls by
    at least [c] stops on a loop end, and allocates nothing. *)
Lemma scanForward_finds h li :
  linked h li → ∀ (suffix : list Z) fuel i p c,
  li !! i = Some p →
  drop (S i) (value_at h <$> li) = suffix →
  0 < c → depth suffix ≤ - c → (length suffix ≤ fuel)%nat →
  ∃ j q, scanForward fuel h p c = Done (h, q)
         ∧ li !! j = Some q ∧ (i < j)%nat ∧ value_at h q = LOOP_END.
Proof.
  intros Hl suffix.
  induction suffix as [|x rest IH]; intros fuel i p c Hp Hdrop Hc Hdepth Hfuel.
  - simpl in Hdepth. lia.
  - destruct fuel as [|fuel]; [simpl in Hfuel; lia|]. simpl in Hfuel.
    assert (Hx : (value_at h <$> li) !! S i = Some x).
    { rewrite <- (Nat.add_0_r (S i)), <- lookup_drop, Hdrop. done. }
    assert (Hrest : drop (S (S i)) (value_at h <$> li) = rest).
    { rewrite (drop_S _ x (S i)) in Hdrop by done. by injection Hdrop. }
    rewrite list_lookup_fmap in Hx.
    destruct (li !! S i) as [q1|] eqn:Hq1; [|done].
    simpl in Hx. injection Hx as Hx.
    destruct (linked_load h li (S i) q1 Hl Hq1) as (b1 & Hload & Hdata).
    simpl. assert ((c =? 0) = false) as -> by lia.
    rewrite (moveForward_inside h li i p q1) by done. simpl.
    rewrite Hload. simpl. rewrite Hdata, Hx.
    simpl in Hdepth. unfold delta in Hdepth.
    destruct (x =? LOOP_START) eqn:Eo.
    { destruct (IH fuel (S i) q1 (c + 1)) as (j & q & Hs & Hj & Hlt & Hv);
        [done|done|lia|lia|lia|].
      exists j, q. split; [done|]. split; [done|]. split; [lia|done]. }
    destruct (x =? LOOP_END) eqn:Ec.
    { destruct (decide (c = 1)) as [->|Hne].
      - exists (S i), q1. split; [by destruct fuel|]. split; [done|].
        split; [lia|]. rewrite Hx. by apply Z.eqb_eq.
      - destruct (IH fuel (S i) q1 (c - 1)) as (j & q & Hs & Hj & Hlt & Hv);
          [done|done|lia|lia|lia|].
        exists j, q. split; [done|]. split; [done|]. split; [lia|done]. }
    destruct (IH fuel (S i) q1 c) as (j & q & Hs & Hj & Hlt & Hv);
      [done|done|lia|lia|lia|].
    exists j, q. split; [done|]. split; [done|]. split; [lia|done].
Qed.

(** Scanning backward with counter [c] from a cell of depth at least
    [c] stops on an earlier cell, and allocates nothing. *)
Lemma scanBackward_finds h li :
  linked h li → ∀ (i : nat) fuel p c,
  li !! i = Some p →
  0 < c → c ≤ depth (take i (value_at h <$> li)) → (i ≤ fuel)%nat →
  ∃ j q, scanBackward fuel h p c = Done (h, q)
         ∧ li !! j = Some q ∧ (j < i)%nat.
Proof.
  intros Hl i.
  induction i as [|i IH]; intros fuel p c Hp Hc Hdepth Hfuel.
  - simpl in Hdepth. lia.
  - destruct fuel as [|fuel]; [lia|].
    assert (is_Some (li !! i)) as [q1 Hq1].
    { apply lookup_lt_is_Some. apply lookup_lt_Some in Hp. lia. }
    destruct (linked_load h li i q1 Hl Hq1) as (b1 & Hload & Hdata).
    rewrite (take_S_r _ i (value_at h q1)) in Hdepth
      by (by rewrite list_lookup_fmap, Hq1).
    rewrite depth_app in Hdepth. simpl in Hdepth. unfold delta in Hdepth.
    simpl. assert ((c =? 0) = false) as -> by lia.
    rewrite (moveBackward_inside h li i p q1) by done. simpl.
    rewrite Hload. simpl. rewrite Hdata.
    destruct (value_at h q1 =? LOOP_START) eqn:Eo.
    { destruct (decide (c = 1)) as [->|Hne].
      - exists i, q1. split; [by destruct fuel|]. split; [done|lia].
      - destruct (IH fuel q1 (c - 1)) as (j & q & Hs & Hj & Hlt);
          [done|lia|lia|lia|].
        exists j, q. split; [done|]. split; [done|lia]. }
    destruct (value_at h q1 =? LOOP_END) eqn:Ec.
    { destruct (IH fuel q1 (c + 1)) as (j & q & Hs & Hj & Hlt);
        [done|lia|lia|lia|].
      exists j, q. split; [done|]. split; [done|lia]. }
    destruct (IH fuel q1 c) as (j & q & Hs & Hj & Hlt);
      [done|lia|lia|lia|].
    exists j, q. split; [done|]. split; [done|lia].
Qed.

End Scan.

(** ** Runs of validated programs *)

Section Run.

Variable prog : list Z.
Variable li : list ptr.
Hypothesis prog_balanced : balanced prog.

Lemma running_values_keeps (s s' : engine) :
  keeps s s' li li →
  (value_at (mem s) <$> li) = prog ++ [0] →
  (value_at (mem s') <$> li) = prog ++ [0].
Proof.
  intros [_ Hval] <-. apply list_fmap_ext. intros j r Hj.
  apply Hval. by eapply list_elem_of_lookup_2.
Qed.

(** The cell under the instruction cursor holds an instruction of
    [prog] unless it is the end-of-program cell. *)
Lemma running_cursor (s : engine) (i : nat) :
  running prog li s → li !! i = Some (InstructionPointer s) →
  value_at (mem s) (InstructionPointer s) ≠ 0 →
  prog !! i = Some (value_at (mem s) (InstructionPointer s))
  ∧ (i < length prog)%nat.
Proof.
  intros (Hvals & _) Hi Hne.
  assert (Hv : (prog ++ [0]) !! i
               = Some (value_at (mem s) (InstructionPointer s))).
  { rewrite <- Hvals, list_lookup_fmap, Hi. done. }
  apply lookup_app_Some in Hv as [Hv|[Hge Hv]].
  - split; [done|]. by eapply lookup_lt_Some.
  - destruct (i - length prog)%nat; simpl in Hv; [|done]. congruence.
Qed.

Lemma running_length (s : engine) :
  running prog li s → length li = S (length prog).
Proof.
  intros (Hvals & _). apply (f_equal length) in Hvals.
  rewrite length_fmap, length_app in Hvals. simpl in Hvals. lia.
Qed.

(** The switch on an instruction of a balanced program: it returns,
    the tape is as before and the cursor is still on an instruction. *)
Lemma dispatch_running fuel (s : engine) (i : nat) :
  running prog li s → li !! i = Some (InstructionPointer s) →
  value_at (mem s) (InstructionPointer s) ≠ 0 →
  (length prog ≤ fuel)%nat →
  ∃ s1 j,
    dispatch fuel (value_at (mem s) (InstructionPointer s)) s = Done s1
    ∧ running prog li s1
    ∧ li !! j = Some (InstructionPointer s1)
    ∧ (j < length prog)%nat.
Proof.
  intros Hrun Hi Hne Hfuel.
  destruct (running_cursor s i Hrun Hi Hne) as [Hv Hlt].
  pose proof (running_length s Hrun) as Hlen.
  destruct Hrun as (Hvals & ld & Hok).
  pose proof Hok as (Hli & Hld & Hsep & Hip & Hdp).
  pose proof Hdp as [k Hk]%list_elem_of_lookup.
  destruct (linked_load _ ld k _ Hld Hk) as (d & Hload & _).
  set (v := value_at (mem s) (InstructionPointer s)) in *.
  destruct prog_balanced as [Hprefix Htotal].
  assert (Htake : depth (take (S i) prog) = depth (take i prog) + delta v).
  { rewrite (take_S_r prog i v Hv), depth_app. simpl. lia. }
  destruct (v =? LOOP_START) eqn:Eo; [|destruct (v =? LOOP_END) eqn:Ec].
  - apply Z.eqb_eq in Eo. rewrite Eo in *. rewrite dispatch_loop_start.
    rewrite Hload. simpl. destruct (data d =? 0).
    + destruct (scanForward_finds (mem s) li Hli
                  (drop (S i) (prog ++ [0])) fuel i (InstructionPointer s) 1)
        as (j & q & Hs & Hj & Hij & Hq); [done|by rewrite Hvals|lia| | |].
      { rewrite drop_app_le by lia. rewrite depth_app. simpl.
        pose proof (Hprefix i) as H0.
        rewrite <- (take_drop (S i) prog), depth_app in Htotal.
        change (delta LOOP_START) with 1 in Htake.
        change (delta 0) with 0. lia. }
      { rewrite length_drop, length_app. simpl. lia. }
      rewrite Hs. simpl. eexists _, j. split; [done|].
      destruct s as [h ip dp sin sout]. simpl in *.
      split; [|split; [done|]].
      * split; [done|]. exists ld. split; [done|]. split; [done|].
        split; [done|]. split; [by eapply list_elem_of_lookup_2|done].
      * assert (j < length li)%nat by by eapply lookup_lt_Some.
        destruct (decide (j = length prog)) as [->|]; [|lia].
        assert ((prog ++ [0]) !! length prog = Some (value_at h q)) as Hz
          by (by rewrite <- Hvals, list_lookup_fmap, Hj).
        rewrite lookup_app_r, Nat.sub_diag in Hz by lia.
        simpl in Hz. rewrite Hq in Hz. done.
    + exists s, i. split; [done|]. split; [split; [done|by exists ld]|done].
  - apply Z.eqb_eq in Ec. rewrite Ec in *. rewrite dispatch_loop_end.
    rewrite Hload. simpl. destruct (negb (data d =? 0)).
    + destruct (scanBackward_finds (mem s) li Hli i fuel
                  (InstructionPointer s) 1)
        as (j & q & Hs & Hj & Hji); [done|lia| |lia|].
      { rewrite Hvals, take_app_le by lia.
        pose proof (Hprefix (S i)) as H0.
        change (delta LOOP_END) with (-1) in Htake. lia. }
      rewrite Hs. simpl. eexists _, j. split; [done|].
      destruct s as [h ip dp sin sout]. simpl in *.
      split; [|split; [done|lia]].
      split; [done|]. exists ld. split; [done|]. split; [done|].
      split; [done|]. split; [by eapply list_elem_of_lookup_2|done].
    + exists s, i. split; [done|]. split; [split; [done|by exists ld]|done].
  - destruct (dispatch_data_runs fuel v s li ld Hok Eo Ec)
      as (s1 & ld' & Hd & Hok' & Hsame & Hk').
    exists s1, i. split; [done|]. split; [|split; [by rewrite Hsame|done]].
    split; [by eapply running_values_keeps|]. by exists ld'.
Qed.

Lemma loop_body_running fuel (s : engine) :
  running prog li s →
  value_at (mem s) (InstructionPointer s) ≠ 0 →
  (length prog ≤ fuel)%nat →
  ∃ s', loop_body fuel s = Done s' ∧ running prog li s'.
Proof.
  intros Hrun Hne Hfuel.
  pose proof Hrun as (_ & ld & (Hli & _ & _ & Hip & _)).
  pose proof Hip as [i Hi]%list_elem_of_lookup.
  destruct (linked_load _ li i _ Hli Hi) as (b & Hload & Hdata).
  destruct (dispatch_running fuel s i Hrun Hi Hne Hfuel)
    as (s1 & j & Hd & Hrun1 & Hj & Hjlt).
  unfold loop_body. rewrite Hload. simpl. rewrite Hdata, Hd. simpl.
  pose proof (running_length s1 Hrun1) as Hlen.
  destruct Hrun1 as (Hvals1 & ld1 & (Hli1 & Hld1 & Hsep1 & Hip1 & Hdp1)).
  assert (is_Some (li !! S j)) as [q Hq] by (apply lookup_lt_is_Some; lia).
  rewrite (moveForward_inside _ li j _ q Hli1 Hj Hq). simpl.
  eexists. split; [done|].
  destruct s1 as [h1 ip1 dp1 sin1 sout1]. simpl in *.
  split; [done|]. exists ld1. split; [done|]. split; [done|].
  split; [done|]. split; [by eapply list_elem_of_lookup_2|done].
Qed.

Lemma iterations_running fuel n : ∀ s : engine,
  running prog li s → (length prog ≤ fuel)%nat →
  ∃ s', iterations fuel n s = Done s' ∧ running prog li s'.
Proof.
  induction n as [|n IH]; intros s Hrun Hfuel; simpl.
  - by exists s.
  - pose proof Hrun as (_ & ld & (Hli & _ & _ & Hip & _)).
    pose proof Hip as [i Hi]%list_elem_of_lookup.
    destruct (linked_load _ li i _ Hli Hi) as (b & Hload & Hdata).
    rewrite Hload. simpl. rewrite Hdata.
    destruct (value_at (mem s) (InstructionPointer s) =? 0) eqn:Ez.
    + by exists s.
    + destruct (loop_body_running fuel s Hrun) as (s1 & -> & Hrun1); [lia|done|].
      simpl. by apply IH.
Qed.

End Run.

(** ** From the validator to the loaded program *)

Lemma symbols_of_cons (x : byte) (s : list byte) :
  symbols_of (x :: s) = if is_symbol x then x :: symbols_of s else symbols_of s.
Proof. reflexivity. Qed.

Lemma depth_symbols (s : list byte) :
  depth (byte_to_Z <$> symbols_of s) = running_depth s.
Proof.
  induction s as [|x s IH]; [done|].
  destruct (char_of_byte x) as (_ & _ & _ & _ & Hid & _ & Hd & Hzero).
  rewrite symbols_of_cons. cbn [running_depth].
  destruct (is_symbol x) eqn:E.
  - rewrite fmap_cons. cbn [depth]. rewrite IH, <- Hd, Hid by done. done.
  - rewrite IH, Hzero by done. done.
Qed.

Lemma depth_symbols_prefix (s : list byte) : ∀ c : Z,
  (∀ k : nat, 0 ≤ c + running_depth (take k s)) →
  ∀ k : nat, 0 ≤ c + depth (take k (byte_to_Z <$> symbols_of s)).
Proof.
  induction s as [|x s IH]; intros c Hs k.
  - specialize (Hs 0%nat). cbn. rewrite take_nil. simpl in *. lia.
  - destruct (char_of_byte x) as (_ & _ & _ & _ & Hid & _ & Hd & Hzero).
    rewrite symbols_of_cons. destruct (is_symbol x) eqn:E.
    + rewrite fmap_cons. destruct k as [|k].
      * specialize (Hs 0%nat). simpl in *. lia.
      * cbn [take depth]. rewrite <- (Hid eq_refl), Hd.
        rewrite Z.add_assoc. apply IH. intros k'.
        specialize (Hs (S k')). cbn [take running_depth] in Hs. lia.
    + apply IH. intros k'. specialize (Hs (S k')).
      cbn [take running_depth] in Hs. rewrite Hzero in Hs by done. lia.
Qed.

(** A file the validator accepts loads as a balanced program. *)
Lemma checkBrackets_balanced (file : list byte) :
  checkBrackets file = true → balanced (loaded_symbols file).
Proof.
  intros [Hprefix Htotal]%checkBrackets_spec. unfold loaded_symbols. split.
  - intros k. pose proof (depth_symbols_prefix (upto_EOF file) 0) as H.
    simpl in H. apply H. done.
  - by rewrite depth_symbols.
Qed.

(** ** The instruction tape is read-only *)

(** X19: in every state of a run of a validated program, the cells the
    loader produced hold the values the loader gave them; and when the
    head cell is initialised (at least one symbol was loaded, or the head
    byte is 0), the instruction tape as a whole, walked from its head,
    is the sequence of values the loader produced. *)
Theorem instruction_tape_read_only
    (junk : Z) (file input : list byte) (s0 s : engine) :
  checkBrackets file = true →
  boot junk file input = Done s0 →
  reached s0 s →
  (value_at (mem s) <$> tape_cells (mem s0) instructionHead)
  = tape_values (mem s0) instructionHead
  ∧ (loaded_symbols file ≠ [] ∨ junk = 0 →
     tape_values (mem s) instructionHead
     = tape_values (mem s0) instructionHead).
Proof.
  intros Hcheck Hboot Hreach.
  destruct (boot_spec junk file input)
    as (s0' & li & Hboot' & Hip & Hdp & _ & _ & Hli & Hhead & Hld & Hsep
        & _ & Hvals).
  rewrite Hboot in Hboot'. injection Hboot' as <-.
  assert (Hok : engine_ok s0 li [dataHead]).
  { unfold engine_ok. rewrite Hip, Hdp. split; [done|]. split; [done|].
    split.
    - intros r Hr ->%list_elem_of_singleton. done.
    - split; [by eapply list_elem_of_lookup_2|]. by apply list_elem_of_singleton. }
  assert (Hiter : ∃ fuel n, iterations fuel n s0 = Done s).
  { destruct Hreach as [H|[fuel H]]; [done|].
    exists fuel, fuel. by apply executeProgram_iterations. }
  destruct Hiter as (fuel & n & Hiter).
  assert (Hcells : tape_cells (mem s0) instructionHead = li)
    by by apply tape_cells_linked.
  unfold tape_values. rewrite Hcells. split.
  - destruct (iterations_keeps fuel n s0 s li [dataHead] Hok Hiter)
      as (li' & ld' & _ & (_ & Hkeep)).
    apply list_fmap_ext. intros j r Hj. apply Hkeep.
    by eapply list_elem_of_lookup_2.
  - intros Hinit.
    assert (Hvals0 : (value_at (mem s0) <$> li) = loaded_symbols file ++ [0]).
    { rewrite Hvals. destruct (loaded_symbols file); [|done].
      destruct Hinit as [?| ->]; done. }
    assert (Hrun0 : running (loaded_symbols file) li s0)
      by (split; [done|by exists [dataHead]]).
    destruct (iterations_running (loaded_symbols file) li
                (checkBrackets_balanced file Hcheck)
                (fuel `max` length (loaded_symbols file)) n s0 Hrun0)
      as (s' & Hiter' & Hrun'); [lia|].
    rewrite (iterations_mono fuel _ n) with (r := s) in Hiter' by (done || lia).
    injection Hiter' as <-.
    destruct Hrun' as (Hvals' & ld' & (Hli' & _)).
    rewrite (tape_cells_linked (mem s) li) by done.
    by rewrite Hvals', Hvals0.
Qed.

Lemma instruction_tape_read_only_witness :
  ∃ s0 s,
    boot 7 (source "+[-]") [] = Done s0
    ∧ iterations 5 3 s0 = Done s
    ∧ (value_at (mem s) <$> tape_cells (mem s0) instructionHead)
      = tape_values (mem s0) instructionHead
    ∧ (loaded_symbols (source "+[-]") ≠ [] ∨ 7 = 0 →
       tape_values (mem s) instructionHead
       = tape_values (mem s0) instructionHead).
Proof.
  eexists _, _. split; [vm_compute; reflexivity|].
  split; [vm_compute; reflexivity|].
  apply (instruction_tape_read_only 7 (source "+[-]") []).
  - reflexivity.
  - reflexivity.
  - left. exists 5%nat, 3%nat. reflexivity.
Defined.

(** C9, at the input where the code departs from it: the empty source
    file passes validation and the loader writes nothing, so the
    instruction tape is the one head cell with whatever byte [malloc]
    left in it, here 43 (the code of [+]).  [executeProgram] takes that
    byte for an instruction: it increments the first data cell and steps
    past the head, which allocates a cell.  At exit the instruction tape
    reads [43; 0], not the [43] the loader produced. *)
Theorem junk_head_extends_instruction_tape :
  ∃ s0 s,
    checkBrackets [] = true
    ∧ boot 43 [] [] = Done s0
    ∧ tape_values (mem s0) instructionHead = [43]
    ∧ executeProgram 5 s0 = Done s
    ∧ main 43 [] [] 5 = Done (Exited s)
    ∧ tape_values (mem s) instructionHead = [43; 0]
    ∧ value_at (mem s) dataHead = 1.
Proof.
  eexists _, _. split; [reflexivity|].
  split; [vm_compute; reflexivity|].
  split; [vm_compute; reflexivity|].
  split; [vm_compute; reflexivity|].
  vm_compute. done.
Qed.

(** A validated program whose head cell is initialised never faults and
    never runs out of scanning budget: every pass through the loop body
    returns. *)
Lemma validated_run_progress
    (junk : Z) (file input : list byte) (s0 : engine) (fuel n : nat) :
  checkBrackets file = true →
  boot junk file input = Done s0 →
  loaded_symbols file ≠ [] ∨ junk = 0 →
  (length (loaded_symbols file) ≤ fuel)%nat →
  ∃ s, iterations fuel n s0 = Done s.
Proof.
  intros Hcheck Hboot Hinit Hfuel.
  destruct (boot_spec junk file input)
    as (s0' & li & Hboot' & Hip & Hdp & _ & _ & Hli & Hhead & Hld & Hsep
        & _ & Hvals).
  rewrite Hboot in Hboot'. injection Hboot' as <-.
  assert (Hrun0 : running (loaded_symbols file) li s0).
  { split.
    - rewrite Hvals. destruct (loaded_symbols file); [|done].
      destruct Hinit as [?| ->]; done.
    - exists [dataHead]. unfold engine_ok. rewrite Hip, Hdp.
      split; [done|]. split; [done|]. split.
      + intros r Hr ->%list_elem_of_singleton. done.
      + split; [by eapply list_elem_of_lookup_2|]. by apply list_elem_of_singleton. }
  destruct (iterations_running (loaded_symbols file) li
              (checkBrackets_balanced file Hcheck) fuel n s0 Hrun0 Hfuel)
    as (s' & Hiter & _).
  by exists s'.
Qed.

(** ** The empty loop *)

Section EmptyLoop.

Variables (s : engine) (q r : ptr) (bo bc d : StackBlock).

(** The instruction cursor is on a loop start whose successor [q] is a
    loop end, followed by the cell [r]. *)
Hypothesis at_open : mem s !! InstructionPointer s = Some bo.
Hypothesis open_start : data bo = LOOP_START.
Hypothesis open_next : next bo = Some q.
Hypothesis at_close : mem s !! q = Some bc.
Hypothesis close_end : data bc = LOOP_END.
Hypothesis close_prev : prev bc = Some (InstructionPointer s).
Hypothesis close_next : next bc = Some r.
Hypothesis at_data : mem s !! DataPointer s = Some d.

Lemma empty_loop_skipped (fuel : nat) :
  data d = 0 → (1 ≤ fuel)%nat → loop_body fuel s = Done (with_ip r s).
Proof using All.
  intros Hz Hfuel. destruct fuel as [|fuel]; [lia|].
  unfold loop_body. rewrite (load_lookup _ _ _ at_open). simpl.
  rewrite open_start, dispatch_loop_start.
  rewrite (load_lookup _ _ _ at_data). simpl. rewrite Hz. simpl.
  rewrite (moveForward_next _ _ _ _ at_open open_next). simpl.
  rewrite (load_lookup _ _ _ at_close). simpl. rewrite close_end.
  change (LOOP_END =? LOOP_START) with false.
  change (LOOP_END =? LOOP_END) with true. cbv iota.
  assert (scanForward fuel (mem s) q (1 - 1) = Done (mem s, q)) as ->
    by by destruct fuel.
  simpl. rewrite (moveForward_next _ _ _ _ at_close close_next). done.
Qed.

Lemma empty_loop_entered (fuel : nat) :
  data d ≠ 0 → loop_body fuel s = Done (with_ip q s).
Proof using at_open open_start open_next at_data.
  intros Hnz.
  unfold loop_body. rewrite (load_lookup _ _ _ at_open). simpl.
  rewrite open_start, dispatch_loop_start.
  rewrite (load_lookup _ _ _ at_data). simpl.
  assert ((data d =? 0) = false) as -> by lia. cbn [mbind outcome_bind].
  rewrite (moveForward_next _ _ _ _ at_open open_next). reflexivity.
Qed.

Lemma empty_loop_repeats (fuel : nat) :
  data d ≠ 0 → (1 ≤ fuel)%nat →
  loop_body fuel (with_ip q s) = Done (with_ip q s).
Proof using at_open open_start open_next at_close close_end close_prev at_data.
  intros Hnz Hfuel. destruct fuel as [|fuel]; [lia|].
  unfold loop_body. cbn [with_ip mem InstructionPointer].
  rewrite (load_lookup _ _ _ at_close). simpl.
  rewrite close_end, dispatch_loop_end. cbn [with_ip mem DataPointer].
  rewrite (load_lookup _ _ _ at_data). simpl.
  assert ((data d =? 0) = false) as -> by lia. simpl.
  rewrite (moveBackward_prev _ _ _ _ at_close close_prev). simpl.
  rewrite (load_lookup _ _ _ at_open). simpl. rewrite open_start.
  change (LOOP_START =? LOOP_START) with true. cbv iota.
  assert (scanBackward fuel (mem s) (InstructionPointer s) (1 - 1)
          = Done (mem s, InstructionPointer s)) as ->
    by by destruct fuel.
  simpl. rewrite (moveForward_next _ _ _ _ at_open open_next). done.
Qed.

Lemma empty_loop_spins_at_close (fuel : nat) :
  data d ≠ 0 → executeProgram fuel (with_ip q s) = Timeout.
Proof using at_open open_start open_next at_close close_end close_prev at_data.
  intros Hnz. induction fuel as [|fuel IH].
  - simpl. rewrite (load_lookup _ _ _ at_close). simpl. by rewrite close_end.
  - cbn [executeProgram]. cbn [with_ip mem InstructionPointer].
    rewrite (load_lookup _ _ _ at_close). simpl. rewrite close_end.
    change (LOOP_END =? 0) with false. cbv iota.
    destruct fuel as [|fuel].
    + unfold loop_body. cbn [with_ip mem InstructionPointer].
      rewrite (load_lookup _ _ _ at_close). simpl.
      rewrite close_end, dispatch_loop_end. cbn [with_ip mem DataPointer].
      rewrite (load_lookup _ _ _ at_data). simpl.
      assert ((data d =? 0) = false) as -> by lia. done.
    + rewrite empty_loop_repeats by (done || lia). simpl. apply IH.
Qed.

Lemma empty_loop_spins (fuel : nat) :
  data d ≠ 0 → executeProgram fuel s = Timeout.
Proof using at_open open_start open_next at_close close_end close_prev at_data.
  intros Hnz. destruct fuel as [|fuel].
  - simpl. rewrite (load_lookup _ _ _ at_open). simpl. by rewrite open_start.
  - cbn [executeProgram]. rewrite (load_lookup _ _ _ at_open). simpl.
    rewrite open_start. change (LOOP_START =? 0) with false. cbv iota.
    rewrite empty_loop_entered by done. simpl.
    by apply empty_loop_spins_at_close.
Qed.

End EmptyLoop.

(** C4, as the code has it: on a loop start directly followed by a loop
    end, with the data cell at zero one pass through the loop body moves
    the instruction cursor to the cell after the loop end and changes
    nothing else; with the data cell not zero the pass moves the cursor
    to the loop end, every further pass leaves the state as it is, and
    the run never ends. *)
Theorem empty_loop
    (s : engine) (q r : ptr) (bo bc d : StackBlock) (fuel : nat) :
  mem s !! InstructionPointer s = Some bo →
  data bo = LOOP_START → next bo = Some q →
  mem s !! q = Some bc →
  data bc = LOOP_END → prev bc = Some (InstructionPointer s) → next bc = Some r →
  mem s !! DataPointer s = Some d →
  (1 ≤ fuel)%nat →
  if data d =? 0 then loop_body fuel s = Done (with_ip r s)
  else
    loop_body fuel s = Done (with_ip q s)
    ∧ loop_body fuel (with_ip q s) = Done (with_ip q s)
    ∧ ∀ budget : nat, executeProgram budget s = Timeout.
Proof.
  intros H1 H2 H3 H4 H5 H6 H7 H8 Hfuel.
  destruct (data d =? 0) eqn:Ez.
  - apply Z.eqb_eq in Ez. by eapply empty_loop_skipped.
  - apply Z.eqb_neq in Ez. split; [by eapply empty_loop_entered|].
    split; [by eapply empty_loop_repeats|].
    intros budget. by eapply empty_loop_spins.
Qed.

Lemma empty_loop_witness :
  loop_body 3 spin_state = Done (with_ip 3%nat spin_state)
  ∧ loop_body 3 (with_ip 3%nat spin_state) = Done (with_ip 3%nat spin_state)
  ∧ ∀ budget : nat, executeProgram budget spin_state = Timeout.
Proof.
  apply (empty_loop spin_state 3%nat 4%nat
           (mkBlock (Some 3%nat) (Some 0%nat) LOOP_START)
           (mkBlock (Some 4%nat) (Some 2%nat) LOOP_END)
           (mkBlock None None 1) 3); try reflexivity. lia.
Defined.

(** The run of [+[]] does not end: with the cell at 1 the empty loop is
    not left after one pass, whatever the budget. *)
Lemma empty_loop_never_exits :
  ¬ ∃ (fuel : nat) (res : run_result),
      main 0 (source "+[]") [] fuel = Done res.
Proof.
  intros (fuel & res & H). unfold main in H.
  change (negb (checkBrackets (source "+[]"))) with false in H. cbv iota in H.
  change (boot 0 (source "+[]") []) with (Done spin_boot) in H.
  cbn [mbind outcome_bind] in H.
  assert (Hspin : executeProgram fuel spin_boot = Timeout).
  { destruct fuel as [|fuel]; [done|].
    cbn [executeProgram].
    change (load (mem spin_boot) (InstructionPointer spin_boot))
      with (Done (mkBlock (Some 2%nat) None INCREMENT_DATA)).
    cbn [mbind outcome_bind data].
    change (INCREMENT_DATA =? 0) with false. cbv iota.
    change (loop_body fuel spin_boot) with (Done spin_state).
    cbn [mbind outcome_bind].
    by apply (empty_loop_spins spin_state 3%nat
                (mkBlock (Some 3%nat) (Some 0%nat) LOOP_START)
                (mkBlock (Some 4%nat) (Some 2%nat) LOOP_END)
                (mkBlock None None 1)). }
  rewrite Hspin in H. done.
Qed.

(** ** Reading past the end of the input *)

Section Input.

Lemma dispatch_stdin fuel (i : Z) (s s' : engine) :
  dispatch fuel i s = Done s' → stdin s = [] → stdin s' = [].
Proof.
  unfold dispatch, incrementData, decrementData, outputData, inputData.
  intros H Hin. rewrite Hin in H. simpl in H.
  repeat match type of H with
         | (if ?c then _ else _) = Done _ => destruct c
         | _ ≫= _ = Done _ => inv_bind H
         | (let '(_, _) := ?a in _) = Done _ => destruct a
         end;
    injection H as <-; done.
Qed.

Lemma loop_body_stdin fuel (s s' : engine) :
  loop_body fuel s = Done s' → stdin s = [] → stdin s' = [].
Proof.
  intros H Hin. unfold loop_body in H.
  inv_bind H. inv_bind H. inv_bind H. destruct a1 as [h p].
  injection H as <-. simpl. by eapply dispatch_stdin.
Qed.

Lemma iterations_stdin fuel n : ∀ s s' : engine,
  iterations fuel n s = Done s' → stdin s = [] → stdin s' = [].
Proof.
  induction n as [|n IH]; intros s s' H Hin; simpl in H.
  - by injection H as <-.
  - inv_bind H. destruct (data a =? 0); [by injection H as <-|].
    inv_bind H. eapply IH; [done|]. by eapply loop_body_stdin.
Qed.

Lemma reached_stdin (s0 s : engine) :
  reached s0 s → stdin s0 = [] → stdin s = [].
Proof.
  intros [(fuel & n & H)|(fuel & H)] Hin.
  - by eapply iterations_stdin.
  - eapply (iterations_stdin fuel fuel); [|done].
    by apply executeProgram_iterations.
Qed.

End Input.

(** C8: once the input is used up it stays used up, and in every later
    state of the run the input instruction stores the same value in the
    current data cell: [EOF] narrowed to [char], which is -1. *)
Theorem input_after_end_of_stream (s0 s : engine) (b : StackBlock) :
  stdin s0 = [] → reached s0 s →
  mem s !! DataPointer s = Some b →
  ∃ s', inputData s = Done s'
        ∧ DataPointer s' = DataPointer s
        ∧ value_at (mem s') (DataPointer s') = to_char EOF
        ∧ to_char EOF = -1
        ∧ stdin s' = [].
Proof.
  intros Hin Hreach Hb.
  pose proof (reached_stdin s0 s Hreach Hin) as Hs.
  unfold inputData. rewrite (load_lookup _ _ _ Hb), Hs. simpl.
  eexists. split; [done|]. simpl. split; [done|]. split; [|done].
  unfold value_at. rewrite list_lookup_insert_eq by by eapply lookup_lt_Some.
  done.
Qed.

Lemma input_after_end_of_stream_witness :
  ∃ s s', boot 0 (source ",>,,") [x41] = Done s
          ∧ iterations 4 3 s = Done s'
          ∧ ∃ s'', inputData s' = Done s''
                   ∧ DataPointer s'' = DataPointer s'
                   ∧ value_at (mem s'') (DataPointer s'') = to_char EOF
                   ∧ to_char EOF = -1
                   ∧ stdin s'' = [].
Proof.
  eexists _, _. split; [vm_compute; reflexivity|].
  split; [vm_compute; reflexivity|].
  eapply (input_after_end_of_stream _ _ (mkBlock None (Some 1%nat) (-1))).
  2: { left. exists 4%nat, 0%nat. reflexivity. }
  - reflexivity.
  - reflexivity.
Defined.

(** ** The byte 0xFF in a source file *)

(** C10: a byte 0xFF ends the source for the validator and for the
    loader alike: both give on [pre ++ 0xFF :: post] what they give on
    [pre], whatever [post] holds. *)
Theorem byte_0xFF_ends_the_source
    (pre post : list byte) (h : heap) (head : ptr) :
  xff ∉ pre →
  upto_EOF (pre ++ xff :: post) = pre
  ∧ checkBrackets (pre ++ xff :: post) = checkBrackets pre
  ∧ parseInstructions (pre ++ xff :: post) h head = parseInstructions pre h head.
Proof.
  intros Hnot. split; [by apply upto_EOF_app|]. split.
  - rewrite checkBrackets_upto_EOF, upto_EOF_app by done. done.
  - unfold parseInstructions.
    rewrite parseInstructions_upto_EOF, upto_EOF_app by done. done.
Qed.

Lemma byte_0xFF_ends_the_source_witness :
  upto_EOF (source "+[" ++ xff :: source "]]-") = source "+["
  ∧ checkBrackets (source "+[" ++ xff :: source "]]-")
    = checkBrackets (source "+[")
  ∧ parseInstructions (source "+[" ++ xff :: source "]]-")
      (fresh_heads 0) instructionHead
    = parseInstructions (source "+[") (fresh_heads 0) instructionHead.
Proof.
  apply (byte_0xFF_ends_the_source (source "+[") (source "]]-")).
  intros [E|[E|E%elem_of_nil]%elem_of_cons]%elem_of_cons; done.
Defined.

(** C2, at the failing inputs: the validator accepts the stream
    [0xFF ]], whose depth is negative after two bytes, and rejects the
    stream [[ 0xFF ]], which is well bracketed. *)
Theorem checkBrackets_cut_short :
  checkBrackets [xff; "]"%byte] = true
  ∧ running_depth (take 2 [xff; "]"%byte]) = -1
  ∧ ¬ well_bracketed [xff; "]"%byte]
  ∧ checkBrackets ["["%byte; xff; "]"%byte] = false
  ∧ well_bracketed ["["%byte; xff; "]"%byte].
Proof.
  split; [reflexivity|]. split; [reflexivity|]. split.
  { intros [H _]. specialize (H 2%nat). vm_compute in H. by apply H. }
  split; [reflexivity|]. split; [|reflexivity].
  intros [|[|[|[|k]]]]; vm_compute; discriminate.
Qed.

(** C3, at the failing inputs: on a file without instruction symbols
    the loader writes nothing, and the only cell of the instruction tape
    holds whatever byte [malloc] left there; on the file [0xFF +] the
    symbol after the byte 0xFF is not loaded either. *)
Theorem parseInstructions_leaves_head (junk : Z) :
  (∃ s, boot junk [] [] = Done s
        ∧ tape_values (mem s) instructionHead = [junk])
  ∧ (∃ s, boot junk [xff; "+"%byte] [] = Done s
          ∧ symbols_of [xff; "+"%byte] = ["+"%byte]
          ∧ tape_values (mem s) instructionHead = [junk]).
Proof.
  split; eexists; (split; [reflexivity|]); try split; reflexivity.
Qed.


(** * Further properties of the program *)

(** ** File names *)

Lemma byte_to_Z_inj (x y : byte) : byte_to_Z x = byte_to_Z y → x = y.
Proof.
  unfold byte_to_Z. intros H%N2Z.inj.
  pose proof (Byte.of_to_N x) as Hx. rewrite H, Byte.of_to_N in Hx. congruence.
Qed.

Lemma byte_eqb_refl (x : byte) : Byte.eqb x x = true.
Proof. by apply Byte.byte_dec_lb. Qed.

Lemma strcmp_eq (a : list byte) : ∀ b, strcmp a b = 0 ↔ a = b.
Proof.
  induction a as [|x a IH]; intros [|y b]; simpl; try done.
  destruct (Byte.eqb x y) eqn:E.
  - apply Byte.byte_dec_bl in E. subst y. rewrite IH. split; congruence.
  - apply Byte.eqb_false in E. split; [|congruence].
    intros H. exfalso. apply E, byte_to_Z_inj.
    destruct (Z.sgn_spec (byte_to_Z x - byte_to_Z y)) as [[? ?]|[[? ?]|[? ?]]]; lia.
Qed.

Lemma strrchr_None (s : list byte) (c : byte) : strrchr s c = None ↔ c ∉ s.
Proof.
  induction s as [|x s IH]; simpl.
  - split; [intros _ H; by apply elem_of_nil in H|done].
  - rewrite not_elem_of_cons. destruct (strrchr s c) as [k|].
    + split; [done|]. intros [_ H]. by apply IH in H.
    + destruct (Byte.eqb x c) eqn:E.
      * apply Byte.byte_dec_bl in E. split; [done|]. by intros [? _].
      * apply Byte.eqb_false in E. split; [|done]. intros _.
        split; [congruence|by apply IH].
Qed.

Lemma strrchr_app (s t : list byte) (c : byte) :
  c ∉ t → strrchr (s ++ c :: t) c = Some (length s).
Proof.
  intros Hnot. induction s as [|x s IH]; simpl.
  - apply strrchr_None in Hnot. by rewrite Hnot, byte_eqb_refl.
  - by rewrite IH.
Qed.

Lemma strrchr_Some (s : list byte) (c : byte) : ∀ k : nat,
  strrchr s c = Some k →
  s = take k s ++ c :: drop (S k) s ∧ c ∉ drop (S k) s.
Proof.
  induction s as [|x s IH]; intros k; simpl; [done|].
  destruct (strrchr s c) as [k'|] eqn:Es.
  - intros [= <-]. destruct (IH k' eq_refl) as [Hs Hnot].
    simpl. split; [by rewrite <- Hs|done].
  - destruct (Byte.eqb x c) eqn:E; [|done]. intros [= <-].
    apply Byte.byte_dec_bl in E. subst x. simpl. rewrite drop_0.
    split; [done|]. by apply strrchr_None.
Qed.

Lemma validate_file_extension_spec_aux (filename extension : list byte) :
  validate_file_extension filename extension = true ↔
  ∃ stem : list byte,
    stem ≠ [] ∧ filename = stem ++ "."%byte :: extension
    ∧ "."%byte ∉ extension.
Proof.
  unfold validate_file_extension. split.
  - destruct (strrchr filename ".") as [[|k]|] eqn:Es; try done.
    intros Hcmp%Z.eqb_eq%strcmp_eq.
    destruct (strrchr_Some _ _ _ Es) as [Hsplit Hnot].
    rewrite Hcmp in Hsplit, Hnot.
    exists (take (S k) filename). split; [|done].
    intros Hnil. apply (f_equal length) in Hsplit, Hnil.
    rewrite length_app, Hnil in Hsplit. simpl in *.
    rewrite length_take in Hnil.
    assert (length filename = 0)%nat by lia.
    destruct filename; [|done]. done.
  - intros (stem & Hne & -> & Hnot).
    rewrite (strrchr_app stem extension "." Hnot).
    destruct stem as [|x stem]; [done|].
    assert (Hd : drop (S (length (x :: stem)))
                   ((x :: stem) ++ "."%byte :: extension) = extension).
    { rewrite <- (Nat.add_1_r (length (x :: stem))), <- drop_drop.
      by rewrite drop_app_length. }
    cbn [length] in *. cbv beta iota. rewrite Hd.
    apply Z.eqb_eq. by apply strcmp_eq.
Qed.

(** X1: a file name is accepted for an extension exactly when it is a
    non-empty stem, a dot and the extension, and the extension has no
    dot in it. *)
Theorem validate_file_extension_spec (filename extension : list byte) :
  validate_file_extension filename extension = true ↔
  ∃ stem : list byte,
    stem ≠ [] ∧ filename = stem ++ "."%byte :: extension
    ∧ "."%byte ∉ extension.
Proof. apply validate_file_extension_spec_aux. Qed.

(** ** Increment and decrement *)

(** X2: on a cell whose value is a [char], an increment followed by a
    decrement, and a decrement followed by an increment, give back the
    heap as it was, also across the wrap between 127 and -128. *)
Theorem increment_decrement_inverse (h : heap) (p : ptr) (b : StackBlock) :
  h !! p = Some b → -128 ≤ data b ≤ 127 →
  (h' ← incrementData h p; decrementData h' p) = Done h
  ∧ (h' ← decrementData h p; incrementData h' p) = Done h.
Proof.
  intros Hb Hrange.
  assert (Hlt : (p < length h)%nat) by by eapply lookup_lt_Some.
  assert (Hback : ∀ d, to_char d = data b →
            <[p := set_data (to_char d) (set_data 0 b)]> h = h).
  { intros d Hd. rewrite Hd. apply list_insert_id.
    etrans; [exact Hb|]. by destruct b. }
  unfold incrementData, decrementData. rewrite (load_lookup _ _ _ Hb).
  simpl. unfold load. rewrite !list_lookup_insert_eq by done. simpl.
  rewrite !list_insert_insert_eq.
  split; f_equal.
  - rewrite <- (Hback (to_char (data b + 1) - 1)) at 2; [done|].
    replace (to_char (data b + 1) - 1) with (to_char (data b + 1) + -1) by lia.
    rewrite to_char_add. replace (data b + 1 + -1) with (data b) by lia.
    by apply to_char_id.
  - rewrite <- (Hback (to_char (data b - 1) + 1)) at 2; [done|].
    rewrite to_char_add. replace (data b - 1 + 1) with (data b) by lia.
    by apply to_char_id.
Qed.

Lemma increment_decrement_inverse_witness :
  (h' ← incrementData [mkBlock None None 127] 0%nat; decrementData h' 0%nat)
  = Done [mkBlock None None 127]
  ∧ (h' ← decrementData [mkBlock None None (-128)] 0%nat;
     incrementData h' 0%nat)
    = Done [mkBlock None None (-128)].
Proof.
  split.
  - apply (increment_decrement_inverse [mkBlock None None 127] 0%nat
             (mkBlock None None 127)); [reflexivity|simpl; lia].
  - apply (increment_decrement_inverse [mkBlock None None (-128)] 0%nat
             (mkBlock None None (-128))); [reflexivity|simpl; lia].
Defined.

(** ** The validator and the loader together *)

Lemma depth_symbols_prefix_inv (s : list byte) : ∀ c : Z,
  (∀ k : nat, 0 ≤ c + depth (take k (byte_to_Z <$> symbols_of s))) →
  ∀ k : nat, 0 ≤ c + running_depth (take k s).
Proof.
  induction s as [|x s IH]; intros c Hs k.
  - specialize (Hs 0%nat). rewrite take_nil. simpl in *. lia.
  - destruct (char_of_byte x) as (_ & _ & _ & _ & Hid & _ & Hd & Hzero).
    rewrite symbols_of_cons in Hs. destruct k as [|k].
    { specialize (Hs 0%nat). simpl in *. lia. }
    cbn [take running_depth]. destruct (is_symbol x) eqn:E.
    + rewrite Z.add_assoc. apply IH. intros k'.
      specialize (Hs (S k')). rewrite fmap_cons in Hs.
      cbn [take depth] in Hs. rewrite <- (Hid eq_refl), Hd in Hs. lia.
    + rewrite Hzero by done. rewrite Z.add_0_l. by apply IH.
Qed.

Lemma balanced_checkBrackets (file : list byte) :
  balanced (loaded_symbols file) → checkBrackets file = true.
Proof.
  intros [Hprefix Htotal]. apply checkBrackets_spec.
  unfold loaded_symbols in *. split.
  - intros k. pose proof (depth_symbols_prefix_inv (upto_EOF file) 0) as H.
    simpl in H. apply H. done.
  - by rewrite <- depth_symbols.
Qed.

(** X3: when the head cell is initialised (the file has an instruction
    symbol before its first byte 0xFF, or the head byte is 0), the
    instruction tape [main] hands to [executeProgram] is a program
    followed by a 0 cell, and the validator accepts the file exactly
    when that program is balanced: the two passes over the file agree
    on where it ends and on which bytes count. *)
Theorem checkBrackets_iff_balanced (junk : Z) (file input : list byte) :
  loaded_symbols file ≠ [] ∨ junk = 0 →
  ∃ (s : engine) (prog : list Z),
    boot junk file input = Done s
    ∧ tape_values (mem s) instructionHead = prog ++ [0]
    ∧ (checkBrackets file = true ↔ balanced prog).
Proof.
  intros Hinit.
  destruct (boot_spec junk file input)
    as (s & li & Hboot & _ & _ & _ & _ & Hli & Hhead & _ & _ & _ & Hvals).
  exists s, (loaded_symbols file). split; [done|]. split.
  - unfold tape_values. rewrite (tape_cells_linked (mem s) li) by done.
    rewrite Hvals. destruct (loaded_symbols file); [|done].
    destruct Hinit as [?| ->]; done.
  - split; [apply checkBrackets_balanced|apply balanced_checkBrackets].
Qed.

Lemma checkBrackets_iff_balanced_witness :
  ∃ (s : engine) (prog : list Z),
    boot 7 (source "[+]") [] = Done s
    ∧ tape_values (mem s) instructionHead = prog ++ [0]
    ∧ (checkBrackets (source "[+]") = true ↔ balanced prog).
Proof.
  apply (checkBrackets_iff_balanced 7 (source "[+]") []).
  left. vm_compute. discriminate.
Defined.

Lemma checkBrackets_loop_symbols (file : list byte) : ∀ c : Z,
  0 ≤ c →
  checkBrackets_loop file c
  = checkBrackets_loop (symbols_of (upto_EOF file)) c.
Proof.
  induction file as [|x file IH]; intros c Hc; [done|].
  cbn [checkBrackets_loop upto_EOF].
  destruct (char_of_byte x) as (Exff & Eo & Ec & _ & _ & Hsym & _ & Hzero).
  rewrite Exff. destruct (Byte.eqb x xff) eqn:E; [done|].
  rewrite symbols_of_cons. destruct (is_symbol x) eqn:Es.
  - cbn [checkBrackets_loop]. rewrite Exff.
    destruct (to_char (byte_to_Z x) =? LOOP_START);
      destruct (to_char (byte_to_Z x) =? LOOP_END);
      match goal with
      | |- (if ?z <? 0 then _ else _) = _ =>
          destruct (z <? 0) eqn:Hneg; [done|apply IH; lia]
      end.
  - specialize (Hzero eq_refl). unfold bracket_delta in Hzero.
    rewrite <- Eo, <- Ec in Hzero.
    destruct (to_char (byte_to_Z x) =? LOOP_START); [done|].
    destruct (to_char (byte_to_Z x) =? LOOP_END); [done|].
    destruct (c <? 0) eqn:Hneg; [lia|]. by apply IH.
Qed.

Lemma parseInstructions_loop_symbols (file : list byte) : ∀ h cur,
  parseInstructions_loop file h cur
  = parseInstructions_loop (symbols_of (upto_EOF file)) h cur.
Proof.
  induction file as [|x file IH]; intros h cur; [done|].
  cbn [parseInstructions_loop upto_EOF].
  destruct (char_of_byte x) as (Exff & _ & _ & Ecmd & _).
  rewrite Exff. destruct (Byte.eqb x xff) eqn:E; [done|].
  rewrite symbols_of_cons, Ecmd. destruct (is_symbol x) eqn:Es; [|apply IH].
  cbn [parseInstructions_loop]. rewrite Exff, Ecmd.
  destruct (load h cur) as [b| |]; simpl; try done.
  destruct (moveForward _ cur) as [[h1 p1]| |]; simpl; try done.
Qed.

(** X4: bytes that are no instruction symbols are comments: two files
    with the same instruction symbols before their first byte 0xFF give
    the same result of [main], for every input and budget. *)
Theorem comments_are_ignored
    (file1 file2 : list byte) (junk : Z) (input : list byte) (fuel : nat) :
  symbols_of (upto_EOF file1) = symbols_of (upto_EOF file2) →
  main junk file1 input fuel = main junk file2 input fuel.
Proof.
  intros Heq. unfold main, boot, parseInstructions, checkBrackets.
  rewrite (checkBrackets_loop_symbols file1), (checkBrackets_loop_symbols file2)
    by lia.
  rewrite (parseInstructions_loop_symbols file1),
    (parseInstructions_loop_symbols file2).
  by rewrite Heq.
Qed.

Lemma comments_are_ignored_witness :
  main 0 (source "read , echo . again , and . end") [x41] 9
  = main 0 (source ",.,.") [x41] 9.
Proof.
  apply (comments_are_ignored (source "read , echo . again , and . end")
           (source ",.,.")).
  reflexivity.
Defined.

(** X5: a file with at least one instruction symbol before its first
    byte 0xFF is loaded as those symbols in order, followed by one cell
    holding 0; the data tape is a single cell holding 0, both cursors
    are on the heads, the input is untouched and nothing is printed. *)
Theorem loader_builds_program (junk : Z) (file input : list byte) :
  loaded_symbols file ≠ [] →
  ∃ s, boot junk file input = Done s
       ∧ tape_values (mem s) instructionHead = loaded_symbols file ++ [0]
       ∧ tape_values (mem s) dataHead = [0]
       ∧ InstructionPointer s = instructionHead
       ∧ DataPointer s = dataHead
       ∧ stdin s = input ∧ stdout s = [].
Proof.
  intros Hne.
  destruct (boot_spec junk file input)
    as (s & li & Hboot & Hip & Hdp & Hin & Hout & Hli & Hhead & Hld & Hsep
        & Hzero & Hvals).
  exists s. split; [done|]. unfold tape_values.
  rewrite (tape_cells_linked (mem s) li) by done.
  rewrite (tape_cells_linked (mem s) [dataHead]) by done.
  split; [by destruct (loaded_symbols file)|].
  split; [simpl; by rewrite Hzero|]. done.
Qed.

Lemma loader_builds_program_witness :
  ∃ s, boot 99 (source "a+b[c-d]e") [x41] = Done s
       ∧ tape_values (mem s) instructionHead
         = loaded_symbols (source "a+b[c-d]e") ++ [0]
       ∧ tape_values (mem s) dataHead = [0]
       ∧ InstructionPointer s = instructionHead
       ∧ DataPointer s = dataHead
       ∧ stdin s = [x41] ∧ stdout s = [].
Proof.
  apply (loader_builds_program 99 (source "a+b[c-d]e") [x41]).
  vm_compute. discriminate.
Defined.

Lemma checkBrackets_loop_app (a b : list byte) : ∀ c : Z,
  xff ∉ a →
  (∀ k : nat, 0 ≤ c + running_depth (take k a)) →
  checkBrackets_loop (a ++ b) c = checkBrackets_loop b (c + running_depth a).
Proof.
  induction a as [|x a IH]; intros c Hnot Hprefix.
  - simpl. by rewrite Z.add_0_r.
  - apply not_elem_of_cons in Hnot as [Hx Hnot].
    cbn [app checkBrackets_loop running_depth].
    destruct (char_of_byte x) as (Exff & Eo & Ec & _).
    rewrite Exff, Eo, Ec.
    assert (Byte.eqb x xff = false) as ->.
    { destruct (Byte.eqb x xff) eqn:E; [|done].
      apply Byte.byte_dec_bl in E. congruence. }
    pose proof (Hprefix 1%nat) as H1. cbn [take running_depth] in H1.
    rewrite take_0 in H1. cbn [running_depth] in H1.
    assert (Hstep :
      (if Byte.eqb x "]" then (if Byte.eqb x "[" then c + 1 else c) - 1
       else if Byte.eqb x "[" then c + 1 else c) = c + bracket_delta x).
    { unfold bracket_delta. destruct (Byte.eqb x "[") eqn:E1.
      - apply Byte.byte_dec_bl in E1. subst x. simpl. lia.
      - destruct (Byte.eqb x "]"); lia. }
    rewrite Hstep.
    assert ((c + bracket_delta x <? 0) = false) as -> by lia.
    rewrite IH; [f_equal; lia|done|].
    intros k. specialize (Hprefix (S k)). cbn [take running_depth] in Hprefix.
    lia.
Qed.

(** X6: a validated file without a byte 0xFF can be put in front of any
    file without changing the validator's verdict on it: after a
    balanced prefix the depth counter is back at 0. *)
Theorem checkBrackets_after_balanced (a b : list byte) :
  checkBrackets a = true → xff ∉ a →
  checkBrackets (a ++ b) = checkBrackets b.
Proof.
  intros Ha Hnot. apply checkBrackets_spec in Ha.
  rewrite (upto_EOF_id a Hnot) in Ha. destruct Ha as [Hprefix Htotal].
  unfold checkBrackets. rewrite checkBrackets_loop_app.
  - by rewrite Htotal.
  - done.
  - intros k. specialize (Hprefix k). lia.
Qed.

Lemma checkBrackets_after_balanced_witness :
  checkBrackets (source "+[-]" ++ source "][") = checkBrackets (source "][").
Proof.
  apply (checkBrackets_after_balanced (source "+[-]") (source "][")).
  - reflexivity.
  - intros H. repeat (apply elem_of_cons in H as [H|H]; [discriminate|]).
    by apply elem_of_nil in H.
Defined.

(** ** The shape of the heap *)

Section Shape.

Implicit Types (h : heap) (l li ld : list ptr) (p q r : ptr) (s : engine).

Lemma tape_grow_refl h l : linked h l → tape_grow h l h l.
Proof. intros Hl. split; [by apply tape_step_refl|]. by left. Qed.

Lemma tape_grow_trans h l h1 l1 h2 l2 :
  tape_grow h l h1 l1 → tape_grow h1 l1 h2 l2 → tape_grow h l h2 l2.
Proof.
  intros [Hs1 Hn1] [Hs2 Hn2]. split; [by eapply tape_step_trans|].
  intros r Hr. destruct (Hn2 r Hr) as [H|H]; [|by right].
  destruct (Hn1 r H) as [H'|H']; [by left|right].
  destruct Hs2 as (_ & Hin & _). by apply Hin.
Qed.

Lemma moveForward_grow h l p :
  linked h l → p ∈ l →
  ∃ h' q l', moveForward h p = Done (h', q) ∧ tape_grow h l h' l' ∧ q ∈ l'.
Proof.
  intros Hl Hp. pose proof Hp as [i Hi]%list_elem_of_lookup.
  destruct (l !! S i) as [q1|] eqn:Hq1.
  - exists h, q1, l. split; [by eapply moveForward_inside|].
    split; [by apply tape_grow_refl|by eapply list_elem_of_lookup_2].
  - destruct (linked_lookup _ _ _ _ Hl Hi) as (b & Hb & _).
    destruct (moveForward_end h l i p b Hl Hi Hq1 Hb) as [Hm Hl'].
    eexists _, (length h), (l ++ [length h]). split; [exact Hm|].
    split; [|apply elem_of_app; right; by apply list_elem_of_singleton].
    split.
    + split; [exact Hl'|]. split; [intros r Hr; apply elem_of_app; by left|].
      split.
      * intros r [Hr| ->%list_elem_of_singleton]%elem_of_app; [by left|by right].
      * by apply (evolves_grow h l p b).
    + intros r Hr. rewrite length_insert, length_app in Hr. simpl in Hr.
      destruct (decide (r = length h)) as [->|]; [|left; lia].
      right. apply elem_of_app. right. by apply list_elem_of_singleton.
Qed.

Lemma moveBackward_grow h l p :
  linked h l → p ∈ l →
  ∃ h' q l', moveBackward h p = Done (h', q) ∧ tape_grow h l h' l' ∧ q ∈ l'.
Proof.
  intros Hl Hp. pose proof Hp as [i Hi]%list_elem_of_lookup.
  destruct i as [|i].
  - destruct (linked_lookup _ _ _ _ Hl Hi) as (b & Hb & _).
    destruct (moveBackward_end h l p b Hl Hi Hb) as [Hm Hl'].
    eexists _, (length h), (length h :: l). split; [exact Hm|].
    split; [|by left]. split.
    + split; [exact Hl'|]. split; [intros r Hr; by right|]. split.
      * intros r [->|Hr]%elem_of_cons; [by right|by left].
      * by apply (evolves_grow h l p b).
    + intros r Hr. rewrite length_insert, length_app in Hr. simpl in Hr.
      destruct (decide (r = length h)) as [->|]; [right; by left|left; lia].
  - assert (is_Some (l !! i)) as [q1 Hq1].
    { apply lookup_lt_is_Some. apply lookup_lt_Some in Hi. lia. }
    exists h, q1, l. split; [by eapply moveBackward_inside|].
    split; [by apply tape_grow_refl|by eapply list_elem_of_lookup_2].
Qed.

(** A scan never leaves its tape: it returns, or is still scanning when
    the budget ends. *)
Lemma scanForward_grow fuel : ∀ h l p c,
  linked h l → p ∈ l →
  scanForward fuel h p c = Timeout
  ∨ ∃ h' q l', scanForward fuel h p c = Done (h', q)
               ∧ tape_grow h l h' l' ∧ q ∈ l'.
Proof.
  induction fuel as [|fuel IH]; intros h l p c Hl Hp; simpl.
  - destruct (c =? 0); [|by left]. right. exists h, p, l.
    split; [done|]. split; [by apply tape_grow_refl|done].
  - destruct (c =? 0).
    { right. exists h, p, l. split; [done|].
      split; [by apply tape_grow_refl|done]. }
    destruct (moveForward_grow h l p Hl Hp) as (h1 & p1 & l1 & -> & Hg1 & Hp1).
    simpl. pose proof Hg1 as ((Hl1 & _) & _).
    pose proof Hp1 as [i1 Hi1]%list_elem_of_lookup.
    destruct (linked_load h1 l1 i1 p1 Hl1 Hi1) as (b1 & -> & _). simpl.
    assert (∃ c', (if data b1 =? LOOP_START
                   then scanForward fuel h1 p1 (c + 1)
                   else if data b1 =? LOOP_END
                        then scanForward fuel h1 p1 (c - 1)
                        else scanForward fuel h1 p1 c)
                  = scanForward fuel h1 p1 c') as [c' ->]
      by (repeat case_match; eauto).
    destruct (IH h1 l1 p1 c' Hl1 Hp1) as [->|(h2 & q & l2 & -> & Hg2 & Hq)];
      [by left|].
    right. exists h2, q, l2. split; [done|].
    split; [by eapply tape_grow_trans|done].
Qed.

Lemma scanBackward_grow fuel : ∀ h l p c,
  linked h l → p ∈ l →
  scanBackward fuel h p c = Timeout
  ∨ ∃ h' q l', scanBackward fuel h p c = Done (h', q)
               ∧ tape_grow h l h' l' ∧ q ∈ l'.
Proof.
  induction fuel as [|fuel IH]; intros h l p c Hl Hp; simpl.
  - destruct (c =? 0); [|by left]. right. exists h, p, l.
    split; [done|]. split; [by apply tape_grow_refl|done].
  - destruct (c =? 0).
    { right. exists h, p, l. split; [done|].
      split; [by apply tape_grow_refl|done]. }
    destruct (moveBackward_grow h l p Hl Hp) as (h1 & p1 & l1 & -> & Hg1 & Hp1).
    simpl. pose proof Hg1 as ((Hl1 & _) & _).
    pose proof Hp1 as [i1 Hi1]%list_elem_of_lookup.
    destruct (linked_load h1 l1 i1 p1 Hl1 Hi1) as (b1 & -> & _). simpl.
    assert (∃ c', (if data b1 =? LOOP_START
                   then scanBackward fuel h1 p1 (c - 1)
                   else if data b1 =? LOOP_END
                        then scanBackward fuel h1 p1 (c + 1)
                        else scanBackward fuel h1 p1 c)
                  = scanBackward fuel h1 p1 c') as [c' ->]
      by (repeat case_match; eauto).
    destruct (IH h1 l1 p1 c' Hl1 Hp1) as [->|(h2 & q & l2 & -> & Hg2 & Hq)];
      [by left|].
    right. exists h2, q, l2. split; [done|].
    split; [by eapply tape_grow_trans|done].
Qed.

(** The shape after a move of the data cursor, a move of the
    instruction cursor, and a write under the data cursor. *)
Lemma shape_data_move s li ld h' ld' p :
  shape s li ld → tape_grow (mem s) ld h' ld' → p ∈ ld' →
  shape (with_dp p (with_mem h' s)) li ld'.
Proof.
  intros (Hok & Hsplit & Hih & Hdh) [Hstep Hnew] Hp.
  destruct (data_move_keeps _ _ _ li ld h' ld' p Hok Hstep Hp) as (Hok' & _).
  split; [exact Hok'|]. destruct Hstep as (_ & Hin & _).
  split; [|split; [done|by apply Hin]].
  intros r Hr. simpl in Hr. destruct (Hnew r Hr) as [H|H]; [|by right].
  destruct (Hsplit r H) as [?|?]; [by left|right; by apply Hin].
Qed.

Lemma shape_instr_move s li ld h' li' p :
  shape s li ld → tape_grow (mem s) li h' li' → p ∈ li' →
  shape (with_ip p (with_mem h' s)) li' ld.
Proof.
  intros (Hok & Hsplit & Hih & Hdh) [Hstep Hnew] Hp.
  destruct (instr_move_keeps _ _ _ li ld h' li' p Hok Hstep Hp) as (Hok' & _).
  split; [exact Hok'|]. destruct Hstep as (_ & Hin & _).
  split; [|split; [by apply Hin|done]].
  intros r Hr. simpl in Hr. destruct (Hnew r Hr) as [H|H]; [|by left].
  destruct (Hsplit r H) as [?|?]; [left; by apply Hin|by right].
Qed.

Lemma shape_store s li ld b (d : Z) (sin sout : list byte) :
  shape s li ld → mem s !! DataPointer s = Some b →
  shape (mkEngine (<[DataPointer s := set_data d b]> (mem s))
           (InstructionPointer s) (DataPointer s) sin sout) li ld.
Proof.
  intros (Hok & Hsplit & Hih & Hdh) Hb.
  destruct (data_store_keeps _ _ _ li ld b d Hok Hb) as (Hok' & _ & Hlen).
  split; [exact Hok'|]. split; [|done].
  intros r Hr. simpl in Hr. rewrite Hlen in Hr. by apply Hsplit.
Qed.

Lemma shape_streams s li ld (sin sout : list byte) :
  shape s li ld →
  shape (mkEngine (mem s) (InstructionPointer s) (DataPointer s) sin sout)
    li ld.
Proof. by intros (Hok & Hsplit & Hih & Hdh). Qed.

(** The switch never dereferences a pointer that names no block, and
    keeps the shape. *)
Lemma dispatch_shape fuel (i : Z) s li ld :
  shape s li ld →
  dispatch fuel i s = Timeout
  ∨ ∃ s' li' ld', dispatch fuel i s = Done s' ∧ shape s' li' ld'.
Proof.
  intros Hsh. pose proof Hsh as ((Hli & Hld & Hsep & Hip & Hdp) & _).
  pose proof Hdp as [j Hj]%list_elem_of_lookup.
  destruct (linked_load _ ld j _ Hld Hj) as (b & Hload & _).
  pose proof Hload as Hb%load_Done.
  unfold dispatch.
  destruct (i =? MOVE_FORWARD).
  { destruct (moveForward_grow _ ld _ Hld Hdp) as (h1 & p1 & ld' & -> & Hg & Hp1).
    right. simpl. eexists _, li, ld'. split; [done|].
    by apply (shape_data_move s li ld). }
  destruct (i =? MOVE_BACKWARD).
  { destruct (moveBackward_grow _ ld _ Hld Hdp) as (h1 & p1 & ld' & -> & Hg & Hp1).
    right. simpl. eexists _, li, ld'. split; [done|].
    by apply (shape_data_move s li ld). }
  destruct (i =? INCREMENT_DATA).
  { right. unfold incrementData. rewrite Hload. simpl.
    eexists _, li, ld. split; [done|].
    by apply (shape_store s li ld b _ (stdin s) (stdout s)). }
  destruct (i =? DECREMENT_DATA).
  { right. unfold decrementData. rewrite Hload. simpl.
    eexists _, li, ld. split; [done|].
    by apply (shape_store s li ld b _ (stdin s) (stdout s)). }
  destruct (i =? OUTPUT_DATA).
  { right. unfold outputData. rewrite Hload. simpl.
    eexists _, li, ld. split; [done|]. by apply shape_streams. }
  destruct (i =? INPUT_DATA).
  { right. unfold inputData. rewrite Hload. simpl.
    destruct (getchar (stdin s)) as [c rest].
    eexists _, li, ld. split; [done|]. by apply shape_store. }
  destruct (i =? LOOP_START).
  { rewrite Hload. simpl. destruct (data b =? 0).
    - destruct (scanForward_grow fuel _ li (InstructionPointer s) 1 Hli Hip)
        as [->|(h1 & q & li' & -> & Hg & Hq)]; [by left|].
      right. simpl. eexists _, li', ld. split; [done|].
      by apply (shape_instr_move s li ld).
    - right. by exists s, li, ld. }
  destruct (i =? LOOP_END).
  { rewrite Hload. simpl. destruct (negb (data b =? 0)).
    - destruct (scanBackward_grow fuel _ li (InstructionPointer s) 1 Hli Hip)
        as [->|(h1 & q & li' & -> & Hg & Hq)]; [by left|].
      right. simpl. eexists _, li', ld. split; [done|].
      by apply (shape_instr_move s li ld).
    - right. by exists s, li, ld. }
  right. by exists s, li, ld.
Qed.

Lemma loop_body_shape fuel s li ld :
  shape s li ld →
  loop_body fuel s = Timeout
  ∨ ∃ s' li' ld', loop_body fuel s = Done s' ∧ shape s' li' ld'.
Proof.
  intros Hsh. pose proof Hsh as ((Hli & _ & _ & Hip & _) & _).
  pose proof Hip as [i Hi]%list_elem_of_lookup.
  destruct (linked_load _ li i _ Hli Hi) as (b & Hload & _).
  unfold loop_body. rewrite Hload. simpl.
  destruct (dispatch_shape fuel (data b) s li ld Hsh)
    as [->|(s1 & li1 & ld1 & -> & Hsh1)]; [by left|].
  simpl. pose proof Hsh1 as ((Hli1 & _ & _ & Hip1 & _) & _).
  destruct (moveForward_grow _ li1 _ Hli1 Hip1) as (h2 & q & li2 & -> & Hg & Hq).
  right. simpl. eexists _, li2, ld1. split; [done|].
  by apply (shape_instr_move s1 li1 ld1).
Qed.

Lemma executeProgram_shape fuel : ∀ s li ld,
  shape s li ld →
  executeProgram fuel s = Timeout
  ∨ ∃ s' li' ld', executeProgram fuel s = Done s' ∧ shape s' li' ld'.
Proof.
  induction fuel as [|fuel IH]; intros s li ld Hsh;
    pose proof Hsh as ((Hli & _ & _ & Hip & _) & _);
    pose proof Hip as [i Hi]%list_elem_of_lookup;
    destruct (linked_load _ li i _ Hli Hi) as (b & Hload & _);
    simpl; rewrite Hload; simpl.
  - destruct (data b =? 0); [|by left]. right. by exists s, li, ld.
  - destruct (data b =? 0); [right; by exists s, li, ld|].
    destruct (loop_body_shape fuel s li ld Hsh)
      as [->|(s1 & li1 & ld1 & -> & Hsh1)]; [by left|].
    simpl. by eapply IH.
Qed.

Lemma iterations_shape fuel n : ∀ s s' li ld,
  shape s li ld → iterations fuel n s = Done s' →
  ∃ li' ld', shape s' li' ld'.
Proof.
  induction n as [|n IH]; intros s s' li ld Hsh H; simpl in H.
  - injection H as <-. by exists li, ld.
  - inv_bind H. destruct (data a =? 0); [injection H as <-; by exists li, ld|].
    inv_bind H.
    destruct (loop_body_shape fuel s li ld Hsh)
      as [E|(s1 & li1 & ld1 & E & Hsh1)]; rewrite E in Ha0; [done|].
    injection Ha0 as <-. by eapply IH.
Qed.

(** The state [main] starts from has the shape. *)
Lemma boot_shape (junk : Z) (file input : list byte) :
  ∃ s li, boot junk file input = Done s ∧ shape s li [dataHead].
Proof.
  unfold boot, parseInstructions.
  assert (Hgen : ∀ file h l cur,
    linked h l → cur ∈ l →
    (∀ r, (r < length h)%nat → r ∈ l ∨ r = dataHead) →
    h !! dataHead = Some (mkBlock None None 0) → dataHead ∉ l →
    ∃ h' l', parseInstructions_loop file h cur = Done h'
             ∧ linked h' l' ∧ (∀ r, r ∈ l → r ∈ l')
             ∧ (∀ r, (r < length h')%nat → r ∈ l' ∨ r = dataHead)
             ∧ h' !! dataHead = Some (mkBlock None None 0) ∧ dataHead ∉ l').
  { clear file. intros file.
    induction file as [|x file IH]; intros h l cur Hl Hcur Hsplit Hd Hnot.
    { exists h, l. by simpl. }
    simpl. destruct (to_char (byte_to_Z x) =? EOF); [by exists h, l|].
    destruct (is_command _); [|by apply IH].
    pose proof Hcur as [i Hi]%list_elem_of_lookup.
    destruct (linked_lookup _ _ _ _ Hl Hi) as (b & Hb & _).
    rewrite (load_lookup _ _ _ Hb). simpl.
    destruct (store_data_spec h l cur b (to_char (byte_to_Z x)) Hl Hb)
      as (Hl1 & Hlen1 & _ & Hsame1).
    destruct (moveForward_grow _ l cur Hl1 Hcur)
      as (h2 & q & l2 & -> & ((Hl2 & Hin2 & Hnew2 & (Hlen2 & _ & Hout2)) & Hall2)
          & Hq).
    simpl.
    assert (Hdlt : (dataHead < length h)%nat) by by eapply lookup_lt_Some.
    assert (cur ≠ dataHead) by (intros ->; done).
    destruct (IH h2 l2 q) as (h' & l' & -> & Hl' & Hin' & Hsplit' & Hd' & Hnot');
      [done|done| | | |].
    - intros r Hr. destruct (Hall2 r Hr) as [H1|H1]; [|by left].
      rewrite Hlen1 in H1. destruct (Hsplit r H1) as [?|?]; [left; auto|by right].
    - rewrite Hout2, Hsame1; [done|done|done|lia].
    - intros Hin. destruct (Hnew2 _ Hin) as [?|?]; [done|lia].
    - exists h', l'. split; [done|]. split; [done|]. split; [by auto|]. done. }
  destruct (Hgen file (fresh_heads junk) [instructionHead] instructionHead)
    as (h' & l' & -> & Hl' & Hin' & Hsplit' & Hd' & Hnot').
  - by eapply linked_single.
  - by apply list_elem_of_singleton.
  - intros r Hr. simpl in Hr. destruct r as [|[|r]]; [left; by left|by right|lia].
  - done.
  - intros Hin%list_elem_of_singleton. done.
  - simpl. eexists _, l'. split; [done|].
    assert (Hld : linked h' [dataHead]) by by eapply linked_single.
    split; [|split; [|split; [apply Hin'; by left|by left]]].
    + split; [done|]. split; [done|]. split.
      * intros r Hr ->%list_elem_of_singleton. done.
      * split; [apply Hin'; by left|by left].
    + intros r Hr. destruct (Hsplit' r Hr) as [?| ->]; [by left|right; by left].
Qed.

End Shape.

Lemma reached_shape
    (junk : Z) (file input : list byte) (s0 s : engine) :
  boot junk file input = Done s0 → reached s0 s →
  ∃ li ld : list ptr, shape s li ld.
Proof.
  intros Hboot Hreach.
  destruct (boot_shape junk file input) as (s0' & li & Hboot' & Hsh).
  rewrite Hboot in Hboot'. injection Hboot' as <-.
  destruct Hreach as [(fuel & n & H)|(fuel & H)].
  - by eapply iterations_shape.
  - apply (executeProgram_iterations fuel) in H; [|done].
    by eapply iterations_shape.
Qed.

(** X7: whatever the file, validated or not, every state of the run has
    the same shape: the heap is exactly two doubly linked lists without
    a common block, the instruction cursor and the instruction head are
    on one, the data cursor and the data head on the other. *)
Theorem run_keeps_shape
    (junk : Z) (file input : list byte) (s0 s : engine) :
  boot junk file input = Done s0 → reached s0 s →
  ∃ li ld : list ptr, shape s li ld.
Proof. apply reached_shape. Qed.

Lemma run_keeps_shape_witness :
  ∃ s0 s,
    boot 93 (source "<<]+") [] = Done s0
    ∧ iterations 3 3 s0 = Done s
    ∧ ∃ li ld : list ptr, shape s li ld.
Proof.
  eexists _, _. split; [vm_compute; reflexivity|].
  split; [vm_compute; reflexivity|].
  eapply (run_keeps_shape 93 (source "<<]+") []).
  - reflexivity.
  - left. exists 3%nat, 3%nat. reflexivity.
Defined.


(** ** Giving the tapes back *)

Section Release.

Implicit Types (h : heap) (l li ld freed : list ptr) (p q r : ptr) (s : engine).

Lemma NoDup_not_later l (i : nat) p :
  NoDup l → l !! i = Some p → p ∉ drop (S i) l.
Proof.
  intros Hnd Hi [k Hk]%list_elem_of_lookup. rewrite lookup_drop in Hk.
  pose proof (NoDup_lookup l i (S i + k) p Hnd Hi Hk). lia.
Qed.

Lemma NoDup_not_earlier l (i : nat) p :
  NoDup l → p ∈ drop i l → p ∉ take i l.
Proof.
  intros Hnd [k Hk]%list_elem_of_lookup [k' Hk']%list_elem_of_lookup.
  rewrite lookup_drop in Hk. apply lookup_take_Some in Hk' as [Hk' Hlt].
  pose proof (NoDup_lookup l (i + k) k' p Hnd Hk Hk'). lia.
Qed.

Lemma in_drop l (i : nat) r : r ∈ drop i l → r ∈ l.
Proof. apply subseteq_drop. Qed.

Lemma in_take l (i : nat) r : r ∈ take i l → r ∈ l.
Proof. apply subseteq_take. Qed.

Lemma NoDup_drop_of l (i : nat) : NoDup l → NoDup (drop i l).
Proof. intros H. eapply sublist_NoDup; [done|apply sublist_drop]. Qed.

Lemma freeBlocks_loop_linked h l :
  linked h l → ∀ (fuel i : nat) freed,
  (length l ≤ i + fuel)%nat →
  (∀ r, r ∈ drop i l → r ∉ freed) →
  freeBlocks_loop fuel h freed (l !! i) = Done (freed ++ drop i l).
Proof.
  intros Hl fuel. induction fuel as [|fuel IH]; intros i freed Hlen Hfresh.
  - rewrite drop_ge, app_nil_r by lia.
    by rewrite (lookup_ge_None_2 l i) by lia.
  - destruct (l !! i) as [p|] eqn:Hp.
    + destruct (linked_lookup _ _ _ _ Hl Hp) as (b & Hb & Hn & _).
      rewrite (drop_S l p i Hp) in *. cbn [freeBlocks_loop].
      rewrite bool_decide_eq_false_2 by (apply Hfresh; by left).
      rewrite (load_lookup _ _ _ Hb). simpl. rewrite Hn, IH.
      * by rewrite <- app_assoc.
      * lia.
      * intros r Hr [Hin| ->%list_elem_of_singleton]%elem_of_app.
        -- apply (Hfresh r); [by right|done].
        -- by apply (NoDup_not_later l i p (proj1 Hl) Hp).
    + apply lookup_ge_None_1 in Hp. by rewrite drop_ge, app_nil_r.
Qed.

(** The two calls at the end of [main], on a heap of the shape. *)
Lemma release_shape s li ld :
  shape s li ld →
  ∃ i j : nat,
    li !! i = Some instructionHead ∧ ld !! j = Some dataHead
    ∧ release s = Done (drop i li ++ drop j ld).
Proof.
  intros ((Hli & Hld & Hsep & _) & _ & Hih & Hdh).
  pose proof Hih as [i Hi]%list_elem_of_lookup.
  pose proof Hdh as [j Hj]%list_elem_of_lookup.
  exists i, j. split; [done|]. split; [done|].
  unfold release, freeBlocks. rewrite <- Hi.
  rewrite (freeBlocks_loop_linked _ li Hli).
  - cbn [mbind outcome_bind app]. rewrite <- Hj.
    rewrite (freeBlocks_loop_linked _ ld Hld); [done| |].
    + pose proof (linked_length _ _ Hld). lia.
    + intros r Hr Hr'. apply (Hsep r).
      * by eapply in_drop.
      * by eapply in_drop.
  - pose proof (linked_length _ _ Hli). lia.
  - intros r _ Hr. by apply elem_of_nil in Hr.
Qed.

End Release.

(** X8: on a well-formed tape, [freeBlocks] called on a block frees
    that block and every block after it, in order, and nothing else: the
    blocks before it stay allocated. *)
Theorem freeBlocks_frees_tail
    (h : heap) (l freed : list ptr) (i : nat) (p : ptr) :
  linked h l → l !! i = Some p →
  (∀ r : ptr, r ∈ drop i l → r ∉ freed) →
  freeBlocks h freed p = Done (freed ++ drop i l)
  ∧ ∀ r : ptr, r ∈ take i l → r ∉ drop i l.
Proof.
  intros Hl Hp Hfresh. split.
  - unfold freeBlocks. rewrite <- Hp. apply freeBlocks_loop_linked; [done| |done].
    pose proof (linked_length _ _ Hl). lia.
  - intros r Hr Hr'. by apply (NoDup_not_earlier l i r (proj1 Hl)).
Qed.

Lemma freeBlocks_frees_tail_witness :
  freeBlocks
    [mkBlock (Some 1%nat) (Some 2%nat) 5; mkBlock None (Some 0%nat) 6;
     mkBlock (Some 0%nat) None 7]
    [] 0%nat
  = Done ([] ++ drop 1 [2%nat; 0%nat; 1%nat])
  ∧ ∀ r : ptr, r ∈ take 1 [2%nat; 0%nat; 1%nat]
               → r ∉ drop 1 [2%nat; 0%nat; 1%nat].
Proof.
  apply (freeBlocks_frees_tail _ [2%nat; 0%nat; 1%nat] [] 1 0%nat).
  - split.
    + apply (bool_decide_eq_true_1 (NoDup [2%nat; 0%nat; 1%nat])). reflexivity.
    + intros [|[|[|k]]] r Hr; simpl in Hr; try discriminate;
        injection Hr as <-; eexists; (split; [reflexivity|]); split; reflexivity.
  - reflexivity.
  - intros r _ Hr. by apply elem_of_nil in Hr.
Defined.

(** X9: when a run has ended, the two calls of [freeBlocks] in [main]
    free no block twice and free exactly the blocks from each head
    onwards.  The blocks that stay allocated are exactly those before a
    head on its tape, which are the blocks [moveBackward] allocated to
    the left of the head. *)
Theorem main_frees_from_the_heads
    (junk : Z) (file input : list byte) (fuel : nat) (s0 s : engine) :
  boot junk file input = Done s0 → executeProgram fuel s0 = Done s →
  ∃ (li ld : list ptr) (i j : nat),
    shape s li ld
    ∧ li !! i = Some instructionHead ∧ ld !! j = Some dataHead
    ∧ release s = Done (drop i li ++ drop j ld)
    ∧ NoDup (drop i li ++ drop j ld)
    ∧ ∀ r : ptr, (r < length (mem s))%nat →
        (r ∉ drop i li ++ drop j ld ↔ r ∈ take i li ++ take j ld).
Proof.
  intros Hboot Hrun.
  destruct (reached_shape junk file input s0 s Hboot)
    as (li & ld & Hsh); [right; by exists fuel|].
  destruct (release_shape s li ld Hsh) as (i & j & Hi & Hj & Hrel).
  exists li, ld, i, j. split; [done|]. split; [done|]. split; [done|].
  split; [done|].
  destruct Hsh as ((Hli & Hld & Hsep & _) & Hsplit & _).
  split.
  { apply list.NoDup_app. split; [apply NoDup_drop_of, Hli|].
    split; [|apply NoDup_drop_of, Hld].
    intros r Hr Hr'. apply (Hsep r); by eapply in_drop. }
  intros r Hr. rewrite !elem_of_app. split.
  - intros Hnot. destruct (Hsplit r Hr) as [H|H].
    + left. rewrite <- (take_drop i li) in H.
      apply elem_of_app in H as [?|?]; [done|]. exfalso. apply Hnot. by left.
    + right. rewrite <- (take_drop j ld) in H.
      apply elem_of_app in H as [?|?]; [done|]. exfalso. apply Hnot. by right.
  - intros [H|H] [H'|H'].
    + by apply (NoDup_not_earlier li i r (proj1 Hli)).
    + apply (Hsep r); [by eapply in_take|by eapply in_drop].
    + apply (Hsep r); [by eapply in_drop|by eapply in_take].
    + by apply (NoDup_not_earlier ld j r (proj1 Hld)).
Qed.

Lemma main_frees_from_the_heads_witness :
  ∃ s0 s,
    boot 0 (source "<<+") [] = Done s0
    ∧ executeProgram 4 s0 = Done s
    ∧ ∃ (li ld : list ptr) (i j : nat),
        shape s li ld
        ∧ li !! i = Some instructionHead ∧ ld !! j = Some dataHead
        ∧ release s = Done (drop i li ++ drop j ld)
        ∧ NoDup (drop i li ++ drop j ld)
        ∧ ∀ r : ptr, (r < length (mem s))%nat →
            (r ∉ drop i li ++ drop j ld ↔ r ∈ take i li ++ take j ld).
Proof.
  eexists _, _. split; [vm_compute; reflexivity|].
  split; [vm_compute; reflexivity|].
  eapply (main_frees_from_the_heads 0 (source "<<+") [] 4); reflexivity.
Defined.

(** ** [main] from the command line *)

Lemma main_exit_shape
    (junk : Z) (file input : list byte) (fuel : nat) (s : engine) :
  main junk file input fuel = Done (Exited s) → ∃ li ld, shape s li ld.
Proof.
  unfold main. destruct (negb (checkBrackets file)); [done|].
  destruct (boot_shape junk file input) as (s0 & li & -> & Hsh). simpl.
  destruct (executeProgram_shape fuel s0 li [dataHead] Hsh)
    as [->|(s' & li' & ld' & -> & Hsh')]; [done|].
  simpl. intros [= <-]. by exists li', ld'.
Qed.

Lemma main_Exited_validated
    (junk : Z) (file input : list byte) (fuel : nat) (s : engine) :
  main junk file input fuel = Done (Exited s) → checkBrackets file = true.
Proof.
  unfold main. destruct (checkBrackets file); [done|]. simpl. done.
Qed.

Lemma main_no_fault
    (junk : Z) (file input : list byte) (fuel : nat) :
  main junk file input fuel ≠ Fault.
Proof.
  unfold main. destruct (negb (checkBrackets file)); [done|].
  destruct (boot_shape junk file input) as (s0 & li & -> & Hsh). simpl.
  destruct (executeProgram_shape fuel s0 li [dataHead] Hsh)
    as [->|(s & li' & ld' & -> & _)]; done.
Qed.

(** X10: the one undefined step of the whole program: [main] goes wrong
    exactly when it is given one argument with the extension [bf] that
    names a file it cannot open (it then calls [fclose] on the null
    stream); in particular neither the run nor the release of the tapes
    ever touches a block that is not allocated or frees a block twice. *)
Theorem main_argv_faults_iff
    (fs : list byte → option (list byte)) (junk : Z)
    (argv0 : list byte) (args : list (list byte)) (input : list byte)
    (fuel : nat) :
  main_argv fs junk argv0 args input fuel = Fault ↔
  ∃ filename : list byte,
    args = [filename]
    ∧ validate_file_extension filename BF_EXTENSION = true
    ∧ fs filename = None.
Proof.
  unfold main_argv. split.
  - destruct args as [|filename [|? ?]]; try done.
    destruct (validate_file_extension filename BF_EXTENSION) eqn:Ev; [|done].
    simpl. destruct (fs filename) as [file|] eqn:Ef; [|by exists filename].
    destruct (main junk file input fuel) as [[out|s]| |] eqn:Em; simpl; try done.
    + destruct (main_exit_shape _ _ _ _ _ Em) as (li & ld & Hsh).
      destruct (release_shape s li ld Hsh) as (i & j & _ & _ & ->). done.
    + by apply main_no_fault in Em.
  - intros (filename & -> & -> & ->). done.
Qed.

(** X11: for regular files, which [rewind] takes back to their first
    byte: [main] exits with status 0 exactly when it is given one
    argument, a non-empty stem followed by [.bf], the file of that name
    can be opened, the validator accepts it and the run ends within the
    budget; what was printed is then the output of the run.  The release
    of the tapes always succeeds. *)
Theorem main_argv_succeeds_iff
    (fs : list byte → option (list byte)) (junk : Z)
    (argv0 : list byte) (args : list (list byte)) (input : list byte)
    (fuel : nat) (out : list byte) :
  main_argv fs junk argv0 args input fuel = Done (0, out) ↔
  ∃ (stem file : list byte) (s : engine),
    stem ≠ []
    ∧ args = [stem ++ "."%byte :: BF_EXTENSION]
    ∧ fs (stem ++ "."%byte :: BF_EXTENSION) = Some file
    ∧ checkBrackets file = true
    ∧ main junk file input fuel = Done (Exited s)
    ∧ out = stdout s.
Proof.
  unfold main_argv. split.
  - destruct args as [|filename [|? ?]]; try done.
    destruct (validate_file_extension filename BF_EXTENSION) eqn:Ev; [|done].
    apply validate_file_extension_spec_aux in Ev as (stem & Hne & -> & _).
    simpl. destruct (fs _) as [file|] eqn:Ef; [|done].
    destruct (main junk file input fuel) as [[out'|s]| |] eqn:Em; simpl; try done.
    destruct (main_exit_shape _ _ _ _ _ Em) as (li & ld & Hsh).
    destruct (release_shape s li ld Hsh) as (i & j & _ & _ & ->). simpl.
    intros [= <-]. exists stem, file, s.
    split; [done|]. split; [done|]. split; [done|].
    split; [by eapply main_Exited_validated|done].
  - intros (stem & file & s & Hne & -> & Hfs & Hcheck & Hmain & ->).
    assert (validate_file_extension (stem ++ "."%byte :: BF_EXTENSION)
              BF_EXTENSION = true) as ->.
    { apply validate_file_extension_spec_aux. exists stem.
      split; [done|]. split; [done|].
      intros H. repeat (apply elem_of_cons in H as [H|H]; [discriminate|]).
      by apply elem_of_nil in H. }
    simpl. rewrite Hfs, Hmain. simpl.
    destruct (main_exit_shape _ _ _ _ _ Hmain) as (li & ld & Hsh).
    destruct (release_shape s li ld Hsh) as (i & j & _ & _ & ->). done.
Qed.

(** ** The streams *)

Lemma dispatch_streams fuel (i : Z) (s s' : engine) :
  dispatch fuel i s = Done s' →
  (∃ k, stdout s' = stdout s ++ k) ∧ (∃ k, stdin s = k ++ stdin s').
Proof.
  unfold dispatch, incrementData, decrementData, outputData, inputData.
  intros H.
  assert (Hin : stdin s = [] ∨ ∃ c, stdin s = c :: snd (getchar (stdin s))).
  { destruct (stdin s) as [|c rest]; [by left|right; by exists c]. }
  repeat match type of H with
         | (if ?c then _ else _) = Done _ => destruct c
         | _ ≫= _ = Done _ => inv_bind H
         | (let '(_, _) := ?a in _) = Done _ => destruct a eqn:?
         end;
    injection H as <-; simpl;
    (split;
     [first [by (exists []; rewrite app_nil_r) | by eexists]
     |try (by exists [])]).
  destruct Hin as [Hin|[c Hin]].
  - rewrite Hin in *. simplify_eq/=. by exists [].
  - simpl in Hin. by exists [c].
Qed.

Lemma loop_body_streams fuel (s s' : engine) :
  loop_body fuel s = Done s' →
  (∃ k, stdout s' = stdout s ++ k) ∧ (∃ k, stdin s = k ++ stdin s').
Proof.
  intros H. unfold loop_body in H.
  inv_bind H. inv_bind H. inv_bind H. destruct a1 as [h p].
  injection H as <-. simpl. by eapply dispatch_streams.
Qed.

Lemma iterations_streams fuel n : ∀ s s' : engine,
  iterations fuel n s = Done s' →
  (∃ k, stdout s' = stdout s ++ k) ∧ (∃ k, stdin s = k ++ stdin s').
Proof.
  assert (Hsame : ∀ s, (∃ k, stdout s = stdout s ++ k)
                       ∧ (∃ k, stdin s = k ++ stdin s))
    by (intros s; split; [exists []; by rewrite app_nil_r|by exists []]).
  induction n as [|n IH]; intros s s' H; simpl in H.
  - by injection H as <-.
  - inv_bind H. destruct (data a =? 0); [by injection H as <-|].
    inv_bind H.
    destruct (loop_body_streams _ _ _ Ha0) as [[k1 Ho1] [k1' Hi1]].
    destruct (IH _ _ H) as [[k2 Ho2] [k2' Hi2]].
    split.
    + exists (k1 ++ k2). by rewrite Ho2, Ho1, app_assoc.
    + exists (k1' ++ k2'). by rewrite Hi1, Hi2, app_assoc.
Qed.

(** X12: a run only appends to the output and only takes bytes from the
    front of the input: in every state of the run the output so far
    begins with the earlier output and the input left is an end piece
    of the earlier input. *)
Theorem streams_are_sequential (s0 s : engine) :
  reached s0 s →
  (∃ written, stdout s = stdout s0 ++ written)
  ∧ (∃ consumed, stdin s0 = consumed ++ stdin s).
Proof.
  intros [(fuel & n & H)|(fuel & H)].
  - by eapply iterations_streams.
  - eapply (iterations_streams fuel fuel).
    by apply executeProgram_iterations.
Qed.

Lemma streams_are_sequential_witness :
  ∃ s0 s,
    boot 0 (source ",.,.") [x41; x42; x43] = Done s0
    ∧ executeProgram 9 s0 = Done s
    ∧ (∃ written, stdout s = stdout s0 ++ written)
    ∧ (∃ consumed, stdin s0 = consumed ++ stdin s).
Proof.
  eexists _, _. split; [vm_compute; reflexivity|].
  split; [vm_compute; reflexivity|].
  eapply streams_are_sequential. right. exists 9%nat. reflexivity.
Defined.

(** ** Where the jumps land *)

Section Jumps.

Implicit Types (h : heap) (li : list ptr) (p q : ptr) (c : Z) (s : engine).

Lemma depth_take_add (l : list Z) : ∀ a b : nat,
  depth (take (a + b) l) = depth (take a l) + depth (take b (drop a l)).
Proof.
  induction l as [|x l IH]; intros a b.
  - by rewrite drop_nil, !take_nil.
  - destruct a as [|a]; [done|]. simpl. rewrite IH. lia.
Qed.

(** The forward scan stops on the first cell at which the counter is
    back at 0. *)
Lemma scanForward_match h li :
  linked h li → ∀ (suffix : list Z) fuel i p c,
  li !! i = Some p →
  drop (S i) (value_at h <$> li) = suffix →
  0 < c → depth suffix ≤ - c → (length suffix ≤ fuel)%nat →
  ∃ (m : nat) q,
    scanForward fuel h p c = Done (h, q)
    ∧ li !! (S i + m)%nat = Some q
    ∧ suffix !! m = Some LOOP_END
    ∧ c + depth (take (S m) suffix) = 0
    ∧ ∀ k : nat, (k < m)%nat → 0 < c + depth (take (S k) suffix).
Proof.
  intros Hl suffix.
  induction suffix as [|x rest IH]; intros fuel i p c Hp Hdrop Hc Hdepth Hfuel.
  - simpl in Hdepth. lia.
  - destruct fuel as [|fuel]; [simpl in Hfuel; lia|]. simpl in Hfuel.
    assert (Hx : (value_at h <$> li) !! S i = Some x).
    { rewrite <- (Nat.add_0_r (S i)), <- lookup_drop, Hdrop. done. }
    assert (Hrest : drop (S (S i)) (value_at h <$> li) = rest).
    { rewrite (drop_S _ x (S i)) in Hdrop by done. by injection Hdrop. }
    rewrite list_lookup_fmap in Hx.
    destruct (li !! S i) as [q1|] eqn:Hq1; [|done].
    simpl in Hx. injection Hx as Hx.
    destruct (linked_load h li (S i) q1 Hl Hq1) as (b1 & Hload & Hdata).
    cbn [scanForward]. assert ((c =? 0) = false) as -> by lia.
    rewrite (moveForward_inside h li i p q1) by done.
    cbn [mbind outcome_bind]. rewrite Hload. cbn [mbind outcome_bind].
    rewrite Hdata, Hx.
    cbn [depth] in Hdepth. unfold delta in Hdepth.
    assert (Hnext : ∀ c', 0 < c' → c' = c + delta x →
      ∃ (m : nat) q,
        scanForward fuel h q1 c' = Done (h, q)
        ∧ li !! (S i + m)%nat = Some q
        ∧ (x :: rest) !! m = Some LOOP_END
        ∧ c + depth (take (S m) (x :: rest)) = 0
        ∧ ∀ k : nat, (k < m)%nat → 0 < c + depth (take (S k) (x :: rest))).
    { intros c' Hc' Ec'.
      destruct (IH fuel (S i) q1 c') as (m & q & Hs & Hq & Hm & Hz & Hpos);
        [done|done|done|unfold delta in Ec'; lia|lia|].
      exists (S m), q. split; [done|].
      split; [by rewrite Nat.add_succ_r|]. split; [done|].
      split; [cbn [take depth]; lia|].
      intros [|k] Hk; cbn [take depth]; [rewrite take_0; simpl; lia|].
      specialize (Hpos k). lia. }
    unfold delta in Hnext.
    destruct (x =? LOOP_START) eqn:Eo; [apply Hnext; lia|].
    destruct (x =? LOOP_END) eqn:Ec; [|apply Hnext; lia].
    destruct (decide (c = 1)) as [->|Hne]; [|apply Hnext; lia].
    exists 0%nat, q1. split; [by destruct fuel|].
    split; [by rewrite Nat.add_0_r|].
    split; [simpl; f_equal; by apply Z.eqb_eq|].
    split; [|lia]. cbn [take depth]. rewrite take_0. unfold delta.
    rewrite Eo, Ec. simpl. lia.
Qed.

(** The backward scan stops on the last cell before which the counter
    is back at 0. *)
Lemma scanBackward_match h li :
  linked h li → ∀ (i : nat) fuel p c,
  li !! i = Some p →
  0 < c → c ≤ depth (take i (value_at h <$> li)) → (i ≤ fuel)%nat →
  ∃ (j : nat) q,
    scanBackward fuel h p c = Done (h, q)
    ∧ li !! j = Some q ∧ (j < i)%nat
    ∧ (value_at h <$> li) !! j = Some LOOP_START
    ∧ depth (take j (value_at h <$> li))
      = depth (take i (value_at h <$> li)) - c
    ∧ ∀ k : nat, (j < k < i)%nat →
        depth (take i (value_at h <$> li)) - c
        < depth (take k (value_at h <$> li)).
Proof.
  intros Hl i.
  induction i as [|i IH]; intros fuel p c Hp Hc Hdepth Hfuel.
  - simpl in Hdepth. lia.
  - destruct fuel as [|fuel]; [lia|].
    assert (is_Some (li !! i)) as [q1 Hq1].
    { apply lookup_lt_is_Some. apply lookup_lt_Some in Hp. lia. }
    destruct (linked_load h li i q1 Hl Hq1) as (b1 & Hload & Hdata).
    assert (Hvi : (value_at h <$> li) !! i = Some (value_at h q1))
      by (by rewrite list_lookup_fmap, Hq1).
    rewrite (take_S_r _ i (value_at h q1)) in * by done.
    rewrite depth_app in *. cbn [depth] in *.
    cbn [scanBackward]. assert ((c =? 0) = false) as -> by lia.
    rewrite (moveBackward_inside h li i p q1) by done.
    cbn [mbind outcome_bind]. rewrite Hload. cbn [mbind outcome_bind].
    rewrite Hdata.
    assert (Hnext : ∀ c', 0 < c' → c' = c - delta (value_at h q1) →
      ∃ (j : nat) q,
        scanBackward fuel h q1 c' = Done (h, q)
        ∧ li !! j = Some q ∧ (j < S i)%nat
        ∧ (value_at h <$> li) !! j = Some LOOP_START
        ∧ depth (take j (value_at h <$> li))
          = depth (take i (value_at h <$> li))
            + (delta (value_at h q1) + 0) - c
        ∧ ∀ k : nat, (j < k < S i)%nat →
            depth (take i (value_at h <$> li))
            + (delta (value_at h q1) + 0) - c
            < depth (take k (value_at h <$> li))).
    { intros c' Hc' Ec'.
      destruct (IH fuel q1 c') as (j & q & Hs & Hq & Hlt & Hj & Hz & Hpos);
        [done|done|lia|lia|].
      exists j, q. split; [done|]. split; [done|]. split; [lia|].
      split; [done|]. split; [lia|].
      intros k Hk. destruct (decide (k = i)) as [->|]; [lia|].
      specialize (Hpos k). lia. }
    unfold delta in Hnext, Hdepth |- *.
    destruct (value_at h q1 =? LOOP_START) eqn:Eo.
    { destruct (decide (c = 1)) as [->|Hne]; [|apply Hnext; lia].
      exists i, q1. split; [by destruct fuel|]. split; [done|].
      split; [lia|]. split; [rewrite Hvi; f_equal; by apply Z.eqb_eq|].
      split; [lia|]. intros k Hk. lia. }
    destruct (value_at h q1 =? LOOP_END) eqn:Ec; apply Hnext; lia.
Qed.

Lemma reached_running
    (junk : Z) (file input : list byte) (s0 s : engine) :
  checkBrackets file = true →
  boot junk file input = Done s0 →
  loaded_symbols file ≠ [] ∨ junk = 0 →
  reached s0 s →
  running (loaded_symbols file) (tape_cells (mem s0) instructionHead) s.
Proof.
  intros Hcheck Hboot Hinit Hreach.
  destruct (boot_spec junk file input)
    as (s0' & li & Hboot' & Hip & Hdp & _ & _ & Hli & Hhead & Hld & Hsep
        & _ & Hvals).
  rewrite Hboot in Hboot'. injection Hboot' as <-.
  rewrite (tape_cells_linked (mem s0) li) by done.
  assert (Hrun0 : running (loaded_symbols file) li s0).
  { split.
    - rewrite Hvals. destruct (loaded_symbols file); [|done].
      destruct Hinit as [?| ->]; done.
    - exists [dataHead]. unfold engine_ok. rewrite Hip, Hdp.
      split; [done|]. split; [done|]. split.
      + intros r Hr ->%list_elem_of_singleton. done.
      + split; [by eapply list_elem_of_lookup_2|]. by apply list_elem_of_singleton. }
  assert (Hiter : ∃ fuel n, iterations fuel n s0 = Done s).
  { destruct Hreach as [H|[fuel H]]; [done|].
    exists fuel, fuel. by apply executeProgram_iterations. }
  destruct Hiter as (fuel & n & Hiter).
  destruct (iterations_running (loaded_symbols file) li
              (checkBrackets_balanced file Hcheck)
              (fuel `max` length (loaded_symbols file)) n s0 Hrun0)
    as (s' & Hiter' & Hrun'); [lia|].
  rewrite (iterations_mono fuel _ n) with (r := s) in Hiter' by (done || lia).
  by injection Hiter' as <-.
Qed.

End Jumps.

Section JumpSteps.

Variable prog : list Z.
Variable li : list ptr.
Variable s : engine.
Hypothesis prog_balanced : balanced prog.
Hypothesis prog_running : running prog li s.

Lemma running_take (n : nat) :
  (n ≤ length prog)%nat →
  take n (value_at (mem s) <$> li) = take n prog.
Proof using prog_running.
  intros Hn. destruct prog_running as [-> _]. by apply take_app_le.
Qed.

Lemma running_lookup (n : nat) (v : Z) :
  prog !! n = Some v → (value_at (mem s) <$> li) !! n = Some v.
Proof using prog_running.
  intros Hn. destruct prog_running as [-> _]. by apply lookup_app_l_Some.
Qed.

Lemma running_nonzero (n : nat) (v : Z) :
  (value_at (mem s) <$> li) !! n = Some v → v ≠ 0 →
  prog !! n = Some v ∧ (n < length prog)%nat.
Proof using prog_running.
  destruct prog_running as [-> _]. intros Hv Hne.
  apply lookup_app_Some in Hv as [Hv|[Hge Hv]].
  - split; [done|]. by eapply lookup_lt_Some.
  - destruct (n - length prog)%nat; simpl in Hv; [|done]. congruence.
Qed.

Lemma running_next (n : nat) :
  (n < length prog)%nat → is_Some (li !! S n).
Proof using prog_running.
  intros Hn. apply lookup_lt_is_Some.
  pose proof (running_length prog li s prog_running). lia.
Qed.

Lemma loop_start_running (i : nat) (d : StackBlock) (fuel : nat) :
  li !! i = Some (InstructionPointer s) →
  prog !! i = Some LOOP_START →
  mem s !! DataPointer s = Some d →
  (length prog ≤ fuel)%nat →
  if data d =? 0
  then ∃ (j : nat) q, closes prog i j ∧ li !! S j = Some q
                      ∧ loop_body fuel s = Done (with_ip q s)
  else ∃ q, li !! S i = Some q ∧ loop_body fuel s = Done (with_ip q s).
Proof using All.
  intros Hi Hprog Hd Hfuel.
  pose proof prog_running as (Hvals & ld & (Hli & _)).
  pose proof (lookup_lt_Some _ _ _ Hprog) as Hilt.
  destruct (linked_load _ li i _ Hli Hi) as (b & Hload & Hdata).
  assert (Hv : value_at (mem s) (InstructionPointer s) = LOOP_START).
  { pose proof (running_lookup i _ Hprog) as H.
    rewrite list_lookup_fmap, Hi in H. simpl in H. congruence. }
  unfold loop_body. rewrite Hload. cbn [mbind outcome_bind].
  rewrite Hdata, Hv, dispatch_loop_start, (load_lookup _ _ _ Hd).
  cbn [mbind outcome_bind].
  destruct prog_balanced as [Hprefix Htotal].
  assert (Htake : depth (take (S i) prog) = depth (take i prog) + 1).
  { rewrite (take_S_r prog i _ Hprog), depth_app. simpl.
    change (delta LOOP_START) with 1. lia. }
  destruct (data d =? 0).
  - destruct (scanForward_match (mem s) li Hli
                (drop (S i) (value_at (mem s) <$> li)) fuel i
                (InstructionPointer s) 1)
      as (m & q & Hs & Hq & Hm & Hz & Hpos); [done|done|lia| | |].
    { rewrite Hvals, drop_app_le, depth_app by lia. simpl.
      pose proof (Hprefix i).
      rewrite <- (take_drop (S i) prog), depth_app in Htotal.
      change (delta 0) with 0. lia. }
    { rewrite length_drop, length_fmap.
      pose proof (running_length prog li s prog_running). lia. }
    rewrite lookup_drop in Hm.
    destruct (running_nonzero _ _ Hm) as [Hj Hjlt]; [done|].
    destruct (running_next _ Hjlt) as [q' Hq'].
    exists (S i + m)%nat, q'. split; [|split; [done|]].
    + assert (Hdj : ∀ k : nat, (k ≤ m)%nat →
        depth (take (S (S i + k)) prog)
        = depth (take i prog) + (1 + depth (take (S k)
            (drop (S i) (value_at (mem s) <$> li))))).
      { intros k Hk. rewrite <- (running_take (S (S i + k))) by lia.
        replace (S (S i + k)) with (S i + S k)%nat by lia.
        rewrite depth_take_add, running_take by lia. lia. }
      split; [lia|]. split; [done|]. split; [done|].
      split; [rewrite Hdj by lia; lia|].
      intros k Hk. destruct (decide (k = i)) as [->|]; [lia|].
      replace k with (S i + (k - S i))%nat by lia.
      rewrite Hdj by lia. specialize (Hpos (k - S i)%nat). lia.
    + rewrite Hs. cbn [mbind outcome_bind].
      change (InstructionPointer (with_ip q (with_mem (mem s) s))) with q.
      change (mem (with_ip q (with_mem (mem s) s))) with (mem s).
      rewrite (moveForward_inside _ li (S i + m) q q') by done.
      reflexivity.
  - destruct (running_next _ Hilt) as [q' Hq']. exists q'. split; [done|].
    cbn [mbind outcome_bind].
    rewrite (moveForward_inside _ li i _ q') by done. reflexivity.
Qed.

Lemma loop_end_running (j : nat) (d : StackBlock) (fuel : nat) :
  li !! j = Some (InstructionPointer s) →
  prog !! j = Some LOOP_END →
  mem s !! DataPointer s = Some d →
  (length prog ≤ fuel)%nat →
  if data d =? 0
  then ∃ q, li !! S j = Some q ∧ loop_body fuel s = Done (with_ip q s)
  else ∃ (i : nat) q, closes prog i j ∧ li !! S i = Some q
                      ∧ loop_body fuel s = Done (with_ip q s).
Proof using All.
  intros Hj Hprog Hd Hfuel.
  pose proof prog_running as (Hvals & ld & (Hli & _)).
  pose proof (lookup_lt_Some _ _ _ Hprog) as Hjlt.
  destruct (linked_load _ li j _ Hli Hj) as (b & Hload & Hdata).
  assert (Hv : value_at (mem s) (InstructionPointer s) = LOOP_END).
  { pose proof (running_lookup j _ Hprog) as H.
    rewrite list_lookup_fmap, Hj in H. simpl in H. congruence. }
  unfold loop_body. rewrite Hload. cbn [mbind outcome_bind].
  rewrite Hdata, Hv, dispatch_loop_end, (load_lookup _ _ _ Hd).
  cbn [mbind outcome_bind].
  destruct prog_balanced as [Hprefix Htotal].
  assert (Htake : depth (take (S j) prog) = depth (take j prog) - 1).
  { rewrite (take_S_r prog j _ Hprog), depth_app. simpl.
    change (delta LOOP_END) with (-1). lia. }
  destruct (data d =? 0); cbn [negb].
  - destruct (running_next _ Hjlt) as [q' Hq']. exists q'. split; [done|].
    cbn [mbind outcome_bind].
    rewrite (moveForward_inside _ li j _ q') by done. reflexivity.
  - destruct (scanBackward_match (mem s) li Hli j fuel
                (InstructionPointer s) 1)
      as (i & q & Hs & Hq & Hlt & Hi & Hz & Hpos); [done|lia| |lia|].
    { rewrite running_take by lia. pose proof (Hprefix (S j)). lia. }
    destruct (running_nonzero _ _ Hi) as [Hpi Hilt]; [done|].
    destruct (running_next _ Hilt) as [q' Hq'].
    rewrite !running_take in Hz by lia.
    exists i, q'. split; [|split; [done|]].
    + split; [lia|]. split; [done|]. split; [done|]. split; [lia|].
      intros k Hk. destruct (decide (S k = j)) as [E|].
      * rewrite E. lia.
      * specialize (Hpos (S k)). rewrite !running_take in Hpos by lia. lia.
    + rewrite Hs. cbn [mbind outcome_bind].
      change (InstructionPointer (with_ip q (with_mem (mem s) s))) with q.
      change (mem (with_ip q (with_mem (mem s) s))) with (mem s).
      rewrite (moveForward_inside _ li i q q') by done.
      reflexivity.
Qed.

End JumpSteps.

(** X13: in a run of a validated program, a pass on a loop start with
    the data cell at 0 puts the instruction cursor on the cell after the
    matching loop end, the first cell at which the nesting depth is back
    to what it was before the loop start; with the data cell not 0 it
    just moves on.  Nothing else changes. *)
Theorem loop_start_step
    (junk : Z) (file input : list byte) (s0 s : engine)
    (i : nat) (d : StackBlock) (fuel : nat) :
  checkBrackets file = true →
  boot junk file input = Done s0 →
  loaded_symbols file ≠ [] ∨ junk = 0 →
  reached s0 s →
  tape_cells (mem s0) instructionHead !! i = Some (InstructionPointer s) →
  loaded_symbols file !! i = Some LOOP_START →
  mem s !! DataPointer s = Some d →
  (length (loaded_symbols file) ≤ fuel)%nat →
  if data d =? 0
  then ∃ (j : nat) (q : ptr),
         closes (loaded_symbols file) i j
         ∧ tape_cells (mem s0) instructionHead !! S j = Some q
         ∧ loop_body fuel s = Done (with_ip q s)
  else ∃ q : ptr,
         tape_cells (mem s0) instructionHead !! S i = Some q
         ∧ loop_body fuel s = Done (with_ip q s).
Proof.
  intros Hcheck Hboot Hinit Hreach.
  apply loop_start_running.
  - by apply checkBrackets_balanced.
  - by eapply reached_running.
Qed.

(** X14: in a run of a validated program, a pass on a loop end with the
    data cell not 0 puts the instruction cursor on the cell after the
    matching loop start, which is the first cell of the loop body; with
    the data cell at 0 it just moves on.  Nothing else changes. *)
Theorem loop_end_step
    (junk : Z) (file input : list byte) (s0 s : engine)
    (j : nat) (d : StackBlock) (fuel : nat) :
  checkBrackets file = true →
  boot junk file input = Done s0 →
  loaded_symbols file ≠ [] ∨ junk = 0 →
  reached s0 s →
  tape_cells (mem s0) instructionHead !! j = Some (InstructionPointer s) →
  loaded_symbols file !! j = Some LOOP_END →
  mem s !! DataPointer s = Some d →
  (length (loaded_symbols file) ≤ fuel)%nat →
  if data d =? 0
  then ∃ q : ptr,
         tape_cells (mem s0) instructionHead !! S j = Some q
         ∧ loop_body fuel s = Done (with_ip q s)
  else ∃ (i : nat) (q : ptr),
         closes (loaded_symbols file) i j
         ∧ tape_cells (mem s0) instructionHead !! S i = Some q
         ∧ loop_body fuel s = Done (with_ip q s).
Proof.
  intros Hcheck Hboot Hinit Hreach.
  apply loop_end_running.
  - by apply checkBrackets_balanced.
  - by eapply reached_running.
Qed.

Lemma loop_start_step_witness :
  ∃ s0,
    boot 0 (source "[+[-]].") [] = Done s0
    ∧ ∃ (j : nat) (q : ptr),
        closes (loaded_symbols (source "[+[-]].")) 0 j
        ∧ tape_cells (mem s0) instructionHead !! S j = Some q
        ∧ loop_body 7 s0 = Done (with_ip q s0).
Proof.
  eexists. split; [vm_compute; reflexivity|].
  apply (loop_start_step 0 (source "[+[-]].") [] _ _ 0
           (mkBlock None None 0) 7); try reflexivity.
  - left. vm_compute. discriminate.
  - left. exists 0%nat, 0%nat. reflexivity.
Defined.

Lemma loop_end_step_witness :
  ∃ s0 s,
    boot 0 (source "++[-]") [] = Done s0
    ∧ iterations 5 4 s0 = Done s
    ∧ ∃ (i : nat) (q : ptr),
        closes (loaded_symbols (source "++[-]")) i 4
        ∧ tape_cells (mem s0) instructionHead !! S i = Some q
        ∧ loop_body 5 s = Done (with_ip q s).
Proof.
  eexists _, _. split; [vm_compute; reflexivity|].
  split; [vm_compute; reflexivity|].
  eapply (loop_end_step 0 (source "++[-]") [] _ _ 4
            (mkBlock None None 1) 5); try reflexivity.
  - left. vm_compute. discriminate.
  - left. exists 5%nat, 4%nat. reflexivity.
Defined.

(** ** Programs without output or input instructions *)

Lemma dispatch_quiet fuel (i : Z) (s s' : engine) :
  dispatch fuel i s = Done s' →
  (i ≠ OUTPUT_DATA → stdout s' = stdout s)
  ∧ (i ≠ INPUT_DATA → stdin s' = stdin s).
Proof.
  unfold dispatch, incrementData, decrementData, outputData, inputData.
  intros H.
  repeat match type of H with
         | (if ?c then _ else _) = Done _ => destruct c eqn:?
         | _ ≫= _ = Done _ => inv_bind H
         | (let '(_, _) := ?a in _) = Done _ => destruct a eqn:?
         end;
    injection H as <-; simpl;
    repeat match goal with
           | E : (_ =? _) = true |- _ => apply Z.eqb_eq in E
           end;
    split; intros Hne; done.
Qed.

Lemma loop_body_quiet fuel (s s' : engine) (b : StackBlock) :
  load (mem s) (InstructionPointer s) = Done b →
  loop_body fuel s = Done s' →
  (data b ≠ OUTPUT_DATA → stdout s' = stdout s)
  ∧ (data b ≠ INPUT_DATA → stdin s' = stdin s).
Proof.
  intros Hload H. unfold loop_body in H. rewrite Hload in H.
  cbn [mbind outcome_bind] in H.
  inv_bind H. inv_bind H. destruct a0 as [h p].
  injection H as <-. simpl. by eapply dispatch_quiet.
Qed.

Lemma iterations_quiet (prog : list Z) (li : list ptr) (fuel n : nat) :
  balanced prog → (length prog ≤ fuel)%nat → ∀ s s' : engine,
  running prog li s → iterations fuel n s = Done s' →
  (OUTPUT_DATA ∉ prog → stdout s' = stdout s)
  ∧ (INPUT_DATA ∉ prog → stdin s' = stdin s).
Proof.
  intros Hbal Hfuel. induction n as [|n IH]; intros s s' Hrun H; simpl in H.
  - by injection H as <-.
  - inv_bind H. destruct (data a =? 0) eqn:Ez; [by injection H as <-|].
    inv_bind H. rename a0 into s1.
    pose proof Hrun as (_ & ld & (Hli & _ & _ & Hip & _)).
    pose proof Hip as [i Hi]%list_elem_of_lookup.
    destruct (linked_load _ li i _ Hli Hi) as (b & Hload & Hdata).
    rewrite Ha in Hload. injection Hload as <-.
    destruct (running_cursor prog li s i Hrun Hi) as [Hv _]; [lia|].
    rewrite <- Hdata in Hv. apply list_elem_of_lookup_2 in Hv.
    destruct (loop_body_running prog li Hbal fuel s Hrun) as (s1' & E & Hrun1);
      [lia|done|].
    rewrite E in Ha0. injection Ha0 as ->.
    destruct (loop_body_quiet fuel s s1 a Ha E) as [Ho Hi'].
    destruct (IH s1 s' Hrun1 H) as [Ho' Hi''].
    split; intros Hnot.
    + rewrite Ho' by done. apply Ho. intros Eq. apply Hnot. by rewrite <- Eq.
    + rewrite Hi'' by done. apply Hi'. intros Eq. apply Hnot. by rewrite <- Eq.
Qed.

(** X15: a validated program whose head cell is initialised (at least
    one symbol was loaded, or the head byte is 0) and which has no
    output instruction prints nothing, and one without an input
    instruction leaves the input as it is, in every state of its run:
    the interpreter then only ever dispatches on cells the loader
    filled. *)
Theorem quiet_programs
    (junk : Z) (file input : list byte) (s0 s : engine) :
  checkBrackets file = true →
  boot junk file input = Done s0 →
  loaded_symbols file ≠ [] ∨ junk = 0 →
  reached s0 s →
  (OUTPUT_DATA ∉ loaded_symbols file → stdout s = [])
  ∧ (INPUT_DATA ∉ loaded_symbols file → stdin s = input).
Proof.
  intros Hcheck Hboot Hinit Hreach.
  pose proof (reached_running junk file input s0 s0 Hcheck Hboot Hinit) as Hrun0.
  destruct (boot_spec junk file input)
    as (s0' & li & Hboot' & _ & _ & Hin & Hout & _).
  rewrite Hboot in Hboot'. injection Hboot' as <-.
  assert (Hiter : ∃ fuel n, iterations fuel n s0 = Done s).
  { destruct Hreach as [H|[fuel H]]; [done|].
    exists fuel, fuel. by apply executeProgram_iterations. }
  destruct Hiter as (fuel & n & Hiter).
  apply (iterations_mono fuel (fuel `max` length (loaded_symbols file))) in Hiter;
    [|lia].
  destruct (iterations_quiet (loaded_symbols file)
              (tape_cells (mem s0) instructionHead)
              (fuel `max` length (loaded_symbols file)) n
              (checkBrackets_balanced file Hcheck) (Nat.le_max_r _ _)
              s0 s) as [Ho Hi]; [|done|].
  - apply Hrun0. left. by exists 0%nat, 0%nat.
  - rewrite Hin, Hout in *. done.
Qed.

Lemma quiet_programs_witness :
  ∃ s0 s,
    boot 0 (source "+[->+<]") [x41] = Done s0
    ∧ executeProgram 12 s0 = Done s
    ∧ (OUTPUT_DATA ∉ loaded_symbols (source "+[->+<]") → stdout s = [])
    ∧ (INPUT_DATA ∉ loaded_symbols (source "+[->+<]") → stdin s = [x41]).
Proof.
  eexists _, _. split; [vm_compute; reflexivity|].
  split; [vm_compute; reflexivity|].
  eapply (quiet_programs 0 (source "+[->+<]") [x41]).
  - reflexivity.
  - reflexivity.
  - left. vm_compute. discriminate.
  - right. exists 12%nat. reflexivity.
Defined.

(** ** The validator, the budget and the wrap, for every input *)

(** X16: for every file, the validator returns 1 exactly when the part
    of the file before its first byte 0xFF is well bracketed: its depth
    counter never goes below 0 and ends at 0. *)
Theorem checkBrackets_decides (file : list byte) :
  checkBrackets file = true ↔ well_bracketed (upto_EOF file).
Proof. apply checkBrackets_spec. Qed.

(** X17: a validated program whose head cell is initialised cannot go
    wrong or scan for ever: with a scanning budget of the length of the
    program, every pass through the loop body returns. *)
Theorem validated_passes_return
    (junk : Z) (file input : list byte) (s0 : engine) (fuel n : nat) :
  checkBrackets file = true →
  boot junk file input = Done s0 →
  loaded_symbols file ≠ [] ∨ junk = 0 →
  (length (loaded_symbols file) ≤ fuel)%nat →
  ∃ s, iterations fuel n s0 = Done s.
Proof.
  intros Hcheck Hboot Hinit Hfuel.
  pose proof (reached_running junk file input s0 s0 Hcheck Hboot Hinit) as Hrun0.
  destruct (iterations_running (loaded_symbols file)
              (tape_cells (mem s0) instructionHead)
              (checkBrackets_balanced file Hcheck) fuel n s0) as (s & H & _);
    [|done|by exists s].
  apply Hrun0. left. by exists 0%nat, 0%nat.
Qed.

Lemma validated_passes_return_witness :
  ∃ s0, boot 0 (source "+[]") [] = Done s0
        ∧ ∃ s, iterations 3 1000 s0 = Done s.
Proof.
  eexists. split; [vm_compute; reflexivity|].
  eapply (validated_passes_return 0 (source "+[]") []).
  - reflexivity.
  - reflexivity.
  - left. vm_compute. discriminate.
  - vm_compute. lia.
Defined.

(** X18: 256 increments in a row give a cell, whatever [char] it
    holds, its value back, and change no other block. *)
Theorem increments_wrap_around (h : heap) (p : ptr) (b : StackBlock) :
  h !! p = Some b → -128 ≤ data b ≤ 127 →
  Nat.iter 256 (λ r, r ≫= λ h, incrementData h p) (Done h) = Done h.
Proof.
  intros Hb Hrange.
  assert (Hn : ∀ n : nat,
    Nat.iter n (λ r, r ≫= λ h, incrementData h p) (Done h)
    = Done (<[p := set_data (to_char (data b + Z.of_nat n)) b]> h)).
  { induction n as [|n IH].
    - simpl. rewrite Z.add_0_r, to_char_id by done. f_equal. symmetry.
      apply list_insert_id. etrans; [exact Hb|]. by destruct b.
    - rewrite Nat.iter_succ, IH. simpl. unfold incrementData, load.
      rewrite list_lookup_insert_eq by by eapply lookup_lt_Some.
      simpl. rewrite list_insert_insert_eq. do 2 f_equal.
      unfold set_data. simpl. f_equal.
      rewrite to_char_add. f_equal. lia. }
  rewrite Hn. f_equal. apply list_insert_id. etrans; [exact Hb|].
  f_equal. destruct b as [nx pv d]. unfold set_data. simpl in *. f_equal.
  unfold to_char.
  replace (d + Z.of_nat 256 + 128) with (d + 128 + 1 * 256) by lia.
  rewrite Z_mod_plus_full, Z.mod_small; lia.
Qed.

Lemma increments_wrap_around_witness :
  Nat.iter 256 (λ r, r ≫= λ h, incrementData h 1%nat)
    (Done [mkBlock None None 43; mkBlock None None (-7)])
  = Done [mkBlock None None 43; mkBlock None None (-7)].
Proof.
  apply (increments_wrap_around _ 1%nat (mkBlock None None (-7)));
    [reflexivity|simpl; lia].
Defined.

(** ** Runs of increments *)

Lemma to_uchar_value (z : Z) : byte_to_Z (to_uchar z) = z mod 256.
Proof.
  unfold to_uchar, byte_to_Z.
  pose proof (Z.mod_pos_bound z 256 ltac:(lia)) as Hm.
  pose proof (Byte.to_of_N_option_map (Z.to_N (z mod 256))) as H.
  assert ((Z.to_N (z mod 256) <=? 255)%N = true) as E by (apply N.leb_le; lia).
  rewrite E in H.
  destruct (Byte.of_N (Z.to_N (z mod 256))) as [b|]; [|done].
  simpl in H. injection H as ->. lia.
Qed.

Lemma to_uchar_to_char (z : Z) : to_uchar (to_char z) = to_uchar z.
Proof.
  assert (E : to_char z mod 256 = z mod 256).
  { unfold to_char. rewrite Zminus_mod_idemp_l. f_equal. lia. }
  unfold to_uchar. by rewrite E.
Qed.

Lemma checkBrackets_increments (n : nat) :
  checkBrackets (replicate n "+"%byte ++ ["."%byte]) = true.
Proof. unfold checkBrackets. induction n as [|n IH]; [reflexivity|exact IH]. Qed.

Lemma loaded_symbols_increments (n : nat) :
  loaded_symbols (replicate n "+"%byte ++ ["."%byte])
  = replicate n INCREMENT_DATA ++ [OUTPUT_DATA].
Proof.
  induction n as [|n IH]; [reflexivity|].
  change (replicate (S n) "+"%byte ++ ["."%byte])
    with ("+"%byte :: (replicate n "+"%byte ++ ["."%byte])).
  rewrite loaded_symbols_cons. simpl. by rewrite IH.
Qed.

Section Increments.

Variable prog : list Z.
Variable li : list ptr.
Hypothesis prog_balanced : balanced prog.

(** A pass on an increment: the data cell goes up by one, as a [char],
    and the instruction cursor moves on. *)
Lemma loop_body_increment fuel (s : engine) (i : nat) (d : StackBlock) :
  running prog li s →
  li !! i = Some (InstructionPointer s) →
  prog !! i = Some INCREMENT_DATA →
  mem s !! DataPointer s = Some d →
  ∃ q s',
    li !! S i = Some q
    ∧ s' = mkEngine (<[DataPointer s := set_data (to_char (data d + 1)) d]> (mem s))
             q (DataPointer s) (stdin s) (stdout s)
    ∧ loop_body fuel s = Done s'
    ∧ running prog li s'.
Proof using prog_balanced.
  intros Hrun Hi Hprog Hd.
  pose proof Hrun as (Hvals & ld & (Hli & Hld & Hsep & Hip & Hdp)).
  destruct (linked_lookup _ _ _ _ Hli Hi) as (b & Hb & Hn & _).
  assert (Hv : data b = INCREMENT_DATA).
  { pose proof (running_lookup prog li s Hrun i _ Hprog) as H.
    rewrite list_lookup_fmap, Hi in H. simpl in H.
    rewrite (value_at_lookup _ _ _ Hb) in H. congruence. }
  destruct (running_next prog li s Hrun i) as [q Hq];
    [by eapply lookup_lt_Some|].
  assert (Hne : InstructionPointer s ≠ DataPointer s).
  { intros E. apply (Hsep _ Hip). by rewrite E. }
  assert (E : ∀ f, loop_body f s =
    Done (mkEngine (<[DataPointer s := set_data (to_char (data d + 1)) d]> (mem s))
            q (DataPointer s) (stdin s) (stdout s))).
  { intros f. unfold loop_body. rewrite (load_lookup _ _ _ Hb).
    cbn [mbind outcome_bind]. rewrite Hv.
    change (dispatch f INCREMENT_DATA s)
      with (incrementData (mem s) (DataPointer s) ≫= λ h, Done (with_mem h s)).
    unfold incrementData. rewrite (load_lookup _ _ _ Hd).
    cbn [mbind outcome_bind with_mem mem InstructionPointer].
    rewrite (moveForward_next _ _ q b); [reflexivity| |by rewrite Hn].
    rewrite list_lookup_insert_ne by done. exact Hb. }
  eexists q, _. split; [done|]. split; [reflexivity|]. split; [apply E|].
  destruct (loop_body_running prog li prog_balanced (length prog) s Hrun)
    as (s' & Hs' & Hrun'); [|lia|].
  { rewrite (value_at_lookup _ _ _ Hb), Hv. done. }
  rewrite E in Hs'. by injection Hs' as <-.
Qed.

(** A pass on an output: the byte of the data cell is appended to the
    output, and the instruction cursor moves on. *)
Lemma loop_body_output fuel (s : engine) (i : nat) (d : StackBlock) :
  running prog li s →
  li !! i = Some (InstructionPointer s) →
  prog !! i = Some OUTPUT_DATA →
  mem s !! DataPointer s = Some d →
  ∃ q s',
    li !! S i = Some q
    ∧ s' = mkEngine (mem s) q (DataPointer s) (stdin s)
             (stdout s ++ [to_uchar (data d)])
    ∧ loop_body fuel s = Done s'
    ∧ running prog li s'.
Proof using prog_balanced.
  intros Hrun Hi Hprog Hd.
  pose proof Hrun as (Hvals & ld & (Hli & Hld & Hsep & Hip & Hdp)).
  destruct (linked_lookup _ _ _ _ Hli Hi) as (b & Hb & Hn & _).
  assert (Hv : data b = OUTPUT_DATA).
  { pose proof (running_lookup prog li s Hrun i _ Hprog) as H.
    rewrite list_lookup_fmap, Hi in H. simpl in H.
    rewrite (value_at_lookup _ _ _ Hb) in H. congruence. }
  destruct (running_next prog li s Hrun i) as [q Hq];
    [by eapply lookup_lt_Some|].
  assert (E : ∀ f, loop_body f s =
    Done (mkEngine (mem s) q (DataPointer s) (stdin s)
            (stdout s ++ [to_uchar (data d)]))).
  { intros f. unfold loop_body. rewrite (load_lookup _ _ _ Hb).
    cbn [mbind outcome_bind]. rewrite Hv.
    change (dispatch f OUTPUT_DATA s) with (outputData s).
    unfold outputData. rewrite (load_lookup _ _ _ Hd).
    cbn [mbind outcome_bind mem InstructionPointer].
    rewrite (moveForward_next _ _ q b); [reflexivity|exact Hb|by rewrite Hn]. }
  eexists q, _. split; [done|]. split; [reflexivity|]. split; [apply E|].
  destruct (loop_body_running prog li prog_balanced (length prog) s Hrun)
    as (s' & Hs' & Hrun'); [|lia|].
  { rewrite (value_at_lookup _ _ _ Hb), Hv. done. }
  rewrite E in Hs'. by injection Hs' as <-.
Qed.

End Increments.

(** From a cell holding the [char] of [c], [m] increments and an output
    write the byte of [c + m] and leave the [char] of [c + m]. *)
Lemma executeProgram_increments (n : nat) (li : list ptr) :
  balanced (replicate n INCREMENT_DATA ++ [OUTPUT_DATA]) →
  ∀ (m : nat) (s : engine) (k : nat) (d : StackBlock) (c : Z),
  running (replicate n INCREMENT_DATA ++ [OUTPUT_DATA]) li s →
  li !! k = Some (InstructionPointer s) →
  (k + m)%nat = n →
  mem s !! DataPointer s = Some d →
  data d = to_char c →
  ∃ s', executeProgram (S m) s = Done s'
        ∧ stdout s' = stdout s ++ [to_uchar (c + Z.of_nat m)]
        ∧ value_at (mem s') (DataPointer s) = to_char (c + Z.of_nat m)
        ∧ DataPointer s' = DataPointer s
        ∧ stdin s' = stdin s.
Proof.
  intros Hbal m.
  induction m as [|m IH]; intros s k d c Hrun Hk Hkm Hd Hc.
  - assert (Hprog : (replicate n INCREMENT_DATA ++ [OUTPUT_DATA]) !! k
                    = Some OUTPUT_DATA).
    { rewrite lookup_app_r; rewrite length_replicate; [|lia].
      by replace (k - n)%nat with 0%nat by lia. }
    destruct (loop_body_output _ li Hbal 0 s k d Hrun Hk Hprog Hd)
      as (q & s1 & Hq & Es1 & Hbody & Hrun1).
    pose proof Hrun as (_ & ld & (Hli & _)).
    destruct (linked_load _ li k _ Hli Hk) as (b & Hload & Hdata).
    pose proof (running_lookup _ li s Hrun k _ Hprog) as Hv.
    rewrite list_lookup_fmap, Hk in Hv. simpl in Hv. injection Hv as Hv.
    pose proof Hrun1 as (Hvals1 & ld1 & (Hli1 & _)).
    assert (Hq1 : li !! S k = Some (InstructionPointer s1)) by by rewrite Es1.
    destruct (linked_load _ li (S k) _ Hli1 Hq1) as (b1 & Hload1 & Hdata1).
    assert (Hz : value_at (mem s1) (InstructionPointer s1) = 0).
    { assert ((value_at (mem s1) <$> li) !! S k
              = Some (value_at (mem s1) (InstructionPointer s1))) as H
        by by rewrite list_lookup_fmap, Hq1.
      rewrite Hvals1, lookup_app_r in H;
        rewrite length_app, length_replicate in *; simpl in *; [|lia].
      replace (S k - (n + 1))%nat with 0%nat in H by lia. simpl in H.
      congruence. }
    exists s1. split.
    + cbn [executeProgram]. rewrite Hload. cbn [mbind outcome_bind].
      rewrite Hdata, Hv. change (OUTPUT_DATA =? 0) with false. cbn iota.
      rewrite Hbody. cbn [mbind outcome_bind].
      rewrite Hload1. cbn [mbind outcome_bind]. by rewrite Hdata1, Hz.
    + rewrite Es1. cbn [stdout mem DataPointer stdin].
      rewrite Z.add_0_r, Hc, to_uchar_to_char.
      split; [done|]. split; [|done].
      by rewrite (value_at_lookup _ _ _ Hd), Hc.
  - assert (Hprog : (replicate n INCREMENT_DATA ++ [OUTPUT_DATA]) !! k
                    = Some INCREMENT_DATA).
    { rewrite lookup_app_l by (rewrite length_replicate; lia).
      apply lookup_replicate_2. lia. }
    destruct (loop_body_increment _ li Hbal (S m) s k d Hrun Hk Hprog Hd)
      as (q & s1 & Hq & Es1 & Hbody & Hrun1).
    pose proof Hrun as (_ & ld & (Hli & _)).
    destruct (linked_load _ li k _ Hli Hk) as (b & Hload & Hdata).
    pose proof (running_lookup _ li s Hrun k _ Hprog) as Hv.
    rewrite list_lookup_fmap, Hk in Hv. simpl in Hv. injection Hv as Hv.
    destruct (IH s1 (S k) (set_data (to_char (data d + 1)) d) (c + 1))
      as (s' & Hexec & Hout & Hval & Hdp & Hin).
    + done.
    + by rewrite Es1.
    + lia.
    + rewrite Es1. cbn [mem DataPointer].
      apply list_lookup_insert_eq. by eapply lookup_lt_Some.
    + simpl. by rewrite Hc, to_char_add.
    + exists s'. split.
      * cbn [executeProgram]. rewrite Hload. cbn [mbind outcome_bind].
        rewrite Hdata, Hv. change (INCREMENT_DATA =? 0) with false. cbn iota.
        rewrite Hbody. cbn [mbind outcome_bind]. exact Hexec.
      * rewrite Es1 in Hout, Hval, Hdp, Hin.
        cbn [stdout mem DataPointer stdin] in Hout, Hval, Hdp, Hin.
        replace (c + Z.of_nat (S m)) with (c + 1 + Z.of_nat m) by lia.
        done.
Qed.

(** C5: cell arithmetic wraps modulo 256.  For every [n], the program of
    [n] increments followed by an output, started on the zero cell,
    terminates having written the one byte whose value is [n mod 256],
    with the cell holding [n] reduced into -128..127.  So 256 increments
    followed by an output write the same byte, 0, as the output alone
    does, while one increment writes 1 and 255 write 255. *)
Theorem increment_256_wraps (junk : Z) (input : list byte) :
  (∀ n : nat, ∃ s b,
     main junk (replicate n "+"%byte ++ ["."%byte]) input (S n) = Done (Exited s)
     ∧ stdout s = [b]
     ∧ byte_to_Z b = Z.of_nat n mod 256
     ∧ value_at (mem s) dataHead = (Z.of_nat n + 128) mod 256 - 128)
  ∧ ∃ s1 s2,
      main junk (replicate 256 "+"%byte ++ ["."%byte]) input 300 = Done (Exited s1)
      ∧ main junk ["."%byte] input 300 = Done (Exited s2)
      ∧ stdout s1 = stdout s2
      ∧ stdout s2 = [x00].
Proof.
  split.
  - intros n. set (file := replicate n "+"%byte ++ ["."%byte]).
    pose proof (checkBrackets_increments n) as Hcheck. fold file in Hcheck.
    pose proof (loaded_symbols_increments n) as Hsyms. fold file in Hsyms.
    destruct (boot_spec junk file input)
      as (s0 & li & Hboot & Hip & Hdp & Hin & Hout & Hli & Hhead & Hld & Hsep
          & Hzero & Hvals).
    assert (Hne : loaded_symbols file ≠ []).
    { rewrite Hsyms. by destruct n. }
    assert (Hrun : running (loaded_symbols file)
                     (tape_cells (mem s0) instructionHead) s0).
    { apply (reached_running junk file input s0 s0); [done|done|by left|].
      left. by exists 0%nat, 0%nat. }
    rewrite (tape_cells_linked (mem s0) li) in Hrun by done.
    rewrite Hsyms in Hrun.
    destruct (linked_lookup _ [dataHead] 0 dataHead Hld eq_refl)
      as (d & Hd & _).
    assert (Hd0 : data d = to_char 0).
    { rewrite (value_at_lookup _ _ _ Hd) in Hzero. by rewrite Hzero. }
    destruct (executeProgram_increments n li
                ltac:(rewrite <- Hsyms; by apply checkBrackets_balanced)
                n s0 0 d 0)
      as (s' & Hexec & Hout' & Hval & Hdp' & Hin'); try done.
    { by rewrite Hip. }
    { by rewrite Hdp. }
    exists s', (to_uchar (Z.of_nat n)). split.
    + unfold main. rewrite Hcheck, Hboot. cbn [negb mbind outcome_bind].
      by rewrite Hexec.
    + rewrite Hout', Hout, Hdp in *. simpl.
      split; [done|]. split; [apply to_uchar_value|]. done.
  - eexists _, _. split; [vm_compute; reflexivity|].
    split; [vm_compute; reflexivity|]. vm_compute. done.
Qed.

(** ** Two remarks on the definitions above *)

(** A loop start has one matching loop end and a loop end one matching
    loop start. *)
Lemma closes_unique (prog : list Z) (i i' j j' : nat) :
  closes prog i j → closes prog i' j' → (i = i' ↔ j = j').
Proof.
  intros (Hij & _ & _ & Hd & Hk) (Hij' & _ & _ & Hd' & Hk'). split.
  - intros <-. destruct (Nat.lt_trichotomy j j') as [H|[H|H]]; [|done|].
    + specialize (Hk' j). lia.
    + specialize (Hk j'). lia.
  - intros <-. destruct (Nat.lt_trichotomy i i') as [H|[H|H]]; [|done|].
    + destruct i' as [|k]; [lia|]. specialize (Hk k). lia.
    + destruct i as [|k]; [lia|]. specialize (Hk' k). lia.
Qed.

(** The bound on the loop of [freeBlocks] is never reached: the walk
    ends or goes wrong first, whatever the heap. *)
Lemma freeBlocks_loop_total (h : heap) : ∀ (fuel : nat) (freed : list ptr)
    (cur : option ptr),
  NoDup freed → (∀ r, r ∈ freed → (r < length h)%nat) →
  (length h < fuel + length freed)%nat →
  freeBlocks_loop fuel h freed cur ≠ Timeout
  ∧ ∀ freed', freeBlocks_loop fuel h freed cur = Done freed' →
      NoDup freed' ∧ ∀ r, r ∈ freed' → (r < length h)%nat.
Proof.
  induction fuel as [|fuel IH]; intros freed cur Hnd Hlt Hlen.
  - exfalso. simpl in Hlen.
    assert (length freed ≤ length (seq 0 (length h)))%nat as Hle.
    { apply submseteq_length, NoDup_submseteq; [done|].
      intros r Hr. apply elem_of_seq. apply Hlt in Hr. lia. }
    rewrite length_seq in Hle. lia.
  - destruct cur as [p|]; simpl; [|split; [done|by intros ? [= <-]]].
    destruct (bool_decide (p ∈ freed)) eqn:Ein; [done|].
    apply bool_decide_eq_false_1 in Ein.
    unfold load. destruct (h !! p) as [b|] eqn:Hb; simpl; [|done].
    apply IH.
    + apply list.NoDup_app. split; [done|]. split; [|apply NoDup_singleton].
      by intros r Hr ->%list_elem_of_singleton.
    + intros r [Hr| ->%list_elem_of_singleton]%elem_of_app; [by apply Hlt|].
      by eapply lookup_lt_Some.
    + rewrite length_app. simpl. lia.
Qed.

Lemma release_total (s : engine) : release s ≠ Timeout.
Proof.
  unfold release, freeBlocks.
  destruct (freeBlocks_loop_total (mem s) (S (length (mem s))) []
              (Some instructionHead)) as [Hno Hdone].
  { apply NoDup_nil_2. }
  { intros r Hr. by apply elem_of_nil in Hr. }
  { simpl. lia. }
  destruct (freeBlocks_loop _ _ [] _) as [freed| |] eqn:E;
    cbn [mbind outcome_bind]; try done.
  destruct (Hdone freed eq_refl) as [Hnd Hlt].
  apply (freeBlocks_loop_total (mem s) (S (length (mem s))) freed
           (Some dataHead)); [done|done|lia].
Qed.
